(** * Heron Wings viewer: effect library, geometry sampler, rig synthesis
      and emitter updates of [HeronWingsViewer.tsx], embedded in Rocq.

    JavaScript [number]s are modelled as real numbers ([R]): [Math.sin] is
    [sin], [Math.max] is [Rmax], [Math.sqrt] is [sqrt].  Array lengths and
    loop indices are natural numbers, and the counts that callers pass as
    whole numbers (sample counts, caps) are integers, so that
    [Math.floor] of a quotient of two of them is the integer quotient.
    The three.js objects the viewer mutates (meshes, lights, materials)
    live in explicit stores that are threaded through the handlers; what
    three.js computes from a world matrix is a field of the object. *)

From Stdlib Require Import Reals Lra Lia ZArith List Permutation Sorted.
From stdpp Require Import base option list strings gmap.

Local Open Scope R_scope.

(** ** JavaScript number helpers *)

Module Js.

(** [Math.floor]. *)
Definition floor (x : R) : Z := Int_part x.

(** [Math.round]: the nearest integer, halves rounded up. *)
Definition round (x : R) : Z := Int_part (x + / 2).

(** [Math.trunc], which underlies the remainder operator. *)
Definition trunc (x : R) : Z :=
  if Rle_dec 0 x then Int_part x else (- Int_part (- x))%Z.

(** [x % y]: the remainder takes the sign of the dividend. *)
Definition rem (x y : R) : R := x - IZR (trunc (x / y)) * y.

(** [THREE.MathUtils.clamp]. *)
Definition clamp (x lo hi : R) : R := Rmax lo (Rmin hi x).

(** Comparisons of numbers, as booleans. *)
Definition leb (x y : R) : bool := if Rle_dec x y then true else false.
Definition ltb (x y : R) : bool := if Rlt_dec x y then true else false.
Definition geb (x y : R) : bool := leb y x.
Definition gtb (x y : R) : bool := ltb y x.

(** [for (let i = start; i < items.length; i += step)], collecting
    [items[i]]; the loop runs at most [fuel] times. *)
Fixpoint strideFrom {A} (fuel step i : nat) (items : list A) : list A :=
  match fuel with
  | O => []
  | S fuel' =>
      match items !! i with
      | Some x => x :: strideFrom fuel' step (i + step) items
      | None => []
      end
  end.

(** The loop from index 0; with a step of at least 1, [length items]
    iterations are enough. *)
Definition strided {A} (items : list A) (step : nat) : list A :=
  strideFrom (length items) step 0 items.

End Js.

(** ** Effect library *)

Module Effect.

Inductive LightEffect :=
| off
| pink_glow | pink_pulse | pink_wave | pink_ripple
| blue_glow | blue_pulse | blue_wave | blue_ripple
| rainbow_wave | rainbow_ripple
| fire | ocean | aurora.

#[global] Instance LightEffect_eq_dec : EqDecision LightEffect.
Proof. solve_decision. Defined.

(** What a call writes into [outColor]: either [outColor.set(hex)] or
    [outColor.setHSL(h, s, l)].  Two equal writes leave equal colours. *)
Inductive Color :=
| ColorHex (hex : Z)
| ColorHSL (h s l : R).

Definition TAU : R := PI * 2.

Record EffectVisual := { baseColor : Z; effectType : Z }.

Definition getEffectVisual (effect : LightEffect) : EffectVisual :=
  match effect with
  | pink_glow => {| baseColor := 0xF7B5CD; effectType := 0 |}
  | pink_pulse => {| baseColor := 0xF7B5CD; effectType := 1 |}
  | pink_wave => {| baseColor := 0xF7B5CD; effectType := 2 |}
  | pink_ripple => {| baseColor := 0xF7B5CD; effectType := 3 |}
  | blue_glow => {| baseColor := 0x5CA8FF; effectType := 0 |}
  | blue_pulse => {| baseColor := 0x5CA8FF; effectType := 1 |}
  | blue_wave => {| baseColor := 0x5CA8FF; effectType := 2 |}
  | blue_ripple => {| baseColor := 0x5CA8FF; effectType := 3 |}
  | rainbow_wave => {| baseColor := 0xFFFFFF; effectType := 4 |}
  | rainbow_ripple => {| baseColor := 0xFFFFFF; effectType := 5 |}
  | fire => {| baseColor := 0xFF6B35; effectType := 6 |}
  | ocean => {| baseColor := 0x00CED1; effectType := 7 |}
  | aurora => {| baseColor := 0x7FFF00; effectType := 8 |}
  | off => {| baseColor := 0xF7B5CD; effectType := 0 |}
  end.

(** [evaluateEmitterEffect(effect, time, phase, outColor, speed)]: the
    colour written to [outColor] and the returned intensity multiplier.
    Every case writes [outColor], so its previous content plays no part;
    the [default] case cannot be reached from a [LightEffect]. *)
Definition evaluateEmitterEffect
    (effect : LightEffect) (time phase speed : R) : Color * R :=
  let t := time * speed in
  match effect with
  | off => (ColorHex 0x000000, 0)
  | pink_glow => (ColorHex 0xF7B5CD, 1)
  | pink_pulse =>
      let pulse := 0.5 + 0.5 * sin (t * 2.0) in
      (ColorHex 0xF7B5CD, 0.3 + 0.7 * pulse)
  | pink_wave =>
      let wave := 0.5 + 0.5 * sin (t * 3.0 + phase * TAU) in
      (ColorHex 0xF7B5CD, 0.2 + 0.8 * wave)
  | pink_ripple =>
      let ripple := 0.5 + 0.5 * sin (t * 4.0 - phase * TAU * 2.0) in
      (ColorHex 0xF7B5CD, 0.1 + 0.9 * ripple)
  | blue_glow => (ColorHex 0x5CA8FF, 1)
  | blue_pulse =>
      let pulse := 0.5 + 0.5 * sin (t * 2.0) in
      (ColorHex 0x5CA8FF, 0.3 + 0.7 * pulse)
  | blue_wave =>
      let wave := 0.5 + 0.5 * sin (t * 3.0 + phase * TAU) in
      (ColorHex 0x5CA8FF, 0.2 + 0.8 * wave)
  | blue_ripple =>
      let ripple := 0.5 + 0.5 * sin (t * 4.0 - phase * TAU * 2.0) in
      (ColorHex 0x5CA8FF, 0.1 + 0.9 * ripple)
  | rainbow_wave =>
      let hue := Js.rem (t * 0.3 + phase) 1 in
      let wave := 0.5 + 0.5 * sin (t * 2.5 + phase * TAU) in
      (ColorHSL hue 0.85 0.55, 0.4 + 0.6 * wave)
  | rainbow_ripple =>
      let hue := Js.rem (t * 0.2 - phase * 0.5) 1 in
      let ripple := 0.5 + 0.5 * sin (t * 3.5 - phase * TAU * 2.0) in
      (ColorHSL (if Rlt_dec hue 0 then hue + 1 else hue) 0.9 0.55,
       0.2 + 0.8 * ripple)
  | fire =>
      let flicker :=
        sin (t * 8.0 + phase * 5.0) * sin (t * 12.0 + phase * 7.0) in
      let hue := 0.05 + 0.05 * flicker in
      (ColorHSL hue 1.0 (0.5 + 0.15 * flicker),
       0.5 + 0.5 * (0.5 + 0.5 * flicker))
  | ocean =>
      let wave1 := sin (t * 1.5 + phase * TAU) in
      let wave2 := sin (t * 2.3 + phase * TAU * 1.5) in
      let combined := (wave1 + wave2) * 0.5 in
      let hue := 0.52 + 0.03 * combined in
      (ColorHSL hue 0.7 (0.45 + 0.1 * combined),
       0.4 + 0.6 * (0.5 + 0.5 * combined))
  | aurora =>
      let shift := sin (t * 0.8 + phase * TAU) in
      let shimmer := sin (t * 4.0 + phase * 3.0) * 0.3 in
      let hue := 0.35 + 0.15 * shift + 0.05 * shimmer in
      (ColorHSL hue 0.75 (0.5 + 0.15 * shimmer),
       0.5 + 0.5 * (0.5 + 0.5 * shift + 0.2 * shimmer))
  end.

(** The intensity multiplier alone. *)
Definition intensityOf (effect : LightEffect) (time phase speed : R) : R :=
  snd (evaluateEmitterEffect effect time phase speed).

(** The colour written alone. *)
Definition colorOf (effect : LightEffect) (time phase speed : R) : Color :=
  fst (evaluateEmitterEffect effect time phase speed).

End Effect.

(** ** Geometry sampler *)

Module Geometry.

Record Vector3 := { x : R; y : R; z : R }.
Record Vector2 := { uvX : R; uvY : R }.

Definition sub (a b : Vector3) : Vector3 :=
  {| x := x a - x b; y := y a - y b; z := z a - z b |}.

Definition lengthSq (v : Vector3) : R := x v * x v + y v * y v + z v * z v.

Definition distanceToSquared (a b : Vector3) : R :=
  let dx := x a - x b in
  let dy := y a - y b in
  let dz := z a - z b in
  dx * dx + dy * dy + dz * dz.

Definition distanceTo (a b : Vector3) : R := sqrt (distanceToSquared a b).

Definition lerp (a b : Vector3) (alpha : R) : Vector3 :=
  {| x := x a + (x b - x a) * alpha;
     y := y a + (y b - y a) * alpha;
     z := z a + (z b - z a) * alpha |}.

Definition addScaledVector (a v : Vector3) (s : R) : Vector3 :=
  {| x := x a + x v * s; y := y a + y v * s; z := z a + z v * s |}.

Definition setY (a : Vector3) (y' : R) : Vector3 :=
  {| x := x a; y := y'; z := z a |}.

(** [v.normalize()], that is [v.divideScalar(v.length() || 1)]. *)
Definition normalize (v : Vector3) : Vector3 :=
  let len := sqrt (lengthSq v) in
  let d := if Req_dec_T len 0 then 1 else len in
  {| x := x v / d; y := y v / d; z := z v / d |}.

(** A geometry is a [BufferGeometry] with optional [position] and [uv]
    attributes, or something else. *)
Inductive BufferGeometry :=
| OtherGeometry
| Buffer (position : option (list Vector3)) (uv : option (list Vector2)).

(** What the sampler uses of a [THREE.Mesh]: its geometry, and the
    three.js services that depend on its world matrix. *)
Record Mesh := {
  geometry : BufferGeometry;
  localToWorld : Vector3 -> Vector3;
  transformDirection : Vector3 -> Vector3;
  getWorldPosition : Vector3;
  worldBoundsSize : Vector3
}.

(** [geometry.computeBoundingBox()] followed by [boundingBox.getSize]:
    the extent of the vertices on each axis, zero for an empty box. *)
Definition boundingBoxSize (positions : list Vector3) : Vector3 :=
  match positions with
  | [] => {| x := 0; y := 0; z := 0 |}
  | p :: ps =>
      let hi f := fold_left Rmax (map f ps) (f p) in
      let lo f := fold_left Rmin (map f ps) (f p) in
      {| x := hi x - lo x; y := hi y - lo y; z := hi z - lo z |}
  end.

Inductive AxisName := axisX | axisY | axisZ.

Definition getLargestAxisName (size : Vector3) : AxisName :=
  if Js.geb (y size) (x size) && Js.geb (y size) (z size) then axisY
  else if Js.geb (z size) (x size) && Js.geb (z size) (y size) then axisZ
  else axisX.

(** [localPoint[axis]]. *)
Definition component (axis : AxisName) (p : Vector3) : R :=
  match axis with axisX => x p | axisY => y p | axisZ => z p end.

Record SampledVertex := { axisValue : R; point : Vector3 }.

(** [sampledVertices.sort((a, b) => a.axisValue - b.axisValue)]: ascending
    and stable (vertices of equal axis value keep their order). *)
Fixpoint insertByAxis (v : SampledVertex) (l : list SampledVertex)
    : list SampledVertex :=
  match l with
  | [] => [v]
  | w :: l' =>
      if Js.leb (axisValue v) (axisValue w) then v :: w :: l'
      else w :: insertByAxis v l'
  end.

Definition sortByAxis (l : list SampledVertex) : list SampledVertex :=
  foldr insertByAxis [] l.

(** The order the sort establishes. *)
Definition axisLe (a b : SampledVertex) : Prop := axisValue a <= axisValue b.

(** The rank picked for sample [i] out of [count] among [len] items:
    [Math.round((len - 1) * t)] with [t] = 0.5 for a single sample and
    [i / (count - 1)] otherwise. *)
Definition sampleIndex (len : nat) (count : R) (i : nat) : nat :=
  let t := if Req_dec_T count 1 then 0.5 else INR i / (count - 1) in
  Z.to_nat (Js.round ((INR len - 1) * t)).

(** The vertices the sampler looks at: every [step]-th one, tagged with
    its coordinate on the dominant axis of the bounding box. *)
Definition sampledVerticesOf (positions : list Vector3)
    : list SampledVertex :=
  let size := boundingBoxSize positions in
  let axis := getLargestAxisName size in
  let step := Nat.max 1 (length positions / 2048) in
  map (fun p => {| axisValue := component axis p; point := p |})
      (Js.strided positions step).

(** The bounding box is never missing after [computeBoundingBox], so the
    third early return of the source does not appear.  A rank outside the
    sorted array would make the source fail on [undefined.point]; here it
    would drop the point, and [sampleIndex_lt] shows it never happens. *)
Definition sampleMeshWorldPoints (mesh : Mesh) (sampleCount : Z)
    : list Vector3 :=
  if (sampleCount <=? 0)%Z then []
  else
    match geometry mesh with
    | OtherGeometry => [getWorldPosition mesh]
    | Buffer None _ => [getWorldPosition mesh]
    | Buffer (Some positions) _ =>
        let sampledVertices := sampledVerticesOf positions in
        if (length sampledVertices =? 0)%nat then [getWorldPosition mesh]
        else
          let sorted := sortByAxis sampledVertices in
          let count := Nat.min (Z.to_nat sampleCount) (length sorted) in
          omap (fun i =>
                  (fun v => localToWorld mesh (point v)) <$>
                    sorted !! sampleIndex (length sorted) (INR count) i)
               (seq 0 count)
    end.

Record EdgeUvSample := { position : Vector3; u : R }.

Definition sampleMeshUvWorldPoints (mesh : Mesh) (maxSamples : Z)
    : list EdgeUvSample :=
  if (maxSamples <=? 0)%Z then []
  else
    match geometry mesh with
    | Buffer (Some positions) (Some uvs) =>
        let vertices := zip positions uvs in
        let count := length vertices in
        if (count =? 0)%nat then []
        else
          let step :=
            Z.to_nat (Z.max 1 (Z.of_nat count / maxSamples)) in
          map (fun '(localPoint, localUv) =>
                 let wrappedU := Js.rem (Js.rem (uvX localUv) 1 + 1) 1 in
                 {| position := localToWorld mesh localPoint;
                    u := wrappedU |})
              (Js.strided vertices step)
    | _ => []
    end.

Definition getNearestUvPhase (worldPoint : Vector3)
    (uvSamples : list EdgeUvSample) : option R :=
  match uvSamples with
  | [] => None
  | first :: rest =>
      let nearest :=
        fold_left
          (fun '(nearestSample, nearestDistanceSq) sample =>
             let distanceSq :=
               distanceToSquared worldPoint (position sample) in
             if Js.ltb distanceSq nearestDistanceSq
             then (sample, distanceSq)
             else (nearestSample, nearestDistanceSq))
          rest
          (first, distanceToSquared worldPoint (position first)) in
      Some (u (fst nearest))
  end.

Definition invertUvPhase (uvPhase : R) : R :=
  Js.rem (Js.rem (1 - uvPhase) 1 + 1) 1.

(** As in [sampleMeshWorldPoints], every rank is in range
    ([downsampleEvenly_length]), so no [undefined] is ever pushed. *)
Definition downsampleEvenly {T} (items : list T) (maxCount : Z) : list T :=
  if (maxCount <=? 0)%Z then []
  else if (Z.of_nat (length items) <=? maxCount)%Z then items
  else
    omap (fun i => items !! sampleIndex (length items) (IZR maxCount) i)
         (seq 0 (Z.to_nat maxCount)).

End Geometry.

(** ** Light rig synthesizer *)

Module Rig.

Import Geometry.

Inductive EmissiveLayerType := edge_led | base_lights | wash_lights.

#[global] Instance EmissiveLayerType_eq_dec : EqDecision EmissiveLayerType.
Proof. solve_decision. Defined.

Inductive LightKind := SpotLight | PointLight.

#[global] Instance LightKind_eq_dec : EqDecision LightKind.
Proof. solve_decision. Defined.

(** Objects of the loaded model are named by their position in the scene
    traversal. *)
Definition ObjectId := nat.

(** An emitter's [sourceObject]: an object of the model, or the fresh
    [new THREE.Object3D()] (always visible) made for a bare wash point. *)
Inductive SourceObject :=
| SceneObject (id : ObjectId)
| DummyObject.

(** The fields of a [THREE.SpotLight] / [THREE.PointLight] the viewer
    reads or writes. *)
Record Light := {
  lightKind : LightKind;
  lightPosition : Vector3;
  distance : R;
  castShadow : bool;
  visible : bool;
  intensity : R;
  color : Effect.Color
}.

Record Target := { targetPosition : Vector3; targetVisible : bool }.

Record EmissiveEmitterLight := {
  light : Light;
  target : option Target;
  sourceObject : SourceObject;
  followSourceVisibility : bool;
  layerType : EmissiveLayerType;
  phase : R;
  baseIntensity : R
}.

(** A guide curve ([THREE.Line] / [THREE.LineSegments]): the [position]
    attribute of its buffer geometry, when it has one. *)
Record Line := {
  linePositions : option (list Vector3);
  lineLocalToWorld : Vector3 -> Vector3
}.

(** The geometry the loader has classified by layer. *)
Record ClassifiedGeometry := {
  edgeLedMeshes : list (ObjectId * Mesh);
  baseLightMeshes : list (ObjectId * Mesh);
  washLightMeshes : list (ObjectId * Mesh);
  washLightPositions : list Vector3;
  emitterGuideObjects : list (ObjectId * Line)
}.

(** The variables the rig closures update. *)
Record RigState := {
  emissiveEmitterLights : list EmissiveEmitterLight;
  edgeShadowCasterCount : nat;
  baseShadowCasterCount : nat;
  edgeRigCount : nat
}.

Definition initialRigState : RigState :=
  {| emissiveEmitterLights := [];
     edgeShadowCasterCount := 0;
     baseShadowCasterCount := 0;
     edgeRigCount := 0 |}.

Record EdgeGuideRig := {
  guideStart : Vector3;
  guideEnd : Vector3;
  guideSourceObject : ObjectId;
  guidePhase : R
}.

Record EdgeCandidate := {
  edgeSourceObject : ObjectId;
  edgePoint : Vector3;
  edgePhase : R;
  edgeDirection : Vector3
}.

Record BaseCandidate := {
  baseMesh : ObjectId;
  basePoint : Vector3;
  basePhase : R
}.

Record WashCandidate := {
  washSourceObject : option ObjectId;
  washPoint : Vector3;
  washPhase : R
}.

Definition unitX : Vector3 := {| x := 1; y := 0; z := 0 |}.
Definition unitZ : Vector3 := {| x := 0; y := 0; z := 1 |}.

Definition getMeshHorizontalAxisDirection (mesh : Mesh) : Vector3 :=
  let fallback :=
    let direction := setY (transformDirection mesh unitX) 0 in
    normalize
      (if Js.leb (lengthSq direction) 1e-6 then unitX else direction) in
  match geometry mesh with
  | Buffer positions _ =>
      let size := boundingBoxSize (default [] positions) in
      let localAxis := if Js.geb (x size) (z size) then unitX else unitZ in
      let direction := setY (transformDirection mesh localAxis) 0 in
      if Js.gtb (lengthSq direction) 1e-6 then normalize direction
      else fallback
  | OtherGeometry => fallback
  end.

Definition getLineWorldPoints (lineObject : Line) : list Vector3 :=
  match linePositions lineObject with
  | None => []
  | Some positions =>
      if (length positions <? 2)%nat then []
      else map (lineLocalToWorld lineObject) positions
  end.

(** The two nested loops over [i < j]; [None] stands for the failure on
    an empty array, which no caller passes. *)
Definition getFarthestPointPair (points : list Vector3)
    : option (Vector3 * Vector3) :=
  match points with
  | [] => None
  | first :: _ =>
      let start := (-1, first, default first (points !! 1%nat)) in
      let inner i acc j :=
        let '(maxDistanceSq, pointA, pointB) := acc in
        match points !! i, points !! j with
        | Some pi, Some pj =>
            let distanceSq := distanceToSquared pi pj in
            if Js.gtb distanceSq maxDistanceSq
            then (distanceSq, pi, pj)
            else acc
        | _, _ => acc
        end in
      let outer acc i :=
        fold_left (inner i) (seq (i + 1) (length points - (i + 1))) acc in
      let '(_, pointA, pointB) :=
        fold_left outer (seq 0 (length points)) start in
      Some (pointA, pointB)
  end.

Section WithModel.

(** The largest dimension and the lowest point of the model's bounding
    box, from which every rig constant derives. *)
Variable maxDim : R.
Variable boxMinY : R.

Definition maxEdgeEmitters : Z := 4.
Definition maxBaseEmitters : Z := 0.
Definition maxShadowCastingEdgeEmitters : nat := 3.
Definition maxShadowCastingBaseEmitters : nat := 0.
Definition groundY : R := boxMinY + 0.1.
Definition edgeEmitterDistance : R := Rmax (maxDim * 0.175) 24.
Definition baseEmitterDistance : R := Rmax (maxDim * 0.0875) 12.
Definition edgeMinIntensity : R := Rmax (maxDim * 3) 2500.
Definition baseMinIntensity : R := Rmax (maxDim * 4) 3500.
Definition edgeTargetGroundLux : R := 8.
Definition baseTargetGroundLux : R := 11.
Definition edgeThrowPadding : R := 4.0.
Definition baseThrowPadding : R := 4.0.
Definition throwExtensionScale : R := 1.1.
Definition fallbackEdgeLineSegmentCount : R := 3.
Definition guideEdgeLightFractions : list R := [1 / 3; 2 / 3].
Definition guideEdgeLineSegmentCount : R :=
  INR (length guideEdgeLightFractions).
Definition edgeLineLength : R := Rmax (maxDim * 0.16) 24.

(** [normalizedSegmentCount] of [addEdgeEmitterRig]. *)
Definition normalizedFractionsOf (segmentFractions : option (list R))
    : option (list R) :=
  match segmentFractions with
  | Some (f :: fs) =>
      Some (map (fun fraction => Js.clamp fraction 0 1) (f :: fs))
  | _ => None
  end.

Definition normalizedSegmentCountOf (segmentCount : R)
    (segmentFractions : option (list R)) : nat :=
  match normalizedFractionsOf segmentFractions with
  | Some fractions => length fractions
  | None => Z.to_nat (Z.max 1 (Js.round segmentCount))
  end.

(** One iteration of the segment loop of [addEdgeEmitterRig]. *)
Definition addEdgeSegment (sourceObject : SourceObject) (phase : R)
    (followSourceVisibility : bool)
    (normalizedSegmentCount shadowSegmentIndex : nat)
    (st : RigState) (segment : nat * Vector3) : RigState :=
  let '(segmentIndex, segmentPosition) := segment in
  let lightPos :=
    setY segmentPosition (y segmentPosition + Rmax (maxDim * 0.015) 0.8) in
  let targetPos := setY segmentPosition groundY in
  let throwToGround := distanceTo lightPos targetPos in
  let effectiveDistance :=
    (throwToGround + edgeThrowPadding) * throwExtensionScale in
  let photometricIntensity :=
    edgeTargetGroundLux * effectiveDistance * effectiveDistance in
  let emitterRigIntensity := Rmax edgeMinIntensity photometricIntensity in
  let emitterBaseIntensity :=
    emitterRigIntensity / INR normalizedSegmentCount in
  let isShadowSegment := (segmentIndex =? shadowSegmentIndex)%nat in
  let casts :=
    isShadowSegment &&
    (edgeShadowCasterCount st <? maxShadowCastingEdgeEmitters)%nat in
  let spotLight :=
    {| lightKind := SpotLight;
       lightPosition := lightPos;
       distance := effectiveDistance;
       castShadow := casts;
       visible := true;
       intensity := emitterBaseIntensity;
       color := Effect.ColorHex 0xF7B5CD |} in
  {| emissiveEmitterLights :=
       emissiveEmitterLights st ++
       [{| light := spotLight;
           target :=
             Some {| targetPosition := targetPos; targetVisible := true |};
           sourceObject := sourceObject;
           followSourceVisibility := followSourceVisibility;
           layerType := edge_led;
           phase :=
             Js.rem
               (phase +
                INR segmentIndex / Rmax (INR normalizedSegmentCount * 6) 1)
               1;
           baseIntensity := emitterBaseIntensity |}];
     edgeShadowCasterCount :=
       if casts then S (edgeShadowCasterCount st)
       else edgeShadowCasterCount st;
     baseShadowCasterCount := baseShadowCasterCount st;
     edgeRigCount := edgeRigCount st |}.

Definition addEdgeEmitterRig (rigStart rigEnd : Vector3)
    (sourceObject : SourceObject) (phase : R)
    (followSourceVisibility : bool) (segmentCount : R)
    (segmentFractions : option (list R)) (st : RigState) : RigState :=
  let rigDirection :=
    let d := setY (sub rigEnd rigStart) 0 in
    normalize (if Js.leb (lengthSq d) 1e-6 then unitX else d) in
  let normalizedFractions := normalizedFractionsOf segmentFractions in
  let normalizedSegmentCount :=
    normalizedSegmentCountOf segmentCount segmentFractions in
  let shadowSegmentIndex :=
    Z.to_nat (Js.round ((INR normalizedSegmentCount - 1) * 0.5)) in
  let segmentPositions :=
    match normalizedFractions with
    | Some fractions =>
        map (fun fraction => lerp rigStart rigEnd fraction) fractions
    | None =>
        let horizontalSpan :=
          distanceTo (setY rigStart 0) (setY rigEnd 0) in
        let rigLength := Rmax horizontalSpan edgeLineLength in
        let segmentSpacing :=
          if (1 <? normalizedSegmentCount)%nat
          then rigLength / (INR normalizedSegmentCount - 1)
          else 0 in
        let segmentCenter := (INR normalizedSegmentCount - 1) * 0.5 in
        let rigCenter := lerp rigStart rigEnd 0.5 in
        map (fun segmentIndex =>
               let offset :=
                 (INR segmentIndex - segmentCenter) * segmentSpacing in
               addScaledVector rigCenter rigDirection offset)
            (seq 0 normalizedSegmentCount)
    end in
  fold_left
    (addEdgeSegment sourceObject phase followSourceVisibility
       normalizedSegmentCount shadowSegmentIndex)
    (zip (seq 0 normalizedSegmentCount) segmentPositions)
    {| emissiveEmitterLights := emissiveEmitterLights st;
       edgeShadowCasterCount := edgeShadowCasterCount st;
       baseShadowCasterCount := baseShadowCasterCount st;
       edgeRigCount := S (edgeRigCount st) |}.

Definition addBaseEmitter (position : Vector3) (sourceObject : SourceObject)
    (phase : R) (st : RigState) : RigState :=
  let lightPos := setY position (y position + Rmax (maxDim * 0.01) 0.35) in
  let targetPos := setY position groundY in
  let throwToGround := distanceTo lightPos targetPos in
  let effectiveDistance :=
    (throwToGround + baseThrowPadding) * throwExtensionScale in
  let photometricIntensity :=
    baseTargetGroundLux * effectiveDistance * effectiveDistance in
  let emitterBaseIntensity := Rmax baseMinIntensity photometricIntensity in
  let casts :=
    (baseShadowCasterCount st <? maxShadowCastingBaseEmitters)%nat in
  let spotLight :=
    {| lightKind := SpotLight;
       lightPosition := lightPos;
       distance := effectiveDistance;
       castShadow := casts;
       visible := true;
       intensity := emitterBaseIntensity;
       color := Effect.ColorHex 0xF7B5CD |} in
  {| emissiveEmitterLights :=
       emissiveEmitterLights st ++
       [{| light := spotLight;
           target :=
             Some {| targetPosition := targetPos; targetVisible := true |};
           sourceObject := sourceObject;
           followSourceVisibility := true;
           layerType := base_lights;
           phase := phase;
           baseIntensity := emitterBaseIntensity |}];
     edgeShadowCasterCount := edgeShadowCasterCount st;
     baseShadowCasterCount :=
       if casts then S (baseShadowCasterCount st)
       else baseShadowCasterCount st;
     edgeRigCount := edgeRigCount st |}.

Definition washEmitterDistance : R := Rmax (maxDim * 0.32) 40.
Definition washBaseIntensity : R := 100.

Definition addWashEmitter (position : Vector3) (sourceObject : SourceObject)
    (phase : R) (st : RigState) : RigState :=
  let lightPos := setY position (y position + Rmax (maxDim * 0.01) 0.5) in
  let emitterBaseIntensity := washBaseIntensity in
  let pointLight :=
    {| lightKind := PointLight;
       lightPosition := lightPos;
       distance := washEmitterDistance;
       castShadow := false;
       visible := true;
       intensity := emitterBaseIntensity;
       color := Effect.ColorHex 0x5CA8FF |} in
  {| emissiveEmitterLights :=
       emissiveEmitterLights st ++
       [{| light := pointLight;
           target := None;
           sourceObject := sourceObject;
           followSourceVisibility := true;
           layerType := wash_lights;
           phase := phase;
           baseIntensity := emitterBaseIntensity |}];
     edgeShadowCasterCount := edgeShadowCasterCount st;
     baseShadowCasterCount := baseShadowCasterCount st;
     edgeRigCount := edgeRigCount st |}.

Definition edgeUvSamplesOf (cg : ClassifiedGeometry) : list EdgeUvSample :=
  downsampleEvenly
    (flat_map (fun entry => sampleMeshUvWorldPoints (snd entry) 320)
       (edgeLedMeshes cg))
    4000.

Definition edgeGuideRigsOf (cg : ClassifiedGeometry)
    (edgeUvSamples : list EdgeUvSample) : list EdgeGuideRig :=
  concat
    (imap
       (fun guideIndex guide =>
          let '(guideId, guideObject) := guide in
          let points := getLineWorldPoints guideObject in
          if (length points <? 2)%nat then []
          else
            match getFarthestPointPair points with
            | None => []
            | Some (start, end_) =>
                if Js.leb (distanceToSquared start end_) 1 then []
                else
                  let guideCenter := lerp start end_ 0.5 in
                  let uvPhase := getNearestUvPhase guideCenter edgeUvSamples in
                  [{| guideStart := start;
                      guideEnd := end_;
                      guideSourceObject := guideId;
                      guidePhase :=
                        match uvPhase with
                        | Some uvPhase => invertUvPhase uvPhase
                        | None =>
                            INR guideIndex /
                            Rmax (INR (length (emitterGuideObjects cg))) 1
                        end |}]
            end)
       (emitterGuideObjects cg)).

Definition edgeCandidatesOf (cg : ClassifiedGeometry)
    (edgeUvSamples : list EdgeUvSample) : list EdgeCandidate :=
  concat
    (imap
       (fun meshIndex entry =>
          let '(meshId, mesh) := entry in
          let meshSize := worldBoundsSize mesh in
          let meshSpan :=
            Rmax (Rmax (x meshSize) (y meshSize)) (z meshSize) in
          let sampleCount :=
            Z.min 4
              (Z.max 1 (Js.round (meshSpan / Rmax (maxDim * 0.14) 8))) in
          let direction := getMeshHorizontalAxisDirection mesh in
          let points := sampleMeshWorldPoints mesh sampleCount in
          imap
            (fun pointIndex point =>
               let fallbackPhase :=
                 (INR meshIndex +
                  INR pointIndex / Rmax (INR (length points)) 1) /
                 Rmax (INR (length (edgeLedMeshes cg))) 1 in
               let uvPhase := getNearestUvPhase point edgeUvSamples in
               {| edgeSourceObject := meshId;
                  edgePoint := point;
                  edgePhase :=
                    match uvPhase with
                    | Some uvPhase => invertUvPhase uvPhase
                    | None => Js.rem fallbackPhase 1
                    end;
                  edgeDirection := direction |})
            points)
       (edgeLedMeshes cg)).

(** [edgeCandidates.reduce((highest, c) => Math.max(highest, c.point.y),
    -Infinity)]; [None] is [-Infinity]. *)
Definition highestEdgeYOf (edgeCandidates : list EdgeCandidate) : option R :=
  fold_left
    (fun highest candidate =>
       Some match highest with
            | None => y (edgePoint candidate)
            | Some h => Rmax h (y (edgePoint candidate))
            end)
    edgeCandidates None.

Definition canopyBand : R := Rmax (maxDim * 0.08) 5.

(** [highestEdgeY - candidate.point.y <= canopyBand]. *)
Definition inCanopyBand (highestEdgeY : option R)
    (candidate : EdgeCandidate) : bool :=
  match highestEdgeY with
  | Some h => Js.leb (h - y (edgePoint candidate)) canopyBand
  | None => true
  end.

Definition canopyEdgeCandidatesOf (edgeCandidates : list EdgeCandidate)
    : list EdgeCandidate :=
  List.filter (inCanopyBand (highestEdgeYOf edgeCandidates)) edgeCandidates.

(** The candidates the guide-less path turns into rigs. *)
Definition fallbackRigCandidates (edgeCandidates : list EdgeCandidate)
    : list EdgeCandidate :=
  downsampleEvenly (canopyEdgeCandidatesOf edgeCandidates) maxEdgeEmitters.

Definition addFallbackRig (st : RigState) (candidate : EdgeCandidate)
    : RigState :=
  let rigHalf := edgeLineLength * 0.5 in
  let start :=
    addScaledVector (edgePoint candidate) (edgeDirection candidate)
      (- rigHalf) in
  let end_ :=
    addScaledVector (edgePoint candidate) (edgeDirection candidate)
      rigHalf in
  addEdgeEmitterRig start end_ (SceneObject (edgeSourceObject candidate))
    (edgePhase candidate) true fallbackEdgeLineSegmentCount None st.

Definition addGuideRig (st : RigState) (guideRig : EdgeGuideRig) : RigState :=
  addEdgeEmitterRig (guideStart guideRig) (guideEnd guideRig)
    (SceneObject (guideSourceObject guideRig)) (guidePhase guideRig)
    false guideEdgeLineSegmentCount (Some guideEdgeLightFractions) st.

Definition addEdgeRigs (edgeGuideRigs : list EdgeGuideRig)
    (edgeCandidates : list EdgeCandidate) (st : RigState) : RigState :=
  if (0 <? length edgeGuideRigs)%nat
  then fold_left addGuideRig edgeGuideRigs st
  else fold_left addFallbackRig (fallbackRigCandidates edgeCandidates) st.

Definition baseCandidatesOf (cg : ClassifiedGeometry) : list BaseCandidate :=
  concat
    (imap
       (fun meshIndex entry =>
          let '(meshId, mesh) := entry in
          let points := sampleMeshWorldPoints mesh 1 in
          map (fun point =>
                 let phase :=
                   INR meshIndex /
                   Rmax (INR (length (baseLightMeshes cg))) 1 in
                 {| baseMesh := meshId;
                    basePoint := point;
                    basePhase := Js.rem phase 1 |})
              points)
       (baseLightMeshes cg)).

Definition addBaseEmitters (baseCandidates : list BaseCandidate)
    (st : RigState) : RigState :=
  fold_left
    (fun st candidate =>
       addBaseEmitter (basePoint candidate)
         (SceneObject (baseMesh candidate)) (basePhase candidate) st)
    (downsampleEvenly baseCandidates maxBaseEmitters) st.

Definition washCandidatesOf (cg : ClassifiedGeometry)
    (edgeUvSamples : list EdgeUvSample) : list WashCandidate :=
  let total :=
    Rmax (INR (length (washLightMeshes cg)) +
          INR (length (washLightPositions cg))) 1 in
  let phaseAt point fallbackPhase :=
    match getNearestUvPhase point edgeUvSamples with
    | Some uvPhase => invertUvPhase uvPhase
    | None => Js.rem fallbackPhase 1
    end in
  concat
    (imap
       (fun meshIndex entry =>
          let '(meshId, mesh) := entry in
          let points := sampleMeshWorldPoints mesh 1 in
          map (fun point =>
                 let fallbackPhase := INR meshIndex / total in
                 {| washSourceObject := Some meshId;
                    washPoint := point;
                    washPhase := phaseAt point fallbackPhase |})
              points)
       (washLightMeshes cg))
  ++
  imap
    (fun posIndex position =>
       let fallbackPhase :=
         (INR (length (washLightMeshes cg)) + INR posIndex) / total in
       {| washSourceObject := None;
          washPoint := position;
          washPhase := phaseAt position fallbackPhase |})
    (washLightPositions cg).

Definition addWashEmitters (washCandidates : list WashCandidate)
    (st : RigState) : RigState :=
  fold_left
    (fun st candidate =>
       addWashEmitter (washPoint candidate)
         (from_option SceneObject DummyObject (washSourceObject candidate))
         (washPhase candidate) st)
    washCandidates st.

(** The emitter synthesis of the load callback, in source order: edge
    rigs, base emitters, wash emitters. *)
Definition synthesizeEmitters (cg : ClassifiedGeometry) : RigState :=
  let edgeUvSamples := edgeUvSamplesOf cg in
  let edgeGuideRigs := edgeGuideRigsOf cg edgeUvSamples in
  let edgeCandidates := edgeCandidatesOf cg edgeUvSamples in
  let st := addEdgeRigs edgeGuideRigs edgeCandidates initialRigState in
  let st := addBaseEmitters (baseCandidatesOf cg) st in
  addWashEmitters (washCandidatesOf cg edgeUvSamples) st.

End WithModel.

(** What every emitter made by an edge rig of [n] segments looks like: an
    edge-led spot light carrying the rig's source and visibility flag,
    whose share of the rig's intensity is a [n]-th of at least [floor]. *)
Definition edgeRigEmitter (floor : R) (n : nat) (source : SourceObject)
    (follow : bool) (emitter : EmissiveEmitterLight) : Prop :=
  layerType emitter = edge_led /\
  lightKind (light emitter) = SpotLight /\
  sourceObject emitter = source /\
  followSourceVisibility emitter = follow /\
  floor <= baseIntensity emitter * INR n.

End Rig.

(** ** Viewer state and its handlers *)

Module Viewer.

Import Effect Rig.

Definition MaterialId := nat.

(** A child of the loaded model: the fields the handlers touch. *)
Record Object3D := {
  objVisible : bool;
  layerIndex : option Z;
  material : MaterialId
}.

Definition setObjVisible (v : bool) (o : Object3D) : Object3D :=
  {| objVisible := v; layerIndex := layerIndex o; material := material o |}.

Definition setMaterial (m : MaterialId) (o : Object3D) : Object3D :=
  {| objVisible := objVisible o; layerIndex := layerIndex o; material := m |}.

Record RhinoLayer := {
  index : Z;
  name : string;
  layerVisible : bool;
  layerColor : string
}.

(** A glow [THREE.ShaderMaterial]: its identity and its uniforms. *)
Record ShaderMaterial := {
  shaderId : MaterialId;
  uTime : R;
  uColor : Z;
  uIntensity : R;
  uSpeed : R;
  uEffectType : Z
}.

(** The refs of [HeronWingsViewer] that the lighting handlers share,
    for a viewer whose model is loaded. *)
Record ViewerState := {
  objects : gmap ObjectId Object3D;
  emissiveMeshes : list ObjectId;
  shaderMaterials : list ShaderMaterial;
  originalMaterials : gmap ObjectId MaterialId;
  washMeshes : list ObjectId;
  washShaderMaterials : list ShaderMaterial;
  washOriginalMaterials : gmap ObjectId MaterialId;
  emitterLights : list EmissiveEmitterLight;
  activeLightEffect : LightEffect;
  activeWashLightEffect : LightEffect;
  emitterIntensity : R;
  washIntensity : R;
  effectSpeed : R
}.

(** The load callback, for a mesh [child] on a linear emissive layer
    (Edge LED or Base Lights, and not Face): the mesh joins
    [emissiveMeshes], a powered-down clone [offMaterial] of its material
    is stored for it, and a glow shader [shader] is made for it. *)
Definition registerLinearMesh (child : ObjectId)
    (offMaterial shader : MaterialId) (edgeGlowIntensity speed : R)
    (v : ViewerState) : ViewerState :=
  {| objects := objects v;
     emissiveMeshes := emissiveMeshes v ++ [child];
     shaderMaterials :=
       shaderMaterials v ++
       [{| shaderId := shader;
           uTime := 0;
           uColor := 0xF7B5CD;
           uIntensity := edgeGlowIntensity;
           uSpeed := speed;
           uEffectType := 0 |}];
     originalMaterials := <[child := offMaterial]> (originalMaterials v);
     washMeshes := washMeshes v;
     washShaderMaterials := washShaderMaterials v;
     washOriginalMaterials := washOriginalMaterials v;
     emitterLights := emitterLights v;
     activeLightEffect := activeLightEffect v;
     activeWashLightEffect := activeWashLightEffect v;
     emitterIntensity := emitterIntensity v;
     washIntensity := washIntensity v;
     effectSpeed := effectSpeed v |}.

(** Every linear mesh has a stored powered-down clone. *)
Definition linearMeshesStored (v : ViewerState) : Prop :=
  forall mesh, In mesh (emissiveMeshes v) ->
    is_Some (originalMaterials v !! mesh).

(** [emitter.sourceObject.visible]. *)
Definition sourceVisible (objs : gmap ObjectId Object3D)
    (source : SourceObject) : bool :=
  match source with
  | DummyObject => true
  | SceneObject id => from_option objVisible false (objs !! id)
  end.

Definition shouldEmitterBeVisible (objs : gmap ObjectId Object3D)
    (emitter : EmissiveEmitterLight) (effect : LightEffect) : bool :=
  if decide (effect = off) then false
  else if negb (followSourceVisibility emitter) then true
  else sourceVisible objs (sourceObject emitter).

Definition setLight (emitter : EmissiveEmitterLight) (l : Light)
    (t : option Target) : EmissiveEmitterLight :=
  {| light := l;
     target := t;
     sourceObject := sourceObject emitter;
     followSourceVisibility := followSourceVisibility emitter;
     layerType := layerType emitter;
     phase := phase emitter;
     baseIntensity := baseIntensity emitter |}.

(** [emitter.light.visible = visible; if (emitter.target)
    emitter.target.visible = visible]. *)
Definition setEmitterVisible (visible' : bool)
    (emitter : EmissiveEmitterLight) : EmissiveEmitterLight :=
  let l := light emitter in
  setLight emitter
    {| lightKind := lightKind l;
       lightPosition := lightPosition l;
       distance := distance l;
       castShadow := castShadow l;
       visible := visible';
       intensity := intensity l;
       color := color l |}
    ((fun t =>
        {| targetPosition := targetPosition t; targetVisible := visible' |})
       <$> target emitter).

Definition setIntensity (i : R) (emitter : EmissiveEmitterLight)
    : EmissiveEmitterLight :=
  let l := light emitter in
  setLight emitter
    {| lightKind := lightKind l;
       lightPosition := lightPosition l;
       distance := distance l;
       castShadow := castShadow l;
       visible := visible l;
       intensity := i;
       color := color l |}
    (target emitter).

Definition setColor (c : Color) (emitter : EmissiveEmitterLight)
    : EmissiveEmitterLight :=
  let l := light emitter in
  setLight emitter
    {| lightKind := lightKind l;
       lightPosition := lightPosition l;
       distance := distance l;
       castShadow := castShadow l;
       visible := visible l;
       intensity := intensity l;
       color := c |}
    (target emitter).

(** The emitter update that the effect handlers, the load callback and
    the animation loop each spell out: derive visibility; an invisible
    emitter gets intensity 0, a visible one the colour and intensity of
    the effect. *)
Definition updateEmitter (objs : gmap ObjectId Object3D)
    (effect : LightEffect) (time speed intensityMultiplier : R)
    (emitter : EmissiveEmitterLight) : EmissiveEmitterLight :=
  let visible' := shouldEmitterBeVisible objs emitter effect in
  let emitter := setEmitterVisible visible' emitter in
  if negb visible' then setIntensity 0 emitter
  else
    let '(animatedColor, effectMultiplier) :=
      evaluateEmitterEffect effect time (phase emitter) speed in
    setIntensity
      (baseIntensity emitter * effectMultiplier * intensityMultiplier)
      (setColor animatedColor emitter).

Definition isLinearEmitter (emitter : EmissiveEmitterLight) : bool :=
  bool_decide (layerType emitter = edge_led) ||
  bool_decide (layerType emitter = base_lights).

Definition isWashEmitter (emitter : EmissiveEmitterLight) : bool :=
  bool_decide (layerType emitter = wash_lights).

(** [meshes.forEach(mesh => { const original = originalMaterials.get(mesh);
    if (original) mesh.material = original; })]. *)
Definition restoreOriginals (originals : gmap ObjectId MaterialId)
    (meshes : list ObjectId) (objs : gmap ObjectId Object3D)
    : gmap ObjectId Object3D :=
  fold_left
    (fun objs mesh =>
       match originals !! mesh with
       | Some original => alter (setMaterial original) mesh objs
       | None => objs
       end)
    meshes objs.

(** [meshes.forEach((mesh, index) => { if (shaderMaterials[index])
    mesh.material = shaderMaterials[index]; })]. *)
Definition applyShaders (shaders : list ShaderMaterial)
    (meshes : list ObjectId) (objs : gmap ObjectId Object3D)
    : gmap ObjectId Object3D :=
  fold_left
    (fun objs entry =>
       let '(index, mesh) := entry in
       match shaders !! index with
       | Some shader => alter (setMaterial (shaderId shader)) mesh objs
       | None => objs
       end)
    (imap pair meshes) objs.

Definition setEffectUniforms (visual : EffectVisual)
    (shader : ShaderMaterial) : ShaderMaterial :=
  {| shaderId := shaderId shader;
     uTime := uTime shader;
     uColor := baseColor visual;
     uIntensity := uIntensity shader;
     uSpeed := uSpeed shader;
     uEffectType := effectType visual |}.

Definition setTimeUniform (time : R) (shader : ShaderMaterial)
    : ShaderMaterial :=
  {| shaderId := shaderId shader;
     uTime := time;
     uColor := uColor shader;
     uIntensity := uIntensity shader;
     uSpeed := uSpeed shader;
     uEffectType := uEffectType shader |}.

(** The effect hook on [lightEffect] and [lightSettings.edgeGlowIntensity]
    (linear lights: Edge LED and Base Lights). *)
Definition onLightEffect (lightEffect : LightEffect)
    (edgeGlowIntensity currentTime : R) (v : ViewerState) : ViewerState :=
  let isLinearGlowActive :=
    negb (bool_decide (lightEffect = off)) &&
    Js.gtb edgeGlowIntensity 0.0001 in
  let objs :=
    if negb isLinearGlowActive
    then restoreOriginals (originalMaterials v) (emissiveMeshes v) (objects v)
    else applyShaders (shaderMaterials v) (emissiveMeshes v) (objects v) in
  let shaders :=
    if negb isLinearGlowActive then shaderMaterials v
    else map (setEffectUniforms (getEffectVisual lightEffect))
           (shaderMaterials v) in
  {| objects := objs;
     emissiveMeshes := emissiveMeshes v;
     shaderMaterials := shaders;
     originalMaterials := originalMaterials v;
     washMeshes := washMeshes v;
     washShaderMaterials := washShaderMaterials v;
     washOriginalMaterials := washOriginalMaterials v;
     emitterLights :=
       map (fun emitter =>
              if isLinearEmitter emitter
              then updateEmitter objs lightEffect currentTime
                     (effectSpeed v) (emitterIntensity v) emitter
              else emitter)
           (emitterLights v);
     activeLightEffect := lightEffect;
     activeWashLightEffect := activeWashLightEffect v;
     emitterIntensity := emitterIntensity v;
     washIntensity := washIntensity v;
     effectSpeed := effectSpeed v |}.

(** The effect hook on [washLightEffect] (Wash Lights). *)
Definition onWashLightEffect (washLightEffect : LightEffect)
    (currentTime : R) (v : ViewerState) : ViewerState :=
  let isOff := bool_decide (washLightEffect = off) in
  let objs :=
    if isOff
    then restoreOriginals (washOriginalMaterials v) (washMeshes v)
           (objects v)
    else applyShaders (washShaderMaterials v) (washMeshes v) (objects v) in
  let shaders :=
    if isOff then washShaderMaterials v
    else map (setEffectUniforms (getEffectVisual washLightEffect))
           (washShaderMaterials v) in
  {| objects := objs;
     emissiveMeshes := emissiveMeshes v;
     shaderMaterials := shaderMaterials v;
     originalMaterials := originalMaterials v;
     washMeshes := washMeshes v;
     washShaderMaterials := shaders;
     washOriginalMaterials := washOriginalMaterials v;
     emitterLights :=
       map (fun emitter =>
              if isWashEmitter emitter
              then updateEmitter objs washLightEffect currentTime
                     (effectSpeed v) (washIntensity v) emitter
              else emitter)
           (emitterLights v);
     activeLightEffect := activeLightEffect v;
     activeWashLightEffect := washLightEffect;
     emitterIntensity := emitterIntensity v;
     washIntensity := washIntensity v;
     effectSpeed := effectSpeed v |}.

(** The effect hook on [layers]: every child takes the visibility of the
    layer it is tagged with, then every emitter's visibility is derived
    again. *)
Definition onLayers (layers : list RhinoLayer) (v : ViewerState)
    : ViewerState :=
  let objs :=
    (fun child =>
       match layerIndex child with
       | Some li =>
           match List.find (fun l => (index l =? li)%Z) layers with
           | Some layer => setObjVisible (layerVisible layer) child
           | None => child
           end
       | None => child
       end) <$> objects v in
  {| objects := objs;
     emissiveMeshes := emissiveMeshes v;
     shaderMaterials := shaderMaterials v;
     originalMaterials := originalMaterials v;
     washMeshes := washMeshes v;
     washShaderMaterials := washShaderMaterials v;
     washOriginalMaterials := washOriginalMaterials v;
     emitterLights :=
       map (fun emitter =>
              setEmitterVisible
                (shouldEmitterBeVisible objs emitter (activeLightEffect v))
                emitter)
           (emitterLights v);
     activeLightEffect := activeLightEffect v;
     activeWashLightEffect := activeWashLightEffect v;
     emitterIntensity := emitterIntensity v;
     washIntensity := washIntensity v;
     effectSpeed := effectSpeed v |}.

(** The effect of one [animate] frame on the lighting state. *)
Definition animate (elapsedTime : R) (v : ViewerState) : ViewerState :=
  {| objects := objects v;
     emissiveMeshes := emissiveMeshes v;
     shaderMaterials := map (setTimeUniform elapsedTime) (shaderMaterials v);
     originalMaterials := originalMaterials v;
     washMeshes := washMeshes v;
     washShaderMaterials :=
       map (setTimeUniform elapsedTime) (washShaderMaterials v);
     washOriginalMaterials := washOriginalMaterials v;
     emitterLights :=
       map (fun emitter =>
              let effect :=
                if bool_decide (layerType emitter = wash_lights)
                then activeWashLightEffect v
                else activeLightEffect v in
              let intensityMultiplier :=
                if bool_decide (layerType emitter = wash_lights)
                then washIntensity v
                else emitterIntensity v in
              updateEmitter (objects v) effect elapsedTime (effectSpeed v)
                intensityMultiplier emitter)
           (emitterLights v);
     activeLightEffect := activeLightEffect v;
     activeWashLightEffect := activeWashLightEffect v;
     emitterIntensity := emitterIntensity v;
     washIntensity := washIntensity v;
     effectSpeed := effectSpeed v |}.

End Viewer.

(** ** Periods of the effects *)

Module Period.

Import Effect.

(** The period of each effect in scaled time [t = time * speed]. *)
Definition scaledPeriod (effect : LightEffect) : R :=
  match effect with
  | pink_pulse | blue_pulse => PI
  | pink_wave | blue_wave => 2 * PI / 3
  | pink_ripple | blue_ripple => PI / 2
  | rainbow_wave => 4 * PI / 5
  | rainbow_ripple => 4 * PI / 7
  | fire => PI / 2
  | ocean => 20 * PI
  | aurora => 5 * PI / 2
  | off | pink_glow | blue_glow => 1
  end.

(** The period in [time] at a given speed. *)
Definition effectPeriod (effect : LightEffect) (speed : R) : R :=
  if Req_dec_T speed 0 then 1 else scaledPeriod effect / Rabs speed.

(** The range of the intensity multiplier of each effect. *)
Definition intensityRange (effect : LightEffect) : R * R :=
  match effect with
  | off => (0, 0)
  | pink_glow | blue_glow => (1, 1)
  | pink_pulse | blue_pulse => (0.3, 1.0)
  | pink_wave | blue_wave => (0.2, 1.0)
  | pink_ripple | blue_ripple => (0.1, 1.0)
  | rainbow_wave => (0.4, 1.0)
  | rainbow_ripple => (0.2, 1.0)
  | fire => (0.5, 1.0)
  | ocean => (0.4, 1.0)
  | aurora => (0.47, 1.03)
  end.

End Period.

(** ** Sample scenes *)

Module Scene.

Import Geometry.

Definition origin : Vector3 := {| x := 0; y := 0; z := 0 |}.

(** A mesh in world position (identity world matrix) over the given
    vertices. *)
Definition meshOf (positions : list Vector3) (uv : option (list Vector2))
    : Mesh :=
  {| geometry := Buffer (Some positions) uv;
     localToWorld := fun p => p;
     transformDirection := fun d => d;
     getWorldPosition := origin;
     worldBoundsSize := boundingBoxSize positions |}.

(** Three vertices along the x axis, out of order. *)
Definition threeVertices : list Vector3 :=
  [ {| x := 2; y := 0; z := 0 |};
    {| x := 0; y := 0; z := 0 |};
    {| x := 1; y := 0; z := 0 |} ].

Definition smallMesh : Mesh := meshOf threeVertices None.

(** A strip of 4096 vertices along the x axis. *)
Definition denseVertices : list Vector3 :=
  map (fun i => {| x := INR i; y := 0; z := 0 |}) (seq 0 4096).

Definition denseMesh : Mesh := meshOf denseVertices None.

(** A level guide curve 3 units up, in a model 10 units wide whose
    lowest point is at height 0. *)
Definition levelGuide : Rig.EdgeGuideRig :=
  {| Rig.guideStart := {| x := 0; y := 3; z := 0 |};
     Rig.guideEnd := {| x := 10; y := 3; z := 0 |};
     Rig.guideSourceObject := 0%nat;
     Rig.guidePhase := 0 |}.

(** A viewer over a two-object model: guide curve 0 and Edge LED mesh 1
    (imported material 7, powered-down clone 10, glow shader 20), with
    one guide-driven edge emitter and one wash emitter on a bare wash
    point. *)
Definition edgeEmitter : Rig.EmissiveEmitterLight :=
  {| Rig.light :=
       {| Rig.lightKind := Rig.SpotLight;
          Rig.lightPosition := {| x := 3; y := 3.8; z := 0 |};
          Rig.distance := 8.47;
          Rig.castShadow := true;
          Rig.visible := true;
          Rig.intensity := 1250;
          Rig.color := Effect.ColorHex 0xF7B5CD |};
     Rig.target :=
       Some {| Rig.targetPosition := {| x := 3; y := 0.1; z := 0 |};
               Rig.targetVisible := true |};
     Rig.sourceObject := Rig.SceneObject 0%nat;
     Rig.followSourceVisibility := false;
     Rig.layerType := Rig.edge_led;
     Rig.phase := 0;
     Rig.baseIntensity := 1250 |}.

Definition washEmitter : Rig.EmissiveEmitterLight :=
  {| Rig.light :=
       {| Rig.lightKind := Rig.PointLight;
          Rig.lightPosition := {| x := 5; y := 1; z := 5 |};
          Rig.distance := 40;
          Rig.castShadow := false;
          Rig.visible := false;
          Rig.intensity := 0;
          Rig.color := Effect.ColorHex 0x5CA8FF |};
     Rig.target := None;
     Rig.sourceObject := Rig.DummyObject;
     Rig.followSourceVisibility := true;
     Rig.layerType := Rig.wash_lights;
     Rig.phase := 0;
     Rig.baseIntensity := 100 |}.

Definition plazaViewer (linear wash : Effect.LightEffect)
    : Viewer.ViewerState :=
  {| Viewer.objects :=
       {[ 0%nat := {| Viewer.objVisible := true;
                      Viewer.layerIndex := Some 4%Z;
                      Viewer.material := 3%nat |};
          1%nat := {| Viewer.objVisible := true;
                      Viewer.layerIndex := Some 0%Z;
                      Viewer.material := 20%nat |} ]};
     Viewer.emissiveMeshes := [1%nat];
     Viewer.shaderMaterials :=
       [ {| Viewer.shaderId := 20%nat;
            Viewer.uTime := 0;
            Viewer.uColor := 0xF7B5CD;
            Viewer.uIntensity := 1.5;
            Viewer.uSpeed := 1;
            Viewer.uEffectType := 1 |} ];
     Viewer.originalMaterials := {[ 1%nat := 10%nat ]};
     Viewer.washMeshes := [];
     Viewer.washShaderMaterials := [];
     Viewer.washOriginalMaterials := ∅;
     Viewer.emitterLights := [edgeEmitter; washEmitter];
     Viewer.activeLightEffect := linear;
     Viewer.activeWashLightEffect := wash;
     Viewer.emitterIntensity := 1.7;
     Viewer.washIntensity := 1.0;
     Viewer.effectSpeed := 1.0 |}.

(** The layer list after the user has hidden layer 0 (Edge LED). *)
Definition edgeLedHidden : list Viewer.RhinoLayer :=
  [ {| Viewer.index := 0;
       Viewer.name := "Edge LED"%string;
       Viewer.layerVisible := false;
       Viewer.layerColor := "rgb(247, 181, 205)"%string |};
    {| Viewer.index := 4;
       Viewer.name := "Emitters"%string;
       Viewer.layerVisible := true;
       Viewer.layerColor := "rgb(0, 0, 0)"%string |} ].

(** Two edge candidates of mesh 1: one on the canopy, one 10 units
    below it. *)
Definition canopyCandidate : Rig.EdgeCandidate :=
  {| Rig.edgeSourceObject := 1%nat;
     Rig.edgePoint := {| x := 0; y := 10; z := 0 |};
     Rig.edgePhase := 0;
     Rig.edgeDirection := Rig.unitX |}.

Definition lowCandidate : Rig.EdgeCandidate :=
  {| Rig.edgeSourceObject := 1%nat;
     Rig.edgePoint := {| x := 5; y := 0; z := 0 |};
     Rig.edgePhase := 0.5;
     Rig.edgeDirection := Rig.unitX |}.

(** A viewer with the lights off over two Edge LED meshes, 1 and 2,
    which wear their powered-down clones 10 and 11 and have the glow
    shaders 20 and 21. *)
Definition darkViewer : Viewer.ViewerState :=
  {| Viewer.objects :=
       {[ 1%nat := {| Viewer.objVisible := true;
                      Viewer.layerIndex := Some 0%Z;
                      Viewer.material := 10%nat |};
          2%nat := {| Viewer.objVisible := true;
                      Viewer.layerIndex := Some 0%Z;
                      Viewer.material := 11%nat |} ]};
     Viewer.emissiveMeshes := [1%nat; 2%nat];
     Viewer.shaderMaterials :=
       [ {| Viewer.shaderId := 20%nat;
            Viewer.uTime := 0;
            Viewer.uColor := 0xF7B5CD;
            Viewer.uIntensity := 1.5;
            Viewer.uSpeed := 1;
            Viewer.uEffectType := 0 |};
         {| Viewer.shaderId := 21%nat;
            Viewer.uTime := 0;
            Viewer.uColor := 0xF7B5CD;
            Viewer.uIntensity := 1.5;
            Viewer.uSpeed := 1;
            Viewer.uEffectType := 0 |} ];
     Viewer.originalMaterials := {[ 1%nat := 10%nat; 2%nat := 11%nat ]};
     Viewer.washMeshes := [];
     Viewer.washShaderMaterials := [];
     Viewer.washOriginalMaterials := ∅;
     Viewer.emitterLights := [edgeEmitter];
     Viewer.activeLightEffect := Effect.off;
     Viewer.activeWashLightEffect := Effect.off;
     Viewer.emitterIntensity := 1.7;
     Viewer.washIntensity := 1.0;
     Viewer.effectSpeed := 1.0 |}.

End Scene.

(** ** Layer list of the application *)

Module App.

Import Viewer.

(** [{ ...layer, visible: v }]. *)
Definition withVisible (v : bool) (layer : RhinoLayer) : RhinoLayer :=
  {| index := index layer;
     name := name layer;
     layerVisible := v;
     layerColor := layerColor layer |}.

Definition handleToggleHeronLayer (index' : Z) (prev : list RhinoLayer)
    : list RhinoLayer :=
  map (fun layer =>
         if (index layer =? index')%Z
         then withVisible (negb (layerVisible layer)) layer
         else layer)
      prev.

Definition handleShowAllHeronLayers (prev : list RhinoLayer)
    : list RhinoLayer :=
  map (withVisible true) prev.

Definition handleHideAllHeronLayers (prev : list RhinoLayer)
    : list RhinoLayer :=
  map (withVisible false) prev.

End App.

(** ** Light settings *)

Module Settings.

Import Viewer.

Record LightSettings := {
  ambientIntensity : R;
  directionalIntensity : R;
  emitterIntensity : R;
  washIntensity : R;
  edgeGlowIntensity : R;
  effectSpeed : R;
  bloomStrength : R;
  bloomRadius : R;
  bloomThreshold : R;
  fogDensity : R;
  showGroundPlane : bool;
  debugLightingMode : bool
}.

Definition DEFAULT_LIGHT_SETTINGS : LightSettings :=
  {| ambientIntensity := 0.25;
     directionalIntensity := 0.5;
     emitterIntensity := 1.7;
     washIntensity := 1.0;
     edgeGlowIntensity := 1.5;
     effectSpeed := 1.0;
     bloomStrength := 0.07;
     bloomRadius := 0.4;
     bloomThreshold := 0.2;
     fogDensity := 0.0001;
     showGroundPlane := true;
     debugLightingMode := false |}.

Record BloomPass := { strength : R; radius : R; threshold : R }.

(** The scene-wide refs the settings hook writes besides the lighting
    state, each possibly unset: the intensities of the ambient and the
    two directional lights, the bloom pass, the density of the scene's
    exponential fog, and the visibility of the ground plane. *)
Record Environment := {
  debugMode : bool;
  ambientLight : option R;
  directionalLight1 : option R;
  directionalLight2 : option R;
  bloomPass : option BloomPass;
  fog : option R;
  groundPlane : option bool
}.

(** [material.uniforms.uIntensity.value = lightSettings.edgeGlowIntensity;
    material.uniforms.uSpeed.value = lightSettings.effectSpeed]. *)
Definition setGlowUniforms (lightSettings : LightSettings)
    (shader : ShaderMaterial) : ShaderMaterial :=
  {| shaderId := shaderId shader;
     uTime := uTime shader;
     uColor := uColor shader;
     uIntensity := edgeGlowIntensity lightSettings;
     uSpeed := effectSpeed lightSettings;
     uEffectType := uEffectType shader |}.

(** The effect hook on [lightSettings].  Its last step rebuilds the
    debug helpers, which are objects of their own. *)
Definition onLightSettings (lightSettings : LightSettings)
    (v : ViewerState) (env : Environment) : ViewerState * Environment :=
  ({| objects := objects v;
      emissiveMeshes := emissiveMeshes v;
      shaderMaterials :=
        map (setGlowUniforms lightSettings) (shaderMaterials v);
      originalMaterials := originalMaterials v;
      washMeshes := washMeshes v;
      washShaderMaterials :=
        map (setGlowUniforms lightSettings) (washShaderMaterials v);
      washOriginalMaterials := washOriginalMaterials v;
      emitterLights := emitterLights v;
      activeLightEffect := activeLightEffect v;
      activeWashLightEffect := activeWashLightEffect v;
      Viewer.emitterIntensity := emitterIntensity lightSettings;
      Viewer.washIntensity := washIntensity lightSettings;
      Viewer.effectSpeed := effectSpeed lightSettings |},
   {| debugMode := debugLightingMode lightSettings;
      ambientLight :=
        (fun _ => ambientIntensity lightSettings) <$> ambientLight env;
      directionalLight1 :=
        (fun _ => directionalIntensity lightSettings) <$>
          directionalLight1 env;
      directionalLight2 :=
        (fun _ => directionalIntensity lightSettings * 0.3) <$>
          directionalLight2 env;
      bloomPass :=
        (fun _ =>
           {| strength :=
                if debugLightingMode lightSettings then 0
                else bloomStrength lightSettings;
              radius := bloomRadius lightSettings;
              threshold := bloomThreshold lightSettings |}) <$>
          bloomPass env;
      fog :=
        (fun _ =>
           if debugLightingMode lightSettings then 0
           else fogDensity lightSettings) <$> fog env;
      groundPlane :=
        (fun _ => showGroundPlane lightSettings) <$> groundPlane env |}).

End Settings.

(** * Properties *)

Import Effect Geometry Rig Viewer Period Scene.

(** ** Numbers *)

Section JsFacts.

Lemma leb_true a b : Js.leb a b = true <-> a <= b.
Proof. unfold Js.leb. destruct (Rle_dec a b); split; (congruence || lra || auto). Qed.

Lemma leb_false a b : Js.leb a b = false <-> b < a.
Proof. unfold Js.leb. destruct (Rle_dec a b); split; (congruence || lra || auto). Qed.

Lemma ltb_true a b : Js.ltb a b = true <-> a < b.
Proof. unfold Js.ltb. destruct (Rlt_dec a b); split; (congruence || lra || auto). Qed.

Lemma ltb_false a b : Js.ltb a b = false <-> b <= a.
Proof. unfold Js.ltb. destruct (Rlt_dec a b); split; (congruence || lra || auto). Qed.

Lemma div_unit_lo a b : 0 <= a -> 0 < b -> 0 <= a / b.
Proof.
  intros Ha Hb. unfold Rdiv. pose proof (Rinv_0_lt_compat b Hb). nra.
Qed.

Lemma div_unit_hi a b : a < b -> 0 < b -> a / b < 1.
Proof.
  intros Ha Hb. unfold Rdiv. pose proof (Rinv_0_lt_compat b Hb).
  assert (b * / b = 1) by (field; lra). nra.
Qed.

Lemma Int_part_bounds r : IZR (Int_part r) <= r < IZR (Int_part r) + 1.
Proof. destruct (base_Int_part r). lra. Qed.

Lemma Int_part_unique r k : IZR k <= r < IZR k + 1 -> Int_part r = k.
Proof. intros H. symmetry. apply Int_part_spec. lra. Qed.

Lemma round_IZR k : Js.round (IZR k) = k.
Proof. apply Int_part_unique. lra. Qed.

Lemma round_INR n : Js.round (INR n) = Z.of_nat n.
Proof. rewrite INR_IZR_INZ. apply round_IZR. Qed.

(** [Math.floor] of a quotient of array lengths is the integer quotient,
    which is how the sampling steps are written. *)
Lemma floor_div_nat a b :
  (0 < b)%nat -> Js.floor (INR a / INR b) = Z.of_nat (a / b).
Proof.
  intros Hb. unfold Js.floor. apply Int_part_unique.
  assert (HbR : 0 < INR b) by (apply lt_0_INR; lia).
  pose proof (Nat.div_mod_eq a b) as Hdm.
  pose proof (Nat.mod_upper_bound a b ltac:(lia)) as Hmod.
  assert (HR : INR a = INR b * INR (a / b) + INR (a mod b)).
  { rewrite Hdm at 1. now rewrite plus_INR, mult_INR. }
  assert (Hm : 0 <= INR (a mod b) < INR b).
  { split; [apply pos_INR | apply lt_INR; lia]. }
  rewrite <- INR_IZR_INZ.
  assert (Hq : INR a / INR b = INR (a / b) + INR (a mod b) / INR b)
    by (rewrite HR at 1; field; lra).
  rewrite Hq.
  assert (0 <= INR (a mod b) / INR b < 1).
  { split.
    - apply (div_unit_lo _ _ (proj1 Hm) HbR).
    - apply (div_unit_hi _ _ (proj2 Hm) HbR). }
  lra.
Qed.

(** A rank computed from a fraction of [n] stays within [0..n]. *)
Lemma round_range r n :
  0 <= r <= IZR n -> (0 <= Js.round r <= n)%Z.
Proof.
  intros [Hlo Hhi]. unfold Js.round.
  pose proof (Int_part_bounds (r + / 2)) as [Hb1 Hb2].
  assert (H1 : (-1 < Int_part (r + / 2))%Z) by (apply lt_IZR; lra).
  assert (H2 : (Int_part (r + / 2) < n + 1)%Z)
    by (apply lt_IZR; rewrite plus_IZR; lra).
  lia.
Qed.

(** [Math.round((m - 1) * 0.5)] is [m / 2] for a positive length [m]. *)
Lemma round_half m :
  (0 < m)%nat -> Z.to_nat (Js.round ((INR m - 1) * 0.5)) = (m / 2)%nat.
Proof.
  intros Hm.
  assert (Hk : Js.round ((INR m - 1) * 0.5) = Z.of_nat (m / 2)).
  { unfold Js.round. apply Int_part_unique.
    pose proof (Nat.div_mod_eq m 2) as Hdm.
    pose proof (Nat.mod_upper_bound m 2 ltac:(lia)) as Hmod.
    rewrite <- INR_IZR_INZ.
    assert (HR : INR m = 2 * INR (m / 2) + INR (m mod 2)).
    { rewrite Hdm at 1. rewrite plus_INR, mult_INR. simpl. lra. }
    assert (Hr : 0 <= INR (m mod 2) <= 1).
    { split; [apply pos_INR|]. change 1 with (INR 1). apply le_INR. lia. }
    lra. }
  rewrite Hk. apply Nat2Z.id.
Qed.

Lemma trunc_nonneg r : 0 <= r -> Js.trunc r = Int_part r.
Proof. intros H. unfold Js.trunc. destruct (Rle_dec 0 r); [easy|lra]. Qed.

(** [x % 1] lies strictly between -1 and 1, and is not negative for a
    dividend that is not. *)
Lemma rem1_bounds r : -1 < Js.rem r 1 < 1.
Proof.
  unfold Js.rem, Js.trunc. replace (r / 1) with r by field.
  destruct (Rle_dec 0 r).
  - pose proof (Int_part_bounds r). lra.
  - pose proof (Int_part_bounds (- r)). rewrite opp_IZR. lra.
Qed.

Lemma rem1_nonneg r : 0 <= r -> 0 <= Js.rem r 1 < 1.
Proof.
  intros H. unfold Js.rem. replace (r / 1) with r by field.
  rewrite trunc_nonneg by easy. pose proof (Int_part_bounds r). lra.
Qed.

(** The wrap [((x % 1) + 1) % 1] lands in [0, 1). *)
Lemma wrap_unit r : 0 <= Js.rem (Js.rem r 1 + 1) 1 < 1.
Proof. apply rem1_nonneg. pose proof (rem1_bounds r). lra. Qed.

Lemma div_unit a b : 0 <= a <= b -> 0 < b -> 0 <= a / b <= 1.
Proof.
  intros Ha Hb. unfold Rdiv.
  pose proof (Rinv_0_lt_compat b Hb).
  assert (b * / b = 1) by (field; lra). nra.
Qed.

Lemma sin_period_Z r (k : Z) : sin (r + 2 * IZR k * PI) = sin r.
Proof.
  destruct (Z.le_gt_cases 0 k) as [Hk|Hk].
  - rewrite <- (Z2Nat.id k Hk), <- INR_IZR_INZ. apply sin_period.
  - rewrite <- (sin_period (r + 2 * IZR k * PI) (Z.to_nat (- k))).
    f_equal. rewrite INR_IZR_INZ, Z2Nat.id by lia. rewrite opp_IZR. ring.
Qed.

(** Shifting the argument of [sin] by a whole number of turns. *)
Lemma sin_shift a b (k : Z) : a = b + 2 * IZR k * PI -> sin a = sin b.
Proof. intros ->. apply sin_period_Z. Qed.

End JsFacts.

(** Evaluation of comparisons and of [Math.max] / [Math.min] on concrete
    numbers. *)
Ltac js_max :=
  repeat match goal with
  | |- context [Rmax ?a ?b] =>
      first [ rewrite (Rmax_left a b) by lra
            | rewrite (Rmax_right a b) by lra ]
  | |- context [Rmin ?a ?b] =>
      first [ rewrite (Rmin_left a b) by lra
            | rewrite (Rmin_right a b) by lra ]
  end.

Ltac js_cmp :=
  repeat match goal with
  | |- context [Js.leb ?a ?b] =>
      first [ rewrite (proj2 (leb_true a b)) by lra
            | rewrite (proj2 (leb_false a b)) by lra ]
  | |- context [Js.ltb ?a ?b] =>
      first [ rewrite (proj2 (ltb_true a b)) by lra
            | rewrite (proj2 (ltb_false a b)) by lra ]
  end.

Ltac js_eval := repeat (progress (simpl; js_max; js_cmp)).

(** ** Effect library *)

Section EffectFacts.

Ltac bound_sines :=
  repeat match goal with
  | |- context [sin ?a] =>
      let H := fresh "Hsin" in
      pose proof (SIN_bound a) as H;
      generalize dependent (sin a); intros
  end.

Lemma intensity_in_range effect time phase speed :
  fst (intensityRange effect) <= intensityOf effect time phase speed
    <= snd (intensityRange effect).
Proof.
  destruct effect; unfold intensityOf, evaluateEmitterEffect; simpl;
    bound_sines; nra.
Qed.

Lemma intensityRange_floor effect :
  effect <> off -> 0.1 <= fst (intensityRange effect).
Proof. destruct effect; simpl; intros; (congruence || lra). Qed.

(** C1: for every effect other than off, at every time, phase and
    speed, the intensity multiplier lies in the range of its family
    (pulse in [0.3, 1.0], wave in [0.2, 1.0], ripple in [0.1, 1.0]; for
    every effect in its [intensityRange]), and it never falls below the
    strictly positive floor 0.1. *)
Theorem evaluateEmitterEffect_intensity_bounds
    (effect : LightEffect) (time phase speed : R) :
  effect <> off ->
  let i := snd (evaluateEmitterEffect effect time phase speed) in
  (effect = pink_pulse \/ effect = blue_pulse -> 0.3 <= i <= 1.0) /\
  (effect = pink_wave \/ effect = blue_wave -> 0.2 <= i <= 1.0) /\
  (effect = pink_ripple \/ effect = blue_ripple -> 0.1 <= i <= 1.0) /\
  fst (intensityRange effect) <= i <= snd (intensityRange effect) /\
  0 < 0.1 <= i.
Proof.
  intros Hoff i.
  pose proof (intensity_in_range effect time phase speed) as Hr.
  pose proof (intensityRange_floor effect Hoff) as Hf.
  unfold intensityOf in Hr. fold i in Hr. clearbody i.
  split; [|split; [|split; [|split]]]; try lra;
    intros [-> | ->]; simpl in Hr; lra.
Qed.

Lemma evaluateEmitterEffect_intensity_bounds_witness :
  0 < 0.1 <= snd (evaluateEmitterEffect pink_ripple 0 0 1).
Proof.
  exact (proj2 (proj2 (proj2 (proj2
    (evaluateEmitterEffect_intensity_bounds pink_ripple 0 0 1
       ltac:(discriminate)))))).
Defined.

(** The floor is reached: the ripple at a trough has intensity 0.1. *)
Example pink_ripple_trough :
  snd (evaluateEmitterEffect pink_ripple (3 * (PI / 2) / 4) 0 1) = 0.1.
Proof.
  unfold evaluateEmitterEffect. simpl.
  replace (3 * (PI / 2) / 4 * 1 * 4.0 - 0 * TAU * 2.0) with (3 * (PI / 2))
    by (unfold TAU; lra).
  rewrite sin_3PI2. lra.
Qed.

End EffectFacts.

(** ** Periodicity *)

Section PeriodFacts.

Lemma scaledPeriod_pos effect : 0 < scaledPeriod effect.
Proof. pose proof PI_RGT_0. destruct effect; simpl; lra. Qed.

Lemma effectPeriod_pos effect speed : 0 < effectPeriod effect speed.
Proof.
  unfold effectPeriod. destruct (Req_dec_T speed 0); [lra|].
  apply Rdiv_lt_0_compat; [apply scaledPeriod_pos | now apply Rabs_pos_lt].
Qed.

(** Advancing [time] by [k] periods advances the scaled time by [k] or
    [-k] scaled periods (none at speed 0). *)
Lemma effectPeriod_scaled effect time speed (k : Z) :
  exists k' : Z,
    (time + IZR k * effectPeriod effect speed) * speed =
    time * speed + IZR k' * scaledPeriod effect.
Proof.
  unfold effectPeriod. destruct (Req_dec_T speed 0) as [->|Hs].
  - exists 0%Z. lra.
  - destruct (Rcase_abs speed) as [Hneg|Hpos].
    + exists (- k)%Z. rewrite Rabs_left, opp_IZR by easy. field. lra.
    + exists k. rewrite Rabs_right by easy. field. lra.
Qed.

(** Replace [sin a], where [a] mentions the later time [t'], by the sine
    at the earlier time [t], the two arguments being [m] turns apart. *)
Ltac turn_back t' t m :=
  match goal with
  | |- context [sin ?a] =>
      match a with
      | context [t'] =>
          match eval pattern t' in a with
          | ?f _ =>
              let b := eval cbv beta in (f t) in
              rewrite (sin_shift a b m)
                by (rewrite ?mult_IZR; unfold TAU; lra)
          end
      end
  end.

Ltac turns_back t' t k :=
  repeat first
    [ turn_back t' t k
    | turn_back t' t (2 * k)%Z
    | turn_back t' t (3 * k)%Z
    | turn_back t' t (5 * k)%Z
    | turn_back t' t (15 * k)%Z
    | turn_back t' t (23 * k)%Z ].

(** In scaled time, the intensity has period [scaledPeriod]. *)
Lemma intensity_scaled_period effect time time' phase speed (k : Z) :
  time' * speed = time * speed + IZR k * scaledPeriod effect ->
  intensityOf effect time' phase speed = intensityOf effect time phase speed.
Proof.
  intros Ht. unfold intensityOf, evaluateEmitterEffect.
  destruct effect; simpl in *; try reflexivity;
    turns_back time' time k; reflexivity.
Qed.

(** So has the colour, for every effect but the two rainbows, whose hue
    advances at a rate of its own. *)
Lemma color_scaled_period effect time time' phase speed (k : Z) :
  time' * speed = time * speed + IZR k * scaledPeriod effect ->
  effect <> rainbow_wave -> effect <> rainbow_ripple ->
  colorOf effect time' phase speed = colorOf effect time phase speed.
Proof.
  intros Ht Hw Hr. unfold colorOf, evaluateEmitterEffect.
  destruct effect; try congruence; simpl in *; try reflexivity;
    turns_back time' time k; reflexivity.
Qed.

Lemma close_refl a : Rabs (a - a) <= 1e-6.
Proof. replace (a - a) with 0 by lra. rewrite Rabs_R0. lra. Qed.

(** A whole number added to the argument of [% 1] moves the remainder by
    a whole number. *)
Lemma rem1_shift x (n : Z) :
  exists m : Z, Js.rem (x + IZR n) 1 - Js.rem x 1 = IZR m.
Proof.
  unfold Js.rem.
  exists (n - Js.trunc ((x + IZR n) / 1) + Js.trunc (x / 1))%Z.
  rewrite plus_IZR, minus_IZR. lra.
Qed.

(** C2, as the code has it: the code evaluates at [t = time * speed], so
    the period in [time] is the effect's period in scaled time divided by
    the speed.  For every effect other than off and every speed of the
    speed setting (0.1 to 5), over running times up to 1e6 seconds: at
    [time + k * period] the intensity multiplier is the one at [time],
    and so is the colour written, to within 1e-6 (the rounding of the
    arithmetic; the hex colours are the same outright); the hue of the
    two rainbows, which advances at a rate of its own, comes back after
    10/3 (wave) or 5 (ripple) units of scaled time, as an angle: up to a
    whole number of turns. *)
Theorem evaluateEmitterEffect_periodic
    (effect : LightEffect) (speed : R) :
  effect <> off -> 0.1 <= speed <= 5 ->
  let period := effectPeriod effect speed in
  let huePeriod :=
    (if decide (effect = rainbow_wave) then 10 / 3 else 5) / speed in
  0 < period /\
  (forall (time phase : R) (k : Z),
     0 <= time <= 1e6 -> 0 <= time + IZR k * period <= 1e6 ->
     0 <= phase < 1 ->
     let time' := time + IZR k * period in
     Rabs (snd (evaluateEmitterEffect effect time' phase speed) -
           snd (evaluateEmitterEffect effect time phase speed)) <= 1e-6 /\
     match fst (evaluateEmitterEffect effect time' phase speed),
           fst (evaluateEmitterEffect effect time phase speed) with
     | ColorHex later, ColorHex earlier => later = earlier
     | ColorHSL h' s' l', ColorHSL h s l =>
         Rabs (s' - s) <= 1e-6 /\ Rabs (l' - l) <= 1e-6 /\
         (effect <> rainbow_wave -> effect <> rainbow_ripple ->
          Rabs (h' - h) <= 1e-6)
     | _, _ => False
     end) /\
  (effect = rainbow_wave \/ effect = rainbow_ripple ->
   forall (time phase : R) (k : Z),
     0 <= time <= 1e6 -> 0 <= time + IZR k * huePeriod <= 1e6 ->
     0 <= phase < 1 ->
     match fst (evaluateEmitterEffect effect
                  (time + IZR k * huePeriod) phase speed),
           fst (evaluateEmitterEffect effect time phase speed) with
     | ColorHSL h' s' l', ColorHSL h s l =>
         (exists turns : Z, Rabs (h' - h - IZR turns) <= 1e-6) /\
         s' = s /\ l' = l
     | _, _ => False
     end).
Proof.
  intros Hoff Hspeed period huePeriod.
  split; [apply effectPeriod_pos|]. split.
  - intros time phase k _ _ _ time'.
    destruct (effectPeriod_scaled effect time speed k) as [k' Hk'].
    fold period in Hk'. fold time' in Hk'.
    pose proof (intensity_scaled_period effect time time' phase speed k' Hk')
      as Hintensity.
    unfold intensityOf in Hintensity. rewrite Hintensity.
    split; [apply close_refl|].
    destruct (decide (effect = rainbow_wave)) as [->|Hwave];
      [simpl; repeat split; try apply close_refl; congruence|].
    destruct (decide (effect = rainbow_ripple)) as [->|Hripple];
      [simpl; repeat split; try apply close_refl; congruence|].
    pose proof (color_scaled_period effect time time' phase speed k' Hk'
                  Hwave Hripple) as Hcolor.
    unfold colorOf in Hcolor. rewrite Hcolor.
    destruct (fst (evaluateEmitterEffect effect time phase speed));
      [reflexivity|].
    repeat split; intros; apply close_refl.
  - intros Hrainbow time phase k _ _ _. subst huePeriod.
    destruct Hrainbow as [-> | ->]; simpl.
    + destruct (rem1_shift (time * speed * 0.3 + phase) k) as [m Hm].
      replace ((time + IZR k * (10 / 3 / speed)) * speed * 0.3 + phase)
        with (time * speed * 0.3 + phase + IZR k)
        by (replace 0.3 with (3 / 10) by lra; field; lra).
      split; [|split; reflexivity].
      exists m. replace (_ - _ - IZR m) with 0 by lra.
      rewrite Rabs_R0. lra.
    + destruct (rem1_shift (time * speed * 0.2 - phase * 0.5) k) as [m Hm].
      replace ((time + IZR k * (5 / speed)) * speed * 0.2 - phase * 0.5)
        with (time * speed * 0.2 - phase * 0.5 + IZR k)
        by (replace 0.2 with (2 / 10) by lra;
            replace 0.5 with (5 / 10) by lra; field; lra).
      split; [|split; reflexivity].
      set (later := Js.rem (time * speed * 0.2 - phase * 0.5 + IZR k) 1)
        in *.
      set (earlier := Js.rem (time * speed * 0.2 - phase * 0.5) 1) in *.
      destruct (Rlt_dec later 0), (Rlt_dec earlier 0).
      * exists m. replace (_ - _ - IZR m) with 0 by lra.
        rewrite Rabs_R0. lra.
      * exists (m + 1)%Z. rewrite plus_IZR.
        replace (_ - _ - _) with 0 by lra. rewrite Rabs_R0. lra.
      * exists (m - 1)%Z. rewrite minus_IZR.
        replace (_ - _ - _) with 0 by lra. rewrite Rabs_R0. lra.
      * exists m. replace (_ - _ - IZR m) with 0 by lra.
        rewrite Rabs_R0. lra.
Qed.

(** The ocean effect at speed 2: three periods of 10 * PI after time 1. *)
Lemma evaluateEmitterEffect_periodic_witness :
  0 < effectPeriod ocean 2 /\
  Rabs (snd (evaluateEmitterEffect ocean (1 + IZR 3 * effectPeriod ocean 2)
               0 2) -
        snd (evaluateEmitterEffect ocean 1 0 2)) <= 1e-6.
Proof.
  assert (Hperiod : effectPeriod ocean 2 = 10 * PI).
  { unfold effectPeriod. destruct (Req_dec_T 2 0); [lra|].
    rewrite Rabs_right by lra. simpl. lra. }
  pose proof PI_RGT_0. pose proof PI_4.
  split.
  - exact (proj1 (evaluateEmitterEffect_periodic ocean 2
                    ltac:(discriminate) ltac:(lra))).
  - apply (proj1 (proj2 (evaluateEmitterEffect_periodic ocean 2
                           ltac:(discriminate) ltac:(lra))) 1 0 3%Z);
      rewrite ?Hperiod; lra.
Defined.

(** Why the rainbow hues have a period of their own: one intensity
    period later the hue of the rainbow wave has moved on by 0.24 * PI
    of a turn. *)
Lemma rainbow_wave_color_moves :
  snd (evaluateEmitterEffect rainbow_wave
         (0 + IZR 1 * effectPeriod rainbow_wave 1) 0 1) =
    snd (evaluateEmitterEffect rainbow_wave 0 0 1) /\
  fst (evaluateEmitterEffect rainbow_wave
         (0 + IZR 1 * effectPeriod rainbow_wave 1) 0 1) <>
    fst (evaluateEmitterEffect rainbow_wave 0 0 1).
Proof.
  split.
  - apply (intensity_scaled_period rainbow_wave 0 _ 0 1 1).
    unfold effectPeriod. destruct (Req_dec_T 1 0); [lra|].
    rewrite Rabs_R1. lra.
  - unfold evaluateEmitterEffect, effectPeriod. simpl.
    destruct (Req_dec_T 1 0); [lra|]. rewrite Rabs_R1.
    intros [= Hhue]. revert Hhue.
    pose proof PI_RGT_0. pose proof PI_4.
    set (a := (0 + 1 * (4 * PI / 5 / 1)) * 1 * 0.3 + 0).
    assert (Ha : 0 < a < 1) by (subst a; lra).
    unfold Js.rem. replace (a / 1) with a by lra.
    replace (0 * 1 * 0.3 + 0) with 0 by lra.
    replace (0 / 1) with 0 by lra.
    rewrite !trunc_nonneg by lra.
    rewrite (Int_part_unique a 0), (Int_part_unique 0 0) by lra. lra.
Qed.

(** C2 as stated fails: no period serves every speed.  For the pink
    pulse and any candidate period [P], at speed [PI / (2 * P)] the
    intensity is 1.0 at time [P / 2] and 0.3 one period later. *)
Lemma evaluateEmitterEffect_no_speed_free_period :
  ~ (forall effect : LightEffect,
       effect <> off ->
       exists P : R,
         0 < P /\
         forall (time phase speed : R) (k : Z),
           0 <= phase < 1 ->
           evaluateEmitterEffect effect (time + IZR k * P) phase speed =
             evaluateEmitterEffect effect time phase speed).
Proof.
  intros Hclaim.
  destruct (Hclaim pink_pulse ltac:(discriminate)) as (P & HP & Hper).
  specialize (Hper (P / 2) 0 (PI / (2 * P)) 1%Z ltac:(lra)).
  apply (f_equal snd) in Hper. unfold evaluateEmitterEffect in Hper.
  simpl in Hper. replace 2.0 with 2 in Hper by lra.
  replace ((P / 2 + 1 * P) * (PI / (2 * P)) * 2) with (3 * (PI / 2))
    in Hper by (field; lra).
  replace (P / 2 * (PI / (2 * P)) * 2) with (PI / 2)
    in Hper by (field; lra).
  rewrite sin_3PI2, sin_PI2 in Hper. lra.
Qed.

End PeriodFacts.

(** ** Loops, sorting and rank selection *)

Section SamplerFacts.

Context {A : Type}.

Lemma strideFrom_In fuel step i (items : list A) a :
  In a (Js.strideFrom fuel step i items) -> In a items.
Proof.
  revert i. induction fuel as [|fuel IH]; intros i; simpl; [easy|].
  destruct (items !! i) as [b|] eqn:Hb; simpl; [|easy].
  intros [<-|Hin]; [|eauto].
  apply list_elem_of_In. eapply list_elem_of_lookup_2; eauto.
Qed.

(** With step 1 the loop visits every index. *)
Lemma strideFrom_one fuel i (items : list A) :
  (length items <= i + fuel)%nat ->
  Js.strideFrom fuel 1 i items = drop i items.
Proof.
  revert i. induction fuel as [|fuel IH]; intros i Hlen; simpl.
  - rewrite drop_ge by lia. reflexivity.
  - destruct (items !! i) as [b|] eqn:Hb.
    + rewrite IH by lia. rewrite (drop_S _ _ _ Hb).
      replace (i + 1)%nat with (S i) by lia. reflexivity.
    + apply lookup_ge_None in Hb. rewrite drop_ge by lia. reflexivity.
Qed.

Lemma strided_one (items : list A) : Js.strided items 1 = items.
Proof. unfold Js.strided. rewrite strideFrom_one by lia. apply drop_0. Qed.

(** The loop collects one item per [step] indices. *)
Lemma strideFrom_length fuel step i (items : list A) :
  (0 < step)%nat -> (length items <= i + fuel)%nat ->
  length (Js.strideFrom fuel step i items) =
    ((length items - i + step - 1) / step)%nat.
Proof.
  intros Hstep. revert i.
  induction fuel as [|fuel IH]; intros i Hlen; simpl.
  - replace (length items - i + step - 1)%nat with (step - 1)%nat by lia.
    rewrite Nat.div_small; lia.
  - destruct (items !! i) as [b|] eqn:Hb; simpl.
    + apply lookup_lt_Some in Hb. rewrite IH by lia.
      destruct (Nat.le_gt_cases step (length items - i)) as [Hge|Hlt].
      * replace (length items - i + step - 1)%nat
          with ((length items - (i + step) + step - 1) + 1 * step)%nat
          by lia.
        rewrite Nat.div_add by lia. lia.
      * replace (length items - (i + step) + step - 1)%nat
          with (step - 1)%nat by lia.
        rewrite (Nat.div_small (step - 1)) by lia.
        replace (length items - i + step - 1)%nat
          with ((length items - i - 1) + 1 * step)%nat by lia.
        rewrite Nat.div_add, Nat.div_small by lia. reflexivity.
    + apply lookup_ge_None in Hb.
      replace (length items - i + step - 1)%nat with (step - 1)%nat by lia.
      rewrite Nat.div_small; lia.
Qed.

(** The [j]-th item collected is the one at index [i + j * step]. *)
Lemma strideFrom_lookup fuel step i j (items : list A) :
  (0 < step)%nat -> (length items <= i + fuel)%nat ->
  Js.strideFrom fuel step i items !! j = items !! (i + j * step)%nat.
Proof.
  intros Hstep. revert i j.
  induction fuel as [|fuel IH]; intros i j Hlen; simpl.
  - symmetry. apply lookup_ge_None. lia.
  - destruct (items !! i) as [b|] eqn:Hb.
    + destruct j as [|j]; simpl.
      * now rewrite Nat.add_0_r.
      * apply lookup_lt_Some in Hb. rewrite IH by lia. f_equal. lia.
    + apply lookup_ge_None in Hb. symmetry. apply lookup_ge_None. lia.
Qed.

Lemma strided_lookup step j (items : list A) :
  (0 < step)%nat -> Js.strided items step !! j = items !! (j * step)%nat.
Proof. intros Hstep. unfold Js.strided. now rewrite strideFrom_lookup by lia. Qed.

Lemma strided_length step (items : list A) :
  (0 < step)%nat ->
  length (Js.strided items step) = ((length items + step - 1) / step)%nat.
Proof.
  intros Hstep. unfold Js.strided. rewrite strideFrom_length by lia.
  f_equal. lia.
Qed.

(** In range, the rank picked is a valid index. *)
Lemma sampleIndex_lt len count i :
  (0 < len)%nat -> 1 <= count -> INR i <= count - 1 ->
  (sampleIndex len count i < len)%nat.
Proof.
  intros Hlen Hcount Hi. unfold sampleIndex.
  set (t := if Req_dec_T count 1 then 0.5 else INR i / (count - 1)).
  assert (Ht : 0 <= t <= 1).
  { subst t. destruct (Req_dec_T count 1); [lra|].
    pose proof (pos_INR i). apply div_unit; lra. }
  assert (Hl : 1 <= INR len) by (change 1 with (INR 1); apply le_INR; lia).
  destruct (round_range ((INR len - 1) * t) (Z.of_nat len - 1)) as [H0 H1].
  { rewrite minus_IZR, <- INR_IZR_INZ. split; nra. }
  lia.
Qed.

(** Asking for as many samples as there are items picks each rank. *)
Lemma sampleIndex_full len i :
  (i < len)%nat -> sampleIndex len (INR len) i = i.
Proof.
  intros Hi. unfold sampleIndex.
  destruct (Req_dec_T (INR len) 1) as [H1|H1].
  - assert (len = 1)%nat by (apply INR_eq; simpl; lra). subst len.
    replace ((INR 1 - 1) * 0.5) with (IZR 0) by (simpl; lra).
    rewrite round_IZR. lia.
  - assert (Hl : 2 <= INR len).
    { assert (len <> 1)%nat by (intros ->; apply H1; reflexivity).
      change 2 with (INR 2). apply le_INR. lia. }
    replace ((INR len - 1) * (INR i / (INR len - 1))) with (INR i)
      by (field; lra).
    rewrite round_INR. apply Nat2Z.id.
Qed.

Lemma omap_lookup_full {B} (f : A -> B) (items : list A) (g : nat -> nat) :
  (forall i, (i < length items)%nat -> g i = i) ->
  omap (fun i => f <$> items !! g i) (seq 0 (length items)) = map f items.
Proof.
  intros Hg. induction items as [|a items IH] using rev_ind; [easy|].
  rewrite length_app, Nat.add_1_r, seq_S, omap_app, map_app. simpl.
  rewrite Hg by (rewrite length_app; simpl; lia).
  rewrite lookup_app_r, Nat.sub_diag by lia. simpl. f_equal.
  rewrite <- IH.
  - apply list_omap_ext. apply Forall2_same_length_lookup_2; [easy|].
    intros i x y Hx Hy. rewrite Hx in Hy. injection Hy as <-.
    apply lookup_seq in Hx as [-> Hlt]. simpl.
    rewrite !Hg by (rewrite ?length_app; simpl; lia).
    rewrite lookup_app_l by lia. reflexivity.
  - intros i Hi. apply Hg. rewrite length_app. simpl. lia.
Qed.

Lemma omap_seq_length {B} (h : nat -> option B) n :
  (forall i, (i < n)%nat -> is_Some (h i)) ->
  length (omap h (seq 0 n)) = n.
Proof.
  intros Hh. induction n as [|n IH]; [easy|].
  rewrite seq_S, omap_app, length_app, IH by (intros; apply Hh; lia).
  simpl. destruct (Hh n ltac:(lia)) as [b ->]. simpl. lia.
Qed.

Lemma downsampleEvenly_In (items : list A) maxCount a :
  In a (downsampleEvenly items maxCount) -> In a items.
Proof.
  unfold downsampleEvenly.
  destruct (maxCount <=? 0)%Z; [easy|].
  destruct (Z.of_nat (length items) <=? maxCount)%Z; [easy|].
  intros Hin. apply list_elem_of_In, list_elem_of_omap in Hin.
  destruct Hin as (i & _ & Hi).
  apply list_elem_of_In. eapply list_elem_of_lookup_2; eauto.
Qed.

Lemma downsampleEvenly_length (items : list A) maxCount :
  (0 <= maxCount)%Z ->
  length (downsampleEvenly items maxCount) =
    Nat.min (length items) (Z.to_nat maxCount).
Proof.
  intros Hmax. unfold downsampleEvenly.
  destruct (Z.leb_spec maxCount 0); [simpl; lia|].
  destruct (Z.leb_spec (Z.of_nat (length items)) maxCount); [lia|].
  rewrite Nat.min_r by lia. apply omap_seq_length.
  intros i Hi. apply lookup_lt_is_Some_2, sampleIndex_lt; [lia| |].
  - apply IZR_le. lia.
  - rewrite INR_IZR_INZ, <- minus_IZR. apply IZR_le. lia.
Qed.

Lemma downsampleEvenly_zero (items : list A) :
  downsampleEvenly items 0 = [].
Proof. reflexivity. Qed.

End SamplerFacts.

(** ** Sorting along the dominant axis *)

Section SortFacts.

Lemma insertByAxis_perm v l : Permutation (insertByAxis v l) (v :: l).
Proof.
  induction l as [|w l IH]; simpl; [easy|].
  destruct (Js.leb _ _); [easy|].
  rewrite IH. apply perm_swap.
Qed.

Lemma sortByAxis_perm l : Permutation (sortByAxis l) l.
Proof.
  induction l as [|v l IH]; simpl; [easy|].
  rewrite insertByAxis_perm. now constructor.
Qed.

Lemma sortByAxis_length l : length (sortByAxis l) = length l.
Proof. apply Permutation_length, sortByAxis_perm. Qed.

Lemma insertByAxis_sorted v l :
  StronglySorted axisLe l -> StronglySorted axisLe (insertByAxis v l).
Proof.
  induction 1 as [|w l Hs IH Hall]; simpl.
  - repeat constructor.
  - destruct (Js.leb (axisValue v) (axisValue w)) eqn:Hvw.
    + apply leb_true in Hvw. constructor; [now constructor|].
      constructor; [exact Hvw|].
      eapply Forall_impl; [exact Hall|].
      intros u Hu. unfold axisLe in *. simpl in *. lra.
    + apply leb_false in Hvw. constructor; [exact IH|].
      apply List.Forall_forall. intros u Hu.
      apply (Permutation_in _ (insertByAxis_perm v l)) in Hu.
      destruct Hu as [<-|Hu]; [unfold axisLe; lra|].
      rewrite List.Forall_forall in Hall. now apply Hall.
Qed.

Lemma sortByAxis_sorted l : StronglySorted axisLe (sortByAxis l).
Proof.
  induction l as [|v l IH]; simpl; [constructor|].
  now apply insertByAxis_sorted.
Qed.

End SortFacts.

(** ** Surface point sampling *)

Section WorldPointFacts.

Lemma sampledVerticesOf_length positions :
  let step := Nat.max 1 (length positions / 2048) in
  length (sampledVerticesOf positions) =
    ((length positions + step - 1) / step)%nat.
Proof.
  intros step. unfold sampledVerticesOf. rewrite length_map.
  apply strided_length. subst step. lia.
Qed.

Lemma sampledVerticesOf_nonempty positions :
  (0 < length positions)%nat -> (0 < length (sampledVerticesOf positions))%nat.
Proof.
  intros Hpos. rewrite sampledVerticesOf_length.
  set (step := Nat.max 1 (length positions / 2048)).
  assert (0 < step)%nat by (subst step; lia).
  apply Nat.div_str_pos. lia.
Qed.

(** Below 4096 vertices the step is 1 and every vertex is looked at. *)
Lemma sampledVerticesOf_all positions :
  (length positions < 4096)%nat ->
  map point (sampledVerticesOf positions) = positions.
Proof.
  intros Hlen. unfold sampledVerticesOf.
  assert (Hdiv : (length positions / 2048 <= 1)%nat).
  { apply Nat.lt_succ_r. apply Nat.Div0.div_lt_upper_bound. lia. }
  replace (Nat.max 1 (length positions / 2048)) with 1%nat by lia.
  rewrite strided_one, map_map. simpl. apply map_id.
Qed.

Lemma sampleMeshWorldPoints_eq mesh positions uv n :
  geometry mesh = Buffer (Some positions) uv ->
  (0 < length positions)%nat -> (0 < n)%Z ->
  let sorted := sortByAxis (sampledVerticesOf positions) in
  let count := Nat.min (Z.to_nat n) (length sorted) in
  sampleMeshWorldPoints mesh n =
    omap (fun i =>
            (fun v => localToWorld mesh (point v)) <$>
              sorted !! sampleIndex (length sorted) (INR count) i)
         (seq 0 count).
Proof.
  intros Hgeo Hpos Hn sorted count. unfold sampleMeshWorldPoints.
  rewrite Hgeo. destruct (Z.leb_spec n 0); [lia|].
  pose proof (sampledVerticesOf_nonempty positions Hpos) as Hne.
  destruct (Nat.eqb_spec (length (sampledVerticesOf positions)) 0); [lia|].
  reflexivity.
Qed.

Lemma sampleMeshWorldPoints_length mesh positions uv n :
  geometry mesh = Buffer (Some positions) uv ->
  (0 < length positions)%nat -> (0 < n)%Z ->
  length (sampleMeshWorldPoints mesh n) =
    Nat.min (Z.to_nat n) (length (sampledVerticesOf positions)).
Proof.
  intros Hgeo Hpos Hn.
  rewrite (sampleMeshWorldPoints_eq mesh positions uv n) by easy.
  pose proof (sampledVerticesOf_nonempty positions Hpos) as Hne.
  rewrite sortByAxis_length.
  set (count := Nat.min _ _). apply omap_seq_length.
  intros i Hi. apply fmap_is_Some, lookup_lt_is_Some_2.
  rewrite sortByAxis_length. apply sampleIndex_lt; [easy| |].
  - change 1 with (INR 1). apply le_INR. subst count. lia.
  - pose proof (le_INR (S i) count ltac:(lia)) as Hle.
    rewrite S_INR in Hle. lra.
Qed.

(** The axis picked has an extent that no other axis exceeds. *)
Lemma getLargestAxisName_max (size : Vector3) :
  let axis := getLargestAxisName size in
  x size <= component axis size /\
  y size <= component axis size /\
  z size <= component axis size.
Proof.
  unfold getLargestAxisName, Js.geb.
  destruct (Js.leb (x size) (y size)) eqn:Hxy;
    destruct (Js.leb (z size) (y size)) eqn:Hzy;
    destruct (Js.leb (x size) (z size)) eqn:Hxz;
    destruct (Js.leb (y size) (z size)) eqn:Hyz;
    rewrite ?leb_true, ?leb_false in *; simpl; repeat split; lra.
Qed.

(** C7, as the code has it: the result is a function of the mesh and the
    count (so two calls agree).  For a mesh with vertices, the sampler
    sorts every [step]-th vertex ([step] = max(1, floor(vertexCount /
    2048))) by its coordinate on the dominant axis, the axis
    [getLargestAxisName] picks for the size of the bounding box, whose
    extent no other axis exceeds; it returns min(n, sampled) points;
    for n = 1 it returns the vertex of rank floor(sampled / 2) in that
    order; and for n >= vertexCount on a mesh of fewer than 4096 vertices
    it returns every vertex once, in that order. *)
Theorem sampleMeshWorldPoints_ranks mesh positions uv n :
  geometry mesh = Buffer (Some positions) uv ->
  (0 < length positions)%nat -> (0 < n)%Z ->
  let sorted := sortByAxis (sampledVerticesOf positions) in
  Permutation sorted (sampledVerticesOf positions) /\
  StronglySorted axisLe sorted /\
  length (sampleMeshWorldPoints mesh n) =
    Nat.min (Z.to_nat n) (length sorted) /\
  (n = 1%Z ->
   exists v,
     sorted !! (length sorted / 2)%nat = Some v /\
     sampleMeshWorldPoints mesh n = [localToWorld mesh (point v)]) /\
  ((length positions < 4096)%nat -> (Z.of_nat (length positions) <= n)%Z ->
   sampleMeshWorldPoints mesh n =
     map (fun v => localToWorld mesh (point v)) sorted /\
   Permutation (sampleMeshWorldPoints mesh n)
     (map (localToWorld mesh) positions)) /\
  (let size := boundingBoxSize positions in
   let axis := getLargestAxisName size in
   map point (sampledVerticesOf positions) =
     Js.strided positions (Nat.max 1 (length positions / 2048)) /\
   Forall (fun v => axisValue v = component axis (point v)) sorted /\
   x size <= component axis size /\
   y size <= component axis size /\
   z size <= component axis size).
Proof.
  intros Hgeo Hpos Hn sorted.
  pose proof (sampledVerticesOf_nonempty positions Hpos) as Hne.
  assert (Hlen : length sorted = length (sampledVerticesOf positions))
    by apply sortByAxis_length.
  split; [apply sortByAxis_perm|].
  split; [apply sortByAxis_sorted|].
  split.
  { rewrite Hlen. eapply sampleMeshWorldPoints_length; eauto. }
  split; [|split].
  3: { cbv zeta. split; [|split].
       - unfold sampledVerticesOf. rewrite map_map. simpl. apply map_id.
       - apply List.Forall_forall. intros v Hv.
         apply (Permutation_in _ (sortByAxis_perm _)) in Hv.
         unfold sampledVerticesOf in Hv.
         apply in_map_iff in Hv as (p & <- & _). reflexivity.
       - apply getLargestAxisName_max. }
  - intros ->.
    rewrite (sampleMeshWorldPoints_eq mesh positions uv 1) by easy.
    fold sorted. replace (Nat.min (Z.to_nat 1) (length sorted)) with 1%nat
      by lia.
    simpl. unfold sampleIndex.
    destruct (Req_dec_T 1 1) as [_|Hne1]; [|lra].
    rewrite round_half by lia.
    destruct (lookup_lt_is_Some_2 sorted (length sorted / 2)) as [v Hv].
    { apply Nat.div_lt; lia. }
    exists v. rewrite Hv. easy.
  - intros Hsmall Hall.
    pose proof (sampledVerticesOf_all positions Hsmall) as Hpts.
    assert (Hcount : length sorted = length positions).
    { rewrite Hlen.
      transitivity (length (map point (sampledVerticesOf positions)));
        [now rewrite length_map | now rewrite Hpts]. }
    assert (Heq : sampleMeshWorldPoints mesh n =
                  map (fun v => localToWorld mesh (point v)) sorted).
    { rewrite (sampleMeshWorldPoints_eq mesh positions uv n) by easy.
      fold sorted.
      replace (Nat.min (Z.to_nat n) (length sorted)) with (length sorted)
        by lia.
      apply omap_lookup_full. intros i Hi. now apply sampleIndex_full. }
    split; [exact Heq|].
    rewrite Heq, <- (map_map point (localToWorld mesh)).
    apply Permutation_map.
    transitivity (map point (sampledVerticesOf positions));
      [apply Permutation_map, sortByAxis_perm | now rewrite Hpts].
Qed.

(** On the three vertices 2, 0, 1 the single sample is the middle one. *)
Example smallMesh_median :
  sampleMeshWorldPoints smallMesh 1 = [ {| x := 1; y := 0; z := 0 |} ].
Proof.
  unfold sampleMeshWorldPoints, smallMesh, meshOf, threeVertices. simpl.
  unfold sampledVerticesOf, getLargestAxisName, Js.geb. js_eval.
  unfold sampleIndex. simpl.
  destruct (Req_dec_T 1 1); [|lra].
  replace ((1 + 1 + 1 - 1) * 0.5) with (IZR 1) by lra.
  rewrite round_IZR. reflexivity.
Qed.

Lemma sampleMeshWorldPoints_ranks_witness :
  exists v,
    sortByAxis (sampledVerticesOf threeVertices) !!
      (length (sortByAxis (sampledVerticesOf threeVertices)) / 2)%nat
      = Some v /\
    sampleMeshWorldPoints smallMesh 1 = [localToWorld smallMesh (point v)].
Proof.
  refine (proj1 (proj2 (proj2 (proj2
    (sampleMeshWorldPoints_ranks smallMesh threeVertices None 1
       eq_refl _ _)))) eq_refl).
  - simpl. lia.
  - lia.
Defined.

(** C7 as stated fails on large meshes: of the 4096 vertices of the dense
    strip, a request for 4096 points returns 2048. *)
Lemma sampleMeshWorldPoints_dense_mesh :
  length denseVertices = 4096%nat /\
  (Z.of_nat (length denseVertices) <= 4096)%Z /\
  length (sampleMeshWorldPoints denseMesh 4096) = 2048%nat.
Proof.
  assert (Hlen : length denseVertices = 4096%nat).
  { unfold denseVertices. now rewrite length_map, length_seq. }
  split; [exact Hlen|]. split; [rewrite Hlen; lia|].
  rewrite (sampleMeshWorldPoints_length denseMesh denseVertices None)
    by (rewrite ?Hlen; (reflexivity || lia)).
  rewrite sampledVerticesOf_length, Hlen. reflexivity.
Qed.

End WorldPointFacts.

(** ** UV phase lookup *)

Section UvPhaseFacts.

Lemma sampleMeshUvWorldPoints_u_range mesh maxSamples s :
  In s (sampleMeshUvWorldPoints mesh maxSamples) -> 0 <= u s < 1.
Proof.
  unfold sampleMeshUvWorldPoints.
  destruct (maxSamples <=? 0)%Z; [easy|].
  destruct (geometry mesh) as [|[positions|] [uvs|]]; try easy.
  destruct (length (zip positions uvs) =? 0)%nat; [easy|].
  intros Hin. apply in_map_iff in Hin as ([localPoint localUv] & <- & _).
  simpl. apply wrap_unit.
Qed.

(** The scan keeps the first sample of least squared distance. *)
Lemma nearest_scan worldPoint rest :
  forall first : EdgeUvSample,
    let scan :=
      fold_left
        (fun '(nearestSample, nearestDistanceSq) sample =>
           let distanceSq :=
             distanceToSquared worldPoint (position sample) in
           if Js.ltb distanceSq nearestDistanceSq
           then (sample, distanceSq)
           else (nearestSample, nearestDistanceSq)) in
    forall d0 s d,
      scan rest (first, d0) = (s, d) ->
      d0 = distanceToSquared worldPoint (position first) ->
      d = distanceToSquared worldPoint (position s) /\
      In s (first :: rest) /\
      d <= d0 /\
      forall s', In s' rest ->
        d <= distanceToSquared worldPoint (position s').
Proof.
  induction rest as [|sample rest IH]; intros first scan d0 s d Hscan Hd0;
    simpl in *.
  - injection Hscan as <- <-.
    split; [exact Hd0|]. split; [now left|]. split; [lra|easy].
  - destruct (Js.ltb _ d0) eqn:Hlt.
    + apply ltb_true in Hlt.
      destruct (IH sample _ s d Hscan eq_refl) as (Hd & Hin & Hle & Hall).
      split; [exact Hd|]. split; [now right|]. split; [lra|].
      intros s' [<-|Hs']; [lra|auto].
    + apply ltb_false in Hlt.
      destruct (IH first _ s d Hscan Hd0) as (Hd & Hin & Hle & Hall).
      split; [exact Hd|].
      split; [destruct Hin as [<-|Hin]; [now left|now right; right]|].
      split; [lra|].
      intros s' [<-|Hs']; [lra|auto].
Qed.

(** C8: [getNearestUvPhase] is total; it returns null exactly on the
    empty list; on a non-empty list it returns the [u] of a sample at
    least squared distance from the query point; and when every sample
    comes from [sampleMeshUvWorldPoints] that value lies in [0, 1). *)
Theorem getNearestUvPhase_spec
    (worldPoint : Vector3) (uvSamples : list EdgeUvSample) :
  getNearestUvPhase worldPoint [] = None /\
  match getNearestUvPhase worldPoint uvSamples with
  | None => uvSamples = []
  | Some phase =>
      exists s,
        In s uvSamples /\ phase = u s /\
        (forall s', In s' uvSamples ->
           distanceToSquared worldPoint (position s) <=
           distanceToSquared worldPoint (position s')) /\
        ((forall s', In s' uvSamples ->
            exists mesh maxSamples,
              In s' (sampleMeshUvWorldPoints mesh maxSamples)) ->
         0 <= phase < 1)
  end.
Proof.
  split; [reflexivity|].
  destruct uvSamples as [|first rest]; [reflexivity|].
  unfold getNearestUvPhase.
  destruct (fold_left _ rest _) as [s d] eqn:Hscan.
  destruct (nearest_scan worldPoint rest first _ s d Hscan eq_refl)
    as (Hd & Hin & Hle & Hall).
  exists s. simpl fst.
  split; [exact Hin|]. split; [reflexivity|]. split.
  - intros s' [<-|Hs']; [lra|]. rewrite <- Hd. auto.
  - intros Hfrom. destruct (Hfrom s Hin) as (mesh & maxSamples & Hs).
    eapply sampleMeshUvWorldPoints_u_range; eauto.
Qed.

Lemma invertUvPhase_range uvPhase : 0 <= invertUvPhase uvPhase < 1.
Proof. apply wrap_unit. Qed.

End UvPhaseFacts.

(** ** Rig synthesis *)

Section RigFacts.

Variables maxDim boxMinY : R.

Lemma normalizedSegmentCountOf_pos segmentCount segmentFractions :
  (0 < normalizedSegmentCountOf segmentCount segmentFractions)%nat.
Proof.
  unfold normalizedSegmentCountOf, normalizedFractionsOf.
  destruct segmentFractions as [[|f fs]|]; simpl; lia.
Qed.

Lemma addEdgeSegment_new source phase follow n shadow st segment :
  (0 < n)%nat ->
  let st' :=
    addEdgeSegment maxDim boxMinY source phase follow n shadow st segment in
  exists e,
    emissiveEmitterLights st' = emissiveEmitterLights st ++ [e] /\
    edgeRigEmitter (edgeMinIntensity maxDim) n source follow e /\
    edgeRigCount st' = edgeRigCount st.
Proof.
  intros Hn. destruct segment as [segmentIndex segmentPosition].
  unfold addEdgeSegment. simpl. eexists. split; [reflexivity|].
  split; [|reflexivity]. unfold edgeRigEmitter. simpl.
  repeat split.
  assert (0 < INR n) by (apply lt_0_INR; lia).
  unfold Rdiv. rewrite Rmult_assoc, Rinv_l, Rmult_1_r by lra.
  apply Rmax_l.
Qed.

Lemma addEdgeSegments_new source phase follow n shadow segments :
  (0 < n)%nat ->
  forall st,
    let st' :=
      fold_left (addEdgeSegment maxDim boxMinY source phase follow n shadow)
        segments st in
    exists news,
      emissiveEmitterLights st' = emissiveEmitterLights st ++ news /\
      length news = length segments /\
      Forall (edgeRigEmitter (edgeMinIntensity maxDim) n source follow)
        news /\
      edgeRigCount st' = edgeRigCount st.
Proof.
  intros Hn. induction segments as [|segment segments IH]; intros st; simpl.
  - exists []. rewrite app_nil_r. repeat split. constructor.
  - destruct (addEdgeSegment_new source phase follow n shadow st segment Hn)
      as (e & He & Hspot & Hcount).
    destruct (IH (addEdgeSegment maxDim boxMinY source phase follow n
                    shadow st segment))
      as (news & Hnews & Hlen & Hall & Hcount').
    exists (e :: news). rewrite Hnews, He, <- app_assoc. simpl.
    repeat split; auto. lia.
Qed.

(** A rig adds one emitter per segment, each an edge-led spot light. *)
Lemma addEdgeEmitterRig_new rigStart rigEnd source phase follow
    segmentCount segmentFractions st :
  let n := normalizedSegmentCountOf segmentCount segmentFractions in
  let st' :=
    addEdgeEmitterRig maxDim boxMinY rigStart rigEnd source phase follow
      segmentCount segmentFractions st in
  exists news,
    emissiveEmitterLights st' = emissiveEmitterLights st ++ news /\
    length news = n /\
    Forall (edgeRigEmitter (edgeMinIntensity maxDim) n source follow) news /\
    edgeRigCount st' = S (edgeRigCount st).
Proof.
  intros n st'. subst st'. unfold addEdgeEmitterRig. fold n.
  pose proof (normalizedSegmentCountOf_pos segmentCount segmentFractions)
    as Hn. fold n in Hn.
  match goal with
  | |- context [fold_left ?f ?segs ?st0] =>
      destruct (addEdgeSegments_new source phase follow n
                  (Z.to_nat (Js.round ((INR n - 1) * 0.5))) segs Hn st0)
        as (news & Hnews & Hlen & Hall & Hcount)
  end.
  exists news. simpl in Hnews, Hcount.
  split; [exact Hnews|]. split; [|split; [exact Hall|exact Hcount]].
  rewrite Hlen, length_zip, length_seq.
  assert (Hpos : forall l : list Vector3, length l = n ->
                 Nat.min n (length l) = n) by (intros; lia).
  apply Hpos. subst n. unfold normalizedSegmentCountOf.
  destruct (normalizedFractionsOf segmentFractions) as [fractions|].
  - now rewrite length_map.
  - now rewrite length_map, length_seq.
Qed.

(** A light straight above its target is as far as the difference of
    the heights. *)
Lemma distanceTo_vertical p a b :
  distanceTo (setY p a) (setY p b) = Rabs (a - b).
Proof.
  unfold distanceTo, distanceToSquared. simpl.
  replace (_ + _ + _) with (Rsqr (a - b)) by (unfold Rsqr; ring).
  apply sqrt_Rsqr_abs.
Qed.

Lemma addBaseEmitter_new position source phase st :
  exists e,
    emissiveEmitterLights (addBaseEmitter maxDim boxMinY position source
                             phase st) =
      emissiveEmitterLights st ++ [e] /\
    layerType e = base_lights /\
    baseMinIntensity maxDim <= baseIntensity e.
Proof.
  unfold addBaseEmitter. simpl. eexists. split; [reflexivity|].
  simpl. split; [reflexivity|]. apply Rmax_l.
Qed.

End RigFacts.

(** C4 as stated fails for edge rigs: a guide rig splits its intensity
    over two emitters, and each stores 1250, half the floor of 2500. *)
Lemma edge_rig_emitter_below_floor :
  let st := addGuideRig 10 0 initialRigState levelGuide in
  map layerType (emissiveEmitterLights st) = [edge_led; edge_led] /\
  Forall (fun e => baseIntensity e < edgeMinIntensity 10)
    (emissiveEmitterLights st).
Proof.
  unfold addGuideRig, addEdgeEmitterRig, levelGuide.
  cbn -[distanceTo setY Rmax Js.clamp INR]. split; [reflexivity|].
  repeat constructor; cbn -[distanceTo setY Rmax Js.clamp INR];
    rewrite distanceTo_vertical;
    unfold edgeMinIntensity, groundY, edgeTargetGroundLux,
      edgeThrowPadding, throwExtensionScale;
    rewrite (Rmax_right (10 * 0.015) 0.8) by lra;
    match goal with
    | |- context [Rabs ?d] => replace d with 3.7 by lra
    end;
    rewrite Rabs_right by lra; js_max; simpl; lra.
Qed.

(** ** The guide-less fallback, the base cap and the intensity floors *)

Section SynthesisFacts.

Variables maxDim boxMinY : R.

Lemma highest_scan candidates : forall acc : option R,
  let highest :=
    fold_left
      (fun highest candidate =>
         Some match highest with
              | None => y (edgePoint candidate)
              | Some h => Rmax h (y (edgePoint candidate))
              end)
      candidates acc in
  match highest with
  | None => acc = None /\ candidates = []
  | Some h =>
      (forall a, acc = Some a -> a <= h) /\
      (forall c, In c candidates -> y (edgePoint c) <= h) /\
      (acc = Some h \/ exists c, In c candidates /\ y (edgePoint c) = h)
  end.
Proof.
  induction candidates as [|c candidates IH]; intros acc; simpl.
  - destruct acc as [a|]; [|easy].
    split; [intros ? [= <-]; lra|]. split; [easy|now left].
  - specialize (IH (Some match acc with
                         | None => y (edgePoint c)
                         | Some h => Rmax h (y (edgePoint c))
                         end)).
    simpl in IH. destruct (fold_left _ candidates _) as [h|]; [|now destruct IH].
    destruct IH as (Hacc & Hall & Htop).
    specialize (Hacc _ eq_refl).
    split; [|split].
    + intros a ->. pose proof (Rmax_l a (y (edgePoint c))). lra.
    + intros c' [<-|Hc']; [|auto].
      destruct acc as [a|]; [pose proof (Rmax_r a (y (edgePoint c)))|]; lra.
    + destruct Htop as [[= Hh]|(c' & Hc' & Hy)]; [|right; eauto].
      destruct acc as [a|]; [|right; eauto].
      unfold Rmax in Hh. destruct (Rle_dec a (y (edgePoint c)));
        [right; eauto | left; congruence].
Qed.

(** [highestEdgeY] is the height of the topmost candidate. *)
Lemma highestEdgeYOf_top candidates (c : EdgeCandidate) :
  In c candidates ->
  exists h,
    highestEdgeYOf candidates = Some h /\
    (forall c', In c' candidates -> y (edgePoint c') <= h) /\
    (exists top, In top candidates /\ y (edgePoint top) = h).
Proof.
  intros Hc. unfold highestEdgeYOf.
  pose proof (highest_scan candidates None) as Hscan. simpl in Hscan.
  destruct (fold_left _ candidates None) as [h|].
  - destruct Hscan as (_ & Hall & [Hnone|Htop]); [easy|]. eauto.
  - destruct Hscan as [_ ->]. easy.
Qed.

Lemma fallbackSegmentCount :
  normalizedSegmentCountOf fallbackEdgeLineSegmentCount None = 3%nat.
Proof.
  unfold normalizedSegmentCountOf, fallbackEdgeLineSegmentCount. simpl.
  now rewrite round_IZR.
Qed.

Lemma guideSegmentCount :
  normalizedSegmentCountOf guideEdgeLineSegmentCount
    (Some guideEdgeLightFractions) = 2%nat.
Proof. reflexivity. Qed.

Lemma edgeMinIntensity_pos : 2500 <= edgeMinIntensity maxDim.
Proof. apply Rmax_r. Qed.

(** Every emitter of an edge rig, with two or three segments, is an
    edge-led spot light storing at least a third of the floor. *)
Lemma edgeRigEmitter_third n source follow e :
  (n = 2 \/ n = 3)%nat ->
  edgeRigEmitter (edgeMinIntensity maxDim) n source follow e ->
  layerType e = edge_led /\ lightKind (light e) = SpotLight /\
  edgeMinIntensity maxDim <= baseIntensity e * 3.
Proof.
  intros Hn (Hlayer & Hkind & _ & _ & Hfloor).
  split; [exact Hlayer|]. split; [exact Hkind|].
  pose proof edgeMinIntensity_pos.
  destruct Hn as [-> | ->]; simpl in Hfloor; lra.
Qed.

Lemma addGuideRig_new st rig :
  exists news,
    emissiveEmitterLights (addGuideRig maxDim boxMinY st rig) =
      emissiveEmitterLights st ++ news /\
    Forall (fun e =>
              layerType e = edge_led /\ lightKind (light e) = SpotLight /\
              edgeMinIntensity maxDim <= baseIntensity e * 3) news /\
    edgeRigCount (addGuideRig maxDim boxMinY st rig) = S (edgeRigCount st).
Proof.
  unfold addGuideRig.
  destruct (addEdgeEmitterRig_new maxDim boxMinY (guideStart rig)
              (guideEnd rig) (SceneObject (guideSourceObject rig))
              (guidePhase rig) false guideEdgeLineSegmentCount
              (Some guideEdgeLightFractions) st)
    as (news & Hnews & _ & Hspot & Hcount).
  rewrite guideSegmentCount in Hspot.
  exists news. split; [exact Hnews|]. split; [|exact Hcount].
  eapply Forall_impl; [exact Hspot|].
  intros e He. eapply edgeRigEmitter_third; [|exact He]. now left.
Qed.

Lemma addFallbackRig_new st candidate :
  exists news,
    emissiveEmitterLights (addFallbackRig maxDim boxMinY st candidate) =
      emissiveEmitterLights st ++ news /\
    Forall (fun e =>
              layerType e = edge_led /\ lightKind (light e) = SpotLight /\
              edgeMinIntensity maxDim <= baseIntensity e * 3) news /\
    edgeRigCount (addFallbackRig maxDim boxMinY st candidate) =
      S (edgeRigCount st).
Proof.
  unfold addFallbackRig.
  match goal with
  | |- context [addEdgeEmitterRig _ _ ?a ?b ?src ?ph ?fo ?sc ?sf st] =>
      destruct (addEdgeEmitterRig_new maxDim boxMinY a b src ph fo sc sf st)
        as (news & Hnews & _ & Hspot & Hcount)
  end.
  rewrite fallbackSegmentCount in Hspot.
  exists news. split; [exact Hnews|]. split; [|exact Hcount].
  eapply Forall_impl; [exact Hspot|].
  intros e He. eapply edgeRigEmitter_third; [|exact He]. now right.
Qed.

(** Folding a rig builder over a list: the emitters add up, and so does
    the rig count. *)
Lemma fold_rigs {X} (add : RigState -> X -> RigState)
    (P : EmissiveEmitterLight -> Prop) :
  (forall st x,
     exists news,
       emissiveEmitterLights (add st x) = emissiveEmitterLights st ++ news /\
       Forall P news /\
       edgeRigCount (add st x) = S (edgeRigCount st)) ->
  forall xs st,
    exists news,
      emissiveEmitterLights (fold_left add xs st) =
        emissiveEmitterLights st ++ news /\
      Forall P news /\
      edgeRigCount (fold_left add xs st) = (edgeRigCount st + length xs)%nat.
Proof.
  intros Hadd xs. induction xs as [|x xs IH]; intros st; simpl.
  - exists []. rewrite app_nil_r. repeat split; [constructor|lia].
  - destruct (Hadd st x) as (first & Hfirst & Hall1 & Hcount1).
    destruct (IH (add st x)) as (news & Hnews & Hall & Hcount).
    exists (first ++ news). rewrite Hnews, Hfirst, <- app_assoc.
    split; [reflexivity|]. split; [apply Forall_app; now split|lia].
Qed.

Lemma addEdgeRigs_emitters edgeGuideRigs edgeCandidates st :
  exists news,
    emissiveEmitterLights
      (addEdgeRigs maxDim boxMinY edgeGuideRigs edgeCandidates st) =
      emissiveEmitterLights st ++ news /\
    Forall (fun e =>
              layerType e = edge_led /\ lightKind (light e) = SpotLight /\
              edgeMinIntensity maxDim <= baseIntensity e * 3) news.
Proof.
  unfold addEdgeRigs.
  destruct (0 <? length edgeGuideRigs)%nat.
  - destruct (fold_rigs _ _ addGuideRig_new edgeGuideRigs st)
      as (news & Hnews & Hall & _). eauto.
  - destruct (fold_rigs _ _ addFallbackRig_new
                (fallbackRigCandidates maxDim edgeCandidates) st)
      as (news & Hnews & Hall & _). eauto.
Qed.

(** C9: in the guide-less path the rigs are made from
    [fallbackRigCandidates], at most [maxEdgeEmitters] (4) of them, one
    rig each; every one of them is an edge candidate whose height is
    within [canopyBand] of the topmost candidate. *)
Theorem fallbackRigCandidates_in_canopy_band
    (edgeCandidates : list EdgeCandidate) (st : RigState) :
  let selected := fallbackRigCandidates maxDim edgeCandidates in
  addEdgeRigs maxDim boxMinY [] edgeCandidates st =
    fold_left (addFallbackRig maxDim boxMinY) selected st /\
  edgeRigCount (addEdgeRigs maxDim boxMinY [] edgeCandidates st) =
    (edgeRigCount st + length selected)%nat /\
  (length selected <= Z.to_nat maxEdgeEmitters)%nat /\
  Forall
    (fun candidate =>
       In candidate edgeCandidates /\
       exists highestEdgeY,
         highestEdgeYOf edgeCandidates = Some highestEdgeY /\
         (forall c, In c edgeCandidates ->
            y (edgePoint c) <= highestEdgeY) /\
         (exists top,
            In top edgeCandidates /\ y (edgePoint top) = highestEdgeY) /\
         highestEdgeY - y (edgePoint candidate) <= canopyBand maxDim)
    selected.
Proof.
  intros selected. split; [reflexivity|]. split.
  { destruct (fold_rigs _ _ addFallbackRig_new selected st)
      as (news & _ & _ & Hcount). exact Hcount. }
  split.
  - subst selected. unfold fallbackRigCandidates.
    rewrite downsampleEvenly_length by (unfold maxEdgeEmitters; lia). lia.
  - apply List.Forall_forall. intros candidate Hsel.
    apply downsampleEvenly_In in Hsel.
    apply filter_In in Hsel as [Hin Hband].
    split; [exact Hin|].
    destruct (highestEdgeYOf_top edgeCandidates candidate Hin)
      as (h & Hh & Hall & Htop).
    exists h. split; [exact Hh|]. split; [exact Hall|].
    split; [exact Htop|].
    unfold inCanopyBand in Hband. rewrite Hh in Hband.
    now apply leb_true.
Qed.

(** In a model 10 units wide the band is 5 units: the candidate 10 units
    below the top gets no rig. *)
Example low_candidate_excluded :
  fallbackRigCandidates 10 [canopyCandidate; lowCandidate] =
    [canopyCandidate].
Proof.
  unfold fallbackRigCandidates, canopyEdgeCandidatesOf, highestEdgeYOf,
    inCanopyBand, canopyBand.
  js_eval. reflexivity.
Qed.

Lemma addBaseEmitters_none baseCandidates st :
  addBaseEmitters maxDim boxMinY baseCandidates st = st.
Proof. reflexivity. Qed.

Lemma addWashEmitters_emitters washCandidates : forall st,
  exists news,
    emissiveEmitterLights (addWashEmitters maxDim washCandidates st) =
      emissiveEmitterLights st ++ news /\
    length news = length washCandidates /\
    Forall (fun e =>
              layerType e = wash_lights /\
              lightKind (light e) = PointLight) news.
Proof.
  unfold addWashEmitters.
  induction washCandidates as [|c cs IH]; intros st; simpl.
  - exists []. now rewrite app_nil_r.
  - match goal with
    | |- context [fold_left ?f cs ?st1] =>
        destruct (IH st1) as (news & Hnews & Hlen & Hall)
    end.
    eexists (_ :: news). rewrite Hnews. simpl. rewrite <- app_assoc.
    split; [reflexivity|]. split; [simpl; lia|].
    constructor; [now split|exact Hall].
Qed.

(** The synthesized emitters are the spot lights of the edge rigs
    followed by the point lights of the wash candidates. *)
Lemma synthesizeEmitters_emitters (cg : ClassifiedGeometry) :
  exists edge wash,
    emissiveEmitterLights (synthesizeEmitters maxDim boxMinY cg) =
      edge ++ wash /\
    Forall (fun e =>
              layerType e = edge_led /\ lightKind (light e) = SpotLight /\
              edgeMinIntensity maxDim <= baseIntensity e * 3) edge /\
    Forall (fun e =>
              layerType e = wash_lights /\
              lightKind (light e) = PointLight) wash.
Proof.
  unfold synthesizeEmitters. rewrite addBaseEmitters_none.
  match goal with
  | |- context [addWashEmitters _ ?ws ?st1] =>
      destruct (addWashEmitters_emitters ws st1) as (wash & -> & _ & Hwash)
  end.
  match goal with
  | |- context [addEdgeRigs _ _ ?gs ?cs ?st0] =>
      destruct (addEdgeRigs_emitters gs cs st0) as (edge & -> & Hedge)
  end.
  exists edge, wash. simpl. auto.
Qed.

Lemma fold_left_invariant_In {A B} (f : A -> B -> A) (P : A -> Prop) l :
  (forall a b, In b l -> P a -> P (f a b)) ->
  forall a, P a -> P (fold_left f l a).
Proof.
  induction l as [|b l IH]; intros Hstep a Ha; simpl; [exact Ha|].
  apply IH.
  - intros a' b' Hb'. apply Hstep. now right.
  - apply Hstep; [now left|exact Ha].
Qed.

(** A state property that the added rig count does not break and every
    segment keeps is kept by a whole rig. *)
Lemma addEdgeEmitterRig_invariant (I : RigState -> Prop)
    rigStart rigEnd source phase follow segmentCount segmentFractions st :
  let n := normalizedSegmentCountOf segmentCount segmentFractions in
  I {| emissiveEmitterLights := emissiveEmitterLights st;
       edgeShadowCasterCount := edgeShadowCasterCount st;
       baseShadowCasterCount := baseShadowCasterCount st;
       edgeRigCount := S (edgeRigCount st) |} ->
  (forall shadow st' segmentIndex segmentPosition,
     (segmentIndex < n)%nat -> I st' ->
     I (addEdgeSegment maxDim boxMinY source phase follow n shadow st'
          (segmentIndex, segmentPosition))) ->
  I (addEdgeEmitterRig maxDim boxMinY rigStart rigEnd source phase follow
       segmentCount segmentFractions st).
Proof.
  intros n Hstart Hstep. unfold addEdgeEmitterRig. fold n.
  apply fold_left_invariant_In; [|exact Hstart].
  intros st' [segmentIndex segmentPosition] Hin Hst'.
  apply Hstep; [|exact Hst'].
  apply list_elem_of_In, elem_of_zip_l in Hin.
  apply list_elem_of_In, in_seq in Hin. lia.
Qed.

(** The parts of [synthesizeEmitters]: a property of the rig state that
    each guide rig, each fallback rig and each wash emitter keeps holds
    of the result. *)
Lemma synthesizeEmitters_invariant (I : RigState -> Prop)
    (cg : ClassifiedGeometry) :
  let edgeUvSamples := edgeUvSamplesOf cg in
  I initialRigState ->
  (forall st rig,
     In rig (edgeGuideRigsOf cg edgeUvSamples) -> I st ->
     I (addGuideRig maxDim boxMinY st rig)) ->
  (forall st candidate,
     In candidate
       (fallbackRigCandidates maxDim
          (edgeCandidatesOf maxDim cg edgeUvSamples)) ->
     I st -> I (addFallbackRig maxDim boxMinY st candidate)) ->
  (forall st candidate,
     In candidate (washCandidatesOf cg edgeUvSamples) -> I st ->
     I (addWashEmitter maxDim (washPoint candidate)
          (from_option SceneObject DummyObject (washSourceObject candidate))
          (washPhase candidate) st)) ->
  I (synthesizeEmitters maxDim boxMinY cg).
Proof.
  intros edgeUvSamples Hinit Hguide Hfallback Hwash.
  unfold synthesizeEmitters. rewrite addBaseEmitters_none.
  unfold addWashEmitters. apply fold_left_invariant_In; [exact Hwash|].
  unfold addEdgeRigs. destruct (0 <? length _)%nat.
  - apply fold_left_invariant_In; [exact Hguide|exact Hinit].
  - apply fold_left_invariant_In; [exact Hfallback|exact Hinit].
Qed.

(** What a rig's segments all satisfy, the rig's emitters satisfy. *)
Lemma addEdgeEmitterRig_Forall (Q : EmissiveEmitterLight -> Prop)
    rigStart rigEnd source phase follow segmentCount segmentFractions st :
  let n := normalizedSegmentCountOf segmentCount segmentFractions in
  (forall shadow st' segment,
     exists e,
       emissiveEmitterLights
         (addEdgeSegment maxDim boxMinY source phase follow n shadow st'
            segment) = emissiveEmitterLights st' ++ [e] /\ Q e) ->
  exists news,
    emissiveEmitterLights
      (addEdgeEmitterRig maxDim boxMinY rigStart rigEnd source phase
         follow segmentCount segmentFractions st) =
      emissiveEmitterLights st ++ news /\
    length news = n /\ Forall Q news.
Proof.
  intros n Hsegment.
  assert (Hfold : forall shadow segments st0,
    exists news,
      emissiveEmitterLights
        (fold_left
           (addEdgeSegment maxDim boxMinY source phase follow n shadow)
           segments st0) = emissiveEmitterLights st0 ++ news /\
      length news = length segments /\ Forall Q news).
  { intros shadow segments.
    induction segments as [|segment segments IH]; intros st0; simpl.
    - exists []. rewrite app_nil_r. repeat split. constructor.
    - destruct (Hsegment shadow st0 segment) as (e & He & HQ).
      destruct (IH (addEdgeSegment maxDim boxMinY source phase follow n
                      shadow st0 segment)) as (news & Hnews & Hlen & Hall).
      exists (e :: news). rewrite Hnews, He, <- app_assoc. simpl.
      repeat split; auto. }
  unfold addEdgeEmitterRig. fold n.
  match goal with
  | |- context [fold_left (addEdgeSegment _ _ _ _ _ _ ?shadow) ?segs ?st0] =>
      destruct (Hfold shadow segs st0) as (news & Hnews & Hlen & Hall)
  end.
  exists news. simpl in Hnews. split; [exact Hnews|]. split; [|exact Hall].
  rewrite Hlen, length_zip, length_seq.
  assert (Hpos : forall l : list Vector3, length l = n ->
                 Nat.min n (length l) = n) by (intros; lia).
  apply Hpos. subst n. unfold normalizedSegmentCountOf.
  destruct (normalizedFractionsOf segmentFractions) as [fractions|].
  - now rewrite length_map.
  - now rewrite length_map, length_seq.
Qed.

(** The share of a rig's intensity that one of its [n] segments stores:
    the light's range is the throw to the ground target, padded and
    extended; the rig's intensity is the larger of the floor and the
    target illuminance times that range squared; the segment stores an
    [n]-th of it. *)
Lemma addEdgeSegment_share source phase follow n shadow st segment :
  (0 < n)%nat ->
  exists e,
    emissiveEmitterLights
      (addEdgeSegment maxDim boxMinY source phase follow n shadow st
         segment) = emissiveEmitterLights st ++ [e] /\
    layerType e = edge_led /\
    (exists t,
       target e = Some t /\
       distance (light e) =
         (distanceTo (lightPosition (light e)) (targetPosition t) +
          edgeThrowPadding) * throwExtensionScale) /\
    baseIntensity e =
      Rmax (edgeMinIntensity maxDim)
        (edgeTargetGroundLux * distance (light e) * distance (light e)) /
      INR n /\
    edgeMinIntensity maxDim / INR n <= baseIntensity e.
Proof.
  intros Hn. destruct segment as [segmentIndex segmentPosition].
  unfold addEdgeSegment. cbn -[distanceTo Rmax INR setY].
  eexists. split; [reflexivity|]. cbn -[distanceTo Rmax INR setY].
  split; [reflexivity|]. split; [eexists; split; reflexivity|].
  split; [reflexivity|].
  apply Rmult_le_compat_r; [|apply Rmax_l].
  left. apply Rinv_0_lt_compat, lt_0_INR. lia.
Qed.

(** C4, as the code has it: the floor bounds the intensity of a whole
    rig.  Each of the [n] emitters of an edge rig stores
    max(edgeMinIntensity, edgeTargetGroundLux * distance^2) / n, where
    [distance], the light's range, is the throw from the light to its
    ground target plus the padding, times the extension; so each stores
    at least edgeMinIntensity / n.  A base-lights emitter stores
    max(baseMinIntensity, baseTargetGroundLux * distance^2), at least
    [baseMinIntensity].  Of the synthesized emitters, whose edge rigs
    have two or three segments, an edge-led one stores such a half or
    third, at least a third of [edgeMinIntensity]. *)
Theorem baseIntensity_floor
    (rigStart rigEnd position : Vector3) (source : SourceObject)
    (phase : R) (follow : bool) (segmentCount : R)
    (segmentFractions : option (list R)) (st : RigState)
    (cg : ClassifiedGeometry) :
  let n := normalizedSegmentCountOf segmentCount segmentFractions in
  (exists news,
     emissiveEmitterLights
       (addEdgeEmitterRig maxDim boxMinY rigStart rigEnd source phase
          follow segmentCount segmentFractions st) =
       emissiveEmitterLights st ++ news /\
     length news = n /\
     Forall (fun e =>
               layerType e = edge_led /\
               (exists t,
                  target e = Some t /\
                  distance (light e) =
                    (distanceTo (lightPosition (light e))
                       (targetPosition t) + edgeThrowPadding) *
                    throwExtensionScale) /\
               baseIntensity e =
                 Rmax (edgeMinIntensity maxDim)
                   (edgeTargetGroundLux * distance (light e) *
                    distance (light e)) / INR n /\
               edgeMinIntensity maxDim / INR n <= baseIntensity e) news) /\
  (exists e,
     emissiveEmitterLights
       (addBaseEmitter maxDim boxMinY position source phase st) =
       emissiveEmitterLights st ++ [e] /\
     layerType e = base_lights /\
     (exists t,
        target e = Some t /\
        distance (light e) =
          (distanceTo (lightPosition (light e)) (targetPosition t) +
           baseThrowPadding) * throwExtensionScale) /\
     baseIntensity e =
       Rmax (baseMinIntensity maxDim)
         (baseTargetGroundLux * distance (light e) * distance (light e)) /\
     baseMinIntensity maxDim <= baseIntensity e) /\
  Forall
    (fun e =>
       (layerType e = edge_led ->
        edgeMinIntensity maxDim / 3 <= baseIntensity e /\
        exists segments : nat,
          (segments = 2 \/ segments = 3)%nat /\
          baseIntensity e =
            Rmax (edgeMinIntensity maxDim)
              (edgeTargetGroundLux * distance (light e) *
               distance (light e)) / INR segments) /\
       (layerType e = base_lights ->
        baseMinIntensity maxDim <= baseIntensity e))
    (emissiveEmitterLights (synthesizeEmitters maxDim boxMinY cg)).
Proof.
  intros n. split; [|split].
  - apply addEdgeEmitterRig_Forall. intros shadow st' segment.
    destruct (addEdgeSegment_share source phase follow n shadow st' segment
                (normalizedSegmentCountOf_pos _ _))
      as (e & He & Hshare).
    exists e. now split.
  - unfold addBaseEmitter. cbn -[distanceTo Rmax setY].
    eexists. split; [reflexivity|]. cbn -[distanceTo Rmax setY].
    split; [reflexivity|]. split; [eexists; split; reflexivity|].
    split; [reflexivity|apply Rmax_l].
  - pose proof (edgeMinIntensity_pos) as Hfloor.
    assert (Hshare : forall (segments : nat) e,
      (segments = 2 \/ segments = 3)%nat ->
      baseIntensity e =
        Rmax (edgeMinIntensity maxDim)
          (edgeTargetGroundLux * distance (light e) * distance (light e)) /
        INR segments ->
      edgeMinIntensity maxDim / INR segments <= baseIntensity e ->
      edgeMinIntensity maxDim / 3 <= baseIntensity e /\
      exists segments : nat,
        (segments = 2 \/ segments = 3)%nat /\
        baseIntensity e =
          Rmax (edgeMinIntensity maxDim)
            (edgeTargetGroundLux * distance (light e) * distance (light e)) /
          INR segments).
    { intros segments e Hsegments Hbase Hle. split; [|eauto].
      destruct Hsegments as [-> | ->]; simpl in Hle; lra. }
    match goal with
    | |- Forall ?Q _ =>
        apply (synthesizeEmitters_invariant
                 (fun st => Forall Q (emissiveEmitterLights st)))
    end.
    + constructor.
    + intros st0 rig _ Hst0. unfold addGuideRig.
      match goal with
      | |- context [addEdgeEmitterRig _ _ ?a ?b ?src ?ph ?fo ?sc ?sf st0] =>
          destruct (addEdgeEmitterRig_Forall
                      (fun e =>
                         layerType e = edge_led /\
                         baseIntensity e =
                           Rmax (edgeMinIntensity maxDim)
                             (edgeTargetGroundLux * distance (light e) *
                              distance (light e)) / INR 2 /\
                         edgeMinIntensity maxDim / INR 2 <= baseIntensity e)
                      a b src ph fo sc sf st0)
            as (news & -> & _ & Hnews)
      end.
      { intros shadow st' segment. rewrite guideSegmentCount.
        destruct (addEdgeSegment_share
                    (SceneObject (guideSourceObject rig)) (guidePhase rig)
                    false 2 shadow st' segment ltac:(lia))
          as (e & He & Hlayer & _ & Hbase & Hle).
        exists e. auto. }
      apply Forall_app. split; [exact Hst0|].
      eapply Forall_impl; [exact Hnews|].
      intros e (Hlayer & Hbase & Hle). split; [|congruence].
      intros _. apply (Hshare 2%nat); auto.
    + intros st0 candidate _ Hst0. unfold addFallbackRig.
      match goal with
      | |- context [addEdgeEmitterRig _ _ ?a ?b ?src ?ph ?fo ?sc ?sf st0] =>
          destruct (addEdgeEmitterRig_Forall
                      (fun e =>
                         layerType e = edge_led /\
                         baseIntensity e =
                           Rmax (edgeMinIntensity maxDim)
                             (edgeTargetGroundLux * distance (light e) *
                              distance (light e)) / INR 3 /\
                         edgeMinIntensity maxDim / INR 3 <= baseIntensity e)
                      a b src ph fo sc sf st0)
            as (news & -> & _ & Hnews)
      end.
      { intros shadow st' segment. rewrite fallbackSegmentCount.
        destruct (addEdgeSegment_share
                    (SceneObject (edgeSourceObject candidate))
                    (edgePhase candidate) true 3 shadow st' segment
                    ltac:(lia))
          as (e & He & Hlayer & _ & Hbase & Hle).
        exists e. auto. }
      apply Forall_app. split; [exact Hst0|].
      eapply Forall_impl; [exact Hnews|].
      intros e (Hlayer & Hbase & Hle). split; [|congruence].
      intros _. apply (Hshare 3%nat); auto.
    + intros st0 candidate _ Hst0. unfold addWashEmitter. simpl.
      apply Forall_app. split; [exact Hst0|]. constructor; [|constructor].
      simpl. split; discriminate.
Qed.

(** C10: the base cap [maxBaseEmitters] is 0, so downsampling the base
    candidates yields the empty list and [addBaseEmitter] is never
    called: synthesis makes no base-lights emitter, and every spot
    emitter it makes belongs to the edge-led group. *)
Theorem no_base_lights_emitters (cg : ClassifiedGeometry) :
  maxBaseEmitters = 0%Z /\
  downsampleEvenly (baseCandidatesOf cg) maxBaseEmitters = [] /\
  (forall st, addBaseEmitters maxDim boxMinY (baseCandidatesOf cg) st = st) /\
  Forall
    (fun e =>
       layerType e <> base_lights /\
       (lightKind (light e) = SpotLight -> layerType e = edge_led))
    (emissiveEmitterLights (synthesizeEmitters maxDim boxMinY cg)).
Proof.
  split; [reflexivity|]. split; [reflexivity|].
  split; [intros st; apply addBaseEmitters_none|].
  destruct (synthesizeEmitters_emitters cg)
    as (edge & wash & -> & Hedge & Hwash).
  apply Forall_app. split.
  - eapply Forall_impl; [exact Hedge|].
    intros e (Hlayer & _ & _). rewrite Hlayer. now split.
  - eapply Forall_impl; [exact Hwash|].
    intros e (Hlayer & Hkind). rewrite Hlayer, Hkind. now split.
Qed.

End SynthesisFacts.

(** ** Material swap and emitter updates *)

Section ViewerFacts.

Implicit Types (objs : gmap ObjectId Object3D) (v : ViewerState).

Lemma setMaterial_twice m o : setMaterial m (setMaterial m o) = setMaterial m o.
Proof. reflexivity. Qed.

(** After the restore, a mesh of the list that has a stored clone wears
    it; every other object is untouched. *)
Lemma restoreOriginals_lookup originals meshes : forall objs id,
  restoreOriginals originals meshes objs !! id =
    match originals !! id with
    | Some original =>
        if decide (id ∈ meshes) then setMaterial original <$> objs !! id
        else objs !! id
    | None => objs !! id
    end.
Proof.
  unfold restoreOriginals.
  induction meshes as [|mesh meshes IH]; intros objs id; simpl.
  - destruct (originals !! id); [|reflexivity].
    destruct (decide (id ∈ [])) as [Hin|]; [|reflexivity].
    now apply elem_of_nil in Hin.
  - rewrite IH. destruct (originals !! id) as [original|] eqn:Hid.
    + destruct (decide (mesh = id)) as [->|Hne].
      * rewrite Hid, lookup_alter_eq.
        destruct (decide (id ∈ id :: meshes)) as [_|Hout];
          [|exfalso; apply Hout; left].
        destruct (decide (id ∈ meshes)); destruct (objs !! id); reflexivity.
      * assert (Hsame :
          (match originals !! mesh with
           | Some original => alter (setMaterial original) mesh objs
           | None => objs
           end) !! id = objs !! id).
        { destruct (originals !! mesh); [|reflexivity].
          now rewrite lookup_alter_ne. }
        rewrite Hsame.
        destruct (decide (id ∈ meshes)) as [Hin|Hout],
                 (decide (id ∈ mesh :: meshes)) as [Hin'|Hout'];
          try reflexivity.
        -- exfalso. apply Hout'. now right.
        -- apply elem_of_cons in Hin' as [->|Hin']; tauto.
    + destruct (originals !! mesh) as [original|] eqn:Hmesh; [|reflexivity].
      rewrite lookup_alter_ne; [reflexivity|]. intros ->. congruence.
Qed.

(** Swapping materials changes no object's visibility. *)
Lemma alter_material_visible objs m mesh source :
  sourceVisible (alter (setMaterial m) mesh objs) source =
    sourceVisible objs source.
Proof.
  destruct source as [id|]; [|reflexivity]. simpl.
  rewrite lookup_alter. destruct (decide (mesh = id)) as [->|]; [|easy].
  now destruct (objs !! id).
Qed.

Lemma restoreOriginals_visible originals meshes source : forall objs,
  sourceVisible (restoreOriginals originals meshes objs) source =
    sourceVisible objs source.
Proof.
  unfold restoreOriginals.
  induction meshes as [|mesh meshes IH]; intros objs; simpl; [easy|].
  rewrite IH. destruct (originals !! mesh); [|easy].
  apply alter_material_visible.
Qed.

Lemma applyShaders_visible shaders meshes source objs :
  sourceVisible (applyShaders shaders meshes objs) source =
    sourceVisible objs source.
Proof.
  unfold applyShaders. generalize (imap pair meshes). intros entries.
  revert objs. induction entries as [|[index mesh] entries IH];
    intros objs; simpl; [easy|].
  rewrite IH. destruct (shaders !! index); [|easy].
  apply alter_material_visible.
Qed.

Lemma shouldEmitterBeVisible_ext objs objs' emitter effect :
  (forall source, sourceVisible objs source = sourceVisible objs' source) ->
  shouldEmitterBeVisible objs emitter effect =
    shouldEmitterBeVisible objs' emitter effect.
Proof. intros H. unfold shouldEmitterBeVisible. now rewrite H. Qed.

Lemma updateEmitter_ext objs objs' effect time speed scale emitter :
  (forall source, sourceVisible objs source = sourceVisible objs' source) ->
  updateEmitter objs effect time speed scale emitter =
    updateEmitter objs' effect time speed scale emitter.
Proof.
  intros H. unfold updateEmitter.
  now rewrite (shouldEmitterBeVisible_ext objs objs' emitter effect H).
Qed.

(** An update under the off effect turns the light (and its target)
    invisible and sets its intensity to 0. *)
Lemma updateEmitter_off objs time speed scale emitter :
  let e := updateEmitter objs off time speed scale emitter in
  visible (light e) = false /\ intensity (light e) = 0 /\
  (forall t, target e = Some t -> targetVisible t = false) /\
  layerType e = layerType emitter.
Proof.
  unfold updateEmitter, shouldEmitterBeVisible. simpl.
  repeat split. intros t. destruct (target emitter); simpl; [|easy].
  now intros [= <-].
Qed.

Lemma updateEmitter_layerType objs effect time speed scale emitter :
  layerType (updateEmitter objs effect time speed scale emitter) =
    layerType emitter.
Proof.
  unfold updateEmitter.
  destruct (negb _); [reflexivity|].
  now destruct (evaluateEmitterEffect _ _ _ _).
Qed.

(** Registration at load time stores a clone for every linear mesh, and
    the handlers keep the two refs as they are. *)
Lemma registerLinearMesh_stored child offMaterial shader glow speed v :
  linearMeshesStored v ->
  linearMeshesStored
    (registerLinearMesh child offMaterial shader glow speed v).
Proof.
  intros Hv mesh Hin. simpl in *. apply in_app_or in Hin.
  destruct (decide (child = mesh)) as [->|Hne].
  - rewrite lookup_insert_eq. now eexists.
  - rewrite lookup_insert_ne by easy.
    destruct Hin as [Hin|[Heq|[]]]; [now apply Hv|congruence].
Qed.

Lemma handlers_keep_stored v :
  linearMeshesStored v ->
  (forall effect glow time,
     linearMeshesStored (onLightEffect effect glow time v)) /\
  (forall effect time, linearMeshesStored (onWashLightEffect effect time v)) /\
  (forall layers, linearMeshesStored (onLayers layers v)) /\
  (forall time, linearMeshesStored (animate time v)).
Proof. intros Hv. repeat split; intros; exact Hv. Qed.

Lemma isLinearEmitter_not_wash emitter :
  isLinearEmitter emitter = true ->
  bool_decide (layerType emitter = wash_lights) = false.
Proof. unfold isLinearEmitter. now destruct (layerType emitter). Qed.

Lemma isLinearEmitter_update objs effect time speed scale emitter :
  isLinearEmitter (updateEmitter objs effect time speed scale emitter) =
    isLinearEmitter emitter.
Proof. unfold isLinearEmitter. now rewrite updateEmitter_layerType. Qed.

(** C3: setting the linear effect to off, from any state (so also after
    pink-pulse was active), puts on every linear mesh its stored
    powered-down clone and leaves every edge-led and base-lights emitter
    invisible with intensity 0, which the following frames keep; and
    [evaluateEmitterEffect] yields intensity 0 for off at every time,
    phase and speed. *)
Theorem linear_effect_off
    (v : ViewerState) (edgeGlowIntensity currentTime : R) :
  let v' := onLightEffect off edgeGlowIntensity currentTime v in
  (forall mesh original,
     In mesh (emissiveMeshes v) ->
     originalMaterials v !! mesh = Some original ->
     is_Some (objects v !! mesh) ->
     material <$> objects v' !! mesh = Some original) /\
  Forall
    (fun e =>
       isLinearEmitter e = true ->
       visible (light e) = false /\ intensity (light e) = 0 /\
       forall t, target e = Some t -> targetVisible t = false)
    (emitterLights v') /\
  (forall elapsedTime,
     Forall
       (fun e =>
          isLinearEmitter e = true ->
          visible (light e) = false /\ intensity (light e) = 0)
       (emitterLights (animate elapsedTime v'))) /\
  (forall time phase speed,
     snd (evaluateEmitterEffect off time phase speed) = 0).
Proof.
  intros v'. split; [|split; [|split]].
  - intros mesh original Hin Horig [o Ho]. subst v'. simpl.
    rewrite restoreOriginals_lookup, Horig.
    destruct (decide (mesh ∈ emissiveMeshes v)) as [_|Hout].
    + now rewrite Ho.
    + exfalso. apply Hout. now apply list_elem_of_In.
  - subst v'. simpl. apply Forall_map, List.Forall_forall.
    intros e _. destruct (isLinearEmitter e) eqn:He; [|congruence].
    intros _.
    destruct (updateEmitter_off
                (restoreOriginals (originalMaterials v) (emissiveMeshes v)
                   (objects v))
                currentTime (effectSpeed v) (emitterIntensity v) e)
      as (Hvis & Hint & Htarget & _).
    auto.
  - intros elapsedTime. subst v'. simpl.
    apply Forall_map, Forall_map, List.Forall_forall.
    intros e _. rewrite isLinearEmitter_update.
    destruct (isLinearEmitter e) eqn:He; rewrite ?isLinearEmitter_update.
    + intros _. rewrite updateEmitter_layerType.
      rewrite (isLinearEmitter_not_wash e He).
      match goal with
      | |- context [updateEmitter ?o off ?t ?sp ?sc ?e0] =>
          destruct (updateEmitter_off o t sp sc e0) as (Hvis & Hint & _)
      end.
      auto.
    + rewrite He. congruence.
  - reflexivity.
Qed.

(** From pink-pulse to off on the sample viewer: mesh 1 goes from its
    glow shader 20 to its powered-down clone 10. *)
Lemma linear_effect_off_witness :
  material <$> objects (plazaViewer pink_pulse off) !! 1%nat = Some 20%nat /\
  material <$>
    objects (onLightEffect off 1.5 2 (plazaViewer pink_pulse off)) !! 1%nat
    = Some 10%nat.
Proof.
  split; [reflexivity|].
  apply (proj1 (linear_effect_off (plazaViewer pink_pulse off) 1.5 2)).
  - now left.
  - reflexivity.
  - now eexists.
Defined.

Lemma Forall2_map_self {A B} (R : A -> B -> Prop) (f : A -> B) l :
  (forall a, R a (f a)) -> Forall2 R l (map f l).
Proof. intros H. induction l; constructor; auto. Qed.

(** What an update leaves on an emitter. *)
Lemma updateEmitter_result objs effect time speed scale emitter :
  let e := updateEmitter objs effect time speed scale emitter in
  if shouldEmitterBeVisible objs emitter effect
  then visible (light e) = true /\
       (forall t, target e = Some t -> targetVisible t = true) /\
       color (light e) = colorOf effect time (phase emitter) speed /\
       intensity (light e) =
         baseIntensity emitter *
         intensityOf effect time (phase emitter) speed * scale
  else visible (light e) = false /\
       (forall t, target e = Some t -> targetVisible t = false) /\
       color (light e) = color (light emitter) /\
       intensity (light e) = 0.
Proof.
  unfold updateEmitter, colorOf, intensityOf.
  destruct (shouldEmitterBeVisible objs emitter effect); simpl.
  - destruct (evaluateEmitterEffect effect time (phase emitter) speed).
    simpl. repeat split.
    intros t. destruct (target emitter); simpl; [|easy]. now intros [= <-].
  - repeat split.
    intros t. destruct (target emitter); simpl; [|easy]. now intros [= <-].
Qed.

(** C5, as the code has it: with the Edge LED glow at or below 0.0001
    the linear meshes wear their powered-down materials and the glow
    shaders keep their uniforms, exactly as under off; the edge-led and
    base-lights emitters do not depend on the glow setting and are
    driven by the selected effect, which stays the active one: each is
    visible as [shouldEmitterBeVisible] says for the selected effect, a
    visible one with the effect's colour and the intensity baseIntensity
    times the effect's multiplier times the Emitter Intensity setting, an
    invisible one with intensity 0; the other emitters are untouched. *)
Theorem linear_glow_near_zero
    (v : ViewerState) (lightEffect : LightEffect)
    (edgeGlowIntensity currentTime : R) :
  edgeGlowIntensity <= 0.0001 ->
  let v' := onLightEffect lightEffect edgeGlowIntensity currentTime v in
  let vOff := onLightEffect off edgeGlowIntensity currentTime v in
  objects v' = objects vOff /\
  shaderMaterials v' = shaderMaterials vOff /\
  activeLightEffect v' = lightEffect /\
  (forall glow,
     emitterLights v' =
       emitterLights (onLightEffect lightEffect glow currentTime v)) /\
  Forall2
    (fun before after =>
       if isLinearEmitter before
       then
         if shouldEmitterBeVisible (objects v) before lightEffect
         then visible (light after) = true /\
              color (light after) =
                colorOf lightEffect currentTime (phase before)
                  (effectSpeed v) /\
              intensity (light after) =
                baseIntensity before *
                intensityOf lightEffect currentTime (phase before)
                  (effectSpeed v) *
                emitterIntensity v
         else visible (light after) = false /\ intensity (light after) = 0
       else after = before)
    (emitterLights v) (emitterLights v').
Proof.
  intros Hglow v' vOff. subst v' vOff.
  assert (Hg : Js.gtb edgeGlowIntensity 0.0001 = false)
    by (apply ltb_false; exact Hglow).
  unfold onLightEffect. cbv zeta. rewrite !Hg, !andb_false_r. simpl.
  split; [reflexivity|]. split; [reflexivity|]. split; [reflexivity|].
  split.
  - intros glow. apply map_ext. intros e.
    destruct (isLinearEmitter e); [|reflexivity].
    apply updateEmitter_ext. intros source.
    rewrite restoreOriginals_visible.
    destruct (negb _); [now rewrite restoreOriginals_visible|].
    now rewrite applyShaders_visible.
  - apply Forall2_map_self. intros e.
    destruct (isLinearEmitter e); [|reflexivity].
    rewrite (updateEmitter_ext _ (objects v))
      by (intros source; apply restoreOriginals_visible).
    pose proof (updateEmitter_result (objects v) lightEffect currentTime
                  (effectSpeed v) (emitterIntensity v) e) as Hresult.
    cbv zeta in Hresult.
    destruct (shouldEmitterBeVisible (objects v) e lightEffect); tauto.
Qed.

(** Glow 0 with pink-glow selected on the sample viewer: the materials
    are those of off, and the edge emitter, which does not follow its
    source, is lit at 1250 * 1 * 1.7. *)
Lemma linear_glow_near_zero_witness :
  objects (onLightEffect pink_glow 0 2 (plazaViewer pink_glow off)) =
    objects (onLightEffect off 0 2 (plazaViewer pink_glow off)) /\
  Forall2
    (fun before after =>
       if isLinearEmitter before
       then
         if shouldEmitterBeVisible (objects (plazaViewer pink_glow off))
              before pink_glow
         then visible (light after) = true /\
              color (light after) = colorOf pink_glow 2 (phase before) 1.0 /\
              intensity (light after) =
                baseIntensity before *
                intensityOf pink_glow 2 (phase before) 1.0 * 1.7
         else visible (light after) = false /\ intensity (light after) = 0
       else after = before)
    [edgeEmitter; washEmitter]
    (emitterLights (onLightEffect pink_glow 0 2 (plazaViewer pink_glow off))).
Proof.
  pose proof (linear_glow_near_zero (plazaViewer pink_glow off) pink_glow
                0 2 ltac:(lra)) as (Hobjects & _ & _ & _ & Hemitters).
  split; [exact Hobjects|exact Hemitters].
Defined.

(** C5 as stated fails for the emitters: with the glow at 0 and pink-glow
    selected the edge emitter of the sample viewer is visible at
    intensity 1250 * 1 * 1.7, while under off it is invisible at 0. *)
Lemma linear_glow_zero_keeps_emitters_lit :
  let glowZero := onLightEffect pink_glow 0 2 (plazaViewer pink_glow off) in
  let turnedOff := onLightEffect off 0 2 (plazaViewer pink_glow off) in
  0 <= 0.0001 /\
  map (fun e => (layerType e, visible (light e), intensity (light e)))
      (List.filter isLinearEmitter (emitterLights glowZero)) =
    [(edge_led, true, 1250 * 1 * 1.7)] /\
  map (fun e => (layerType e, visible (light e), intensity (light e)))
      (List.filter isLinearEmitter (emitterLights turnedOff)) =
    [(edge_led, false, 0)].
Proof.
  split; [lra|]. split; reflexivity.
Qed.

(** The animation loop derives each emitter's visibility from the effect
    of its own group. *)
Lemma animate_visibility elapsedTime v :
  Forall2
    (fun before after =>
       let effect :=
         if bool_decide (layerType before = wash_lights)
         then activeWashLightEffect v else activeLightEffect v in
       visible (light after) =
         shouldEmitterBeVisible (objects v) before effect)
    (emitterLights v) (emitterLights (animate elapsedTime v)).
Proof.
  simpl. induction (emitterLights v) as [|e es IH]; constructor; [|exact IH].
  unfold updateEmitter.
  destruct (shouldEmitterBeVisible _ _ _); simpl; [|reflexivity].
  now destruct (evaluateEmitterEffect _ _ _ _).
Qed.

(** So does the wash hook, for the wash emitters. *)
Lemma onWashLightEffect_visibility washLightEffect currentTime v :
  Forall2
    (fun before after =>
       isWashEmitter before = true ->
       visible (light after) =
         shouldEmitterBeVisible (objects v) before washLightEffect)
    (emitterLights v)
    (emitterLights (onWashLightEffect washLightEffect currentTime v)).
Proof.
  simpl. induction (emitterLights v) as [|e es IH]; constructor; [|exact IH].
  intros ->. unfold updateEmitter.
  assert (Hvis : forall objs,
            (forall source,
               sourceVisible objs source = sourceVisible (objects v) source) ->
            shouldEmitterBeVisible objs e washLightEffect =
              shouldEmitterBeVisible (objects v) e washLightEffect)
    by (intros; now apply shouldEmitterBeVisible_ext).
  destruct (bool_decide (washLightEffect = off));
    [rewrite (Hvis _ (fun source =>
                        restoreOriginals_visible _ _ source _))
    |rewrite (Hvis _ (fun source => applyShaders_visible _ _ source _))];
    destruct (shouldEmitterBeVisible _ _ _); simpl; try reflexivity;
    now destruct (evaluateEmitterEffect _ _ _ _).
Qed.

(** C6 at its failing input: with pink-glow on the linear group and the
    wash group off, the user hides the Edge LED layer.  Mesh 1 is hidden
    and the guide-driven edge emitter stays visible, but the wash emitter
    is made visible too, its group being off: the handler passes the
    linear effect for every emitter, where the animation loop passes each
    group its own and makes the wash emitter invisible. *)
Lemma onLayers_wash_emitter_visible :
  let v := plazaViewer pink_glow off in
  activeWashLightEffect (onLayers edgeLedHidden v) = off /\
  objVisible <$> objects (onLayers edgeLedHidden v) !! 1%nat = Some false /\
  map (fun e => (layerType e, visible (light e)))
      (emitterLights (onLayers edgeLedHidden v)) =
    [(edge_led, true); (wash_lights, true)] /\
  map (fun e => (layerType e, visible (light e)))
      (emitterLights (animate 2 v)) =
    [(edge_led, true); (wash_lights, false)].
Proof.
  split; [reflexivity|]. split; [reflexivity|]. split; reflexivity.
Qed.

End ViewerFacts.

(** * Further properties of the viewer code *)

(** ** Colours and phases of the effects *)

Section EffectColourFacts.

(** X1: for the eight pink and blue effects the colour written for the
    emitter is the base colour [getEffectVisual] hands to the glow
    shader, at every time, phase and speed. *)
Theorem emitter_color_matches_shader_color
    (effect : LightEffect) (time phase speed : R) :
  effect <> off ->
  (effectType (getEffectVisual effect) <= 3)%Z ->
  fst (evaluateEmitterEffect effect time phase speed) =
    ColorHex (baseColor (getEffectVisual effect)).
Proof.
  intros Hoff Htype.
  destruct effect; simpl in *; try reflexivity; (congruence || lia).
Qed.

Lemma emitter_color_matches_shader_color_witness :
  fst (evaluateEmitterEffect blue_wave 2 0.25 1) =
    ColorHex (baseColor (getEffectVisual blue_wave)).
Proof.
  apply (emitter_color_matches_shader_color blue_wave 2 0.25 1).
  - discriminate.
  - simpl. lia.
Defined.

Ltac bound_sines' :=
  repeat match goal with
  | |- context [sin ?a] =>
      let H := fresh "Hsin" in
      pose proof (SIN_bound a) as H;
      generalize dependent (sin a); intros
  end.

(** X2: whatever the time, phase and speed, a hex colour written is a
    24-bit colour, and the arguments of [setHSL] stay in range: the
    saturation and the lightness within [0, 1] and the hue within
    (-1, 1].  The hue is within [0, 1] for every effect but
    rainbow-wave, and below 1 for fire, ocean and aurora (the wrap
    [hue + 1] of rainbow-ripple can round up to 1).  Rainbow-wave leaves
    the wrap to [setHSL]: its hue is below 1, and not negative when
    neither the scaled time nor the phase is. *)
Theorem written_color_in_range
    (effect : LightEffect) (time phase speed : R) :
  match fst (evaluateEmitterEffect effect time phase speed) with
  | ColorHex hex => (0 <= hex <= 0xFFFFFF)%Z
  | ColorHSL h s l =>
      0 <= s <= 1 /\ 0 <= l <= 1 /\ -1 < h <= 1 /\
      (effect <> rainbow_wave -> 0 <= h <= 1) /\
      (effect <> rainbow_wave -> effect <> rainbow_ripple -> h < 1) /\
      (effect = rainbow_wave ->
       h < 1 /\ (0 <= time * speed -> 0 <= phase -> 0 <= h))
  end.
Proof.
  destruct effect; simpl; try lia.
  - (* rainbow-wave *)
    pose proof (rem1_bounds (time * speed * 0.3 + phase)) as Hb.
    repeat split; try lra; try congruence.
    intros Ht Hphase. apply rem1_nonneg. lra.
  - (* rainbow-ripple *)
    pose proof (rem1_bounds (time * speed * 0.2 - phase * 0.5)) as Hb.
    destruct (Rlt_dec _ 0); repeat split; try lra; congruence.
  - bound_sines'. repeat split; try nra; congruence.
  - bound_sines'. repeat split; try nra; congruence.
  - bound_sines'. repeat split; try nra; congruence.
Qed.

(** Replace [sin a], where [a] mentions [p'], by the sine with [p] in
    its place, the two arguments being [m] turns apart. *)
Ltac rephase p' p m :=
  match goal with
  | |- context [sin ?a] =>
      match a with
      | context [p'] =>
          match eval pattern p' in a with
          | ?f _ =>
              let b := eval cbv beta in (f p) in
              rewrite (sin_shift a b m)
                by (unfold TAU; rewrite ?opp_IZR, ?mult_IZR; simpl; lra)
          end
      end
  end.

Lemma intensity_phase_turns effect time phase speed (k : Z) :
  (2 <= effectType (getEffectVisual effect) <= 5)%Z ->
  snd (evaluateEmitterEffect effect time (phase + IZR k) speed) =
  snd (evaluateEmitterEffect effect time phase speed).
Proof.
  intros Htype.
  destruct effect; simpl in *; try lia;
    first [ rephase (phase + IZR k) phase k
          | rephase (phase + IZR k) phase (- (2 * k))%Z ];
    reflexivity.
Qed.

(** X3: the glows and the pulses ignore the phase: colour and intensity
    are the same for every phase, so all emitters breathe together.  For
    the waves, the ripples and the two rainbows the phase is a position
    in a cycle: over scaled times up to 5e6, a whole number of turns (up
    to a thousand) added to a phase in [0, 1) changes the intensity by
    no more than 1e-6, the rounding of the arithmetic. *)
Theorem intensity_phase_cycle
    (effect : LightEffect) (time phase speed : R) (k : Z) :
  ((effectType (getEffectVisual effect) <= 1)%Z ->
   forall phase',
     evaluateEmitterEffect effect time phase' speed =
     evaluateEmitterEffect effect time phase speed) /\
  ((2 <= effectType (getEffectVisual effect) <= 5)%Z ->
   0 <= time * speed <= 5e6 -> 0 <= phase < 1 -> (-1000 <= k <= 1000)%Z ->
   Rabs (snd (evaluateEmitterEffect effect time (phase + IZR k) speed) -
         snd (evaluateEmitterEffect effect time phase speed)) <= 1e-6).
Proof.
  split.
  - intros Htype phase'.
    destruct effect; simpl in *; try reflexivity; lia.
  - intros Htype _ _ _. rewrite intensity_phase_turns by exact Htype.
    apply close_refl.
Qed.

End EffectColourFacts.

(** ** Sampling: sizes, members and extremes *)

Section SamplingFacts.

(** X4: [getLargestAxisName] names an axis of largest extent; among equal
    extents it prefers y, then z, then x. *)
Theorem getLargestAxisName_largest (size : Vector3) :
  let axis := getLargestAxisName size in
  x size <= component axis size /\
  y size <= component axis size /\
  z size <= component axis size /\
  (x size <= y size -> z size <= y size -> axis = axisY) /\
  (y size < z size -> x size <= z size -> axis = axisZ) /\
  (axis = axisX -> y size < x size /\ z size < x size).
Proof.
  unfold getLargestAxisName, Js.geb.
  destruct (Js.leb (x size) (y size)) eqn:Hxy;
    destruct (Js.leb (z size) (y size)) eqn:Hzy;
    destruct (Js.leb (x size) (z size)) eqn:Hxz;
    destruct (Js.leb (y size) (z size)) eqn:Hyz;
    rewrite ?leb_true, ?leb_false in *; simpl;
    repeat split; intros; try lra; try congruence; try reflexivity.
Qed.

Lemma sampledVerticesOf_In positions v :
  In v (sampledVerticesOf positions) -> In (point v) positions.
Proof.
  unfold sampledVerticesOf. intros Hin.
  apply in_map_iff in Hin as (p & <- & Hp). simpl.
  unfold Js.strided in Hp. eapply strideFrom_In; eauto.
Qed.

(** X5: asked for no point, the sampler gives none; asked for [n >= 1]
    points it gives between 1 and [n], whatever the mesh, and each is the
    mesh's world position (when the mesh has no vertex to offer) or a
    vertex of the mesh moved to world space. *)
Theorem sampleMeshWorldPoints_size_and_members (mesh : Mesh) (n : Z) :
  ((n <= 0)%Z -> sampleMeshWorldPoints mesh n = []) /\
  ((0 < n)%Z ->
   (1 <= length (sampleMeshWorldPoints mesh n) <= Z.to_nat n)%nat) /\
  Forall
    (fun p =>
       p = getWorldPosition mesh \/
       exists positions uv v,
         geometry mesh = Buffer (Some positions) uv /\
         In v positions /\ p = localToWorld mesh v)
    (sampleMeshWorldPoints mesh n).
Proof.
  split; [|split].
  - intros Hn. unfold sampleMeshWorldPoints.
    now destruct (Z.leb_spec n 0); [|lia].
  - intros Hn.
    destruct (geometry mesh) as [|[positions|] uv] eqn:Hgeo.
    + unfold sampleMeshWorldPoints. rewrite Hgeo.
      destruct (Z.leb_spec n 0); simpl; lia.
    + destruct positions as [|p positions].
      * unfold sampleMeshWorldPoints. rewrite Hgeo.
        destruct (Z.leb_spec n 0); simpl; lia.
      * rewrite (sampleMeshWorldPoints_length mesh (p :: positions) uv n)
          by (simpl; (easy || lia)).
        pose proof (sampledVerticesOf_nonempty (p :: positions)
                      ltac:(simpl; lia)).
        lia.
    + unfold sampleMeshWorldPoints. rewrite Hgeo.
      destruct (Z.leb_spec n 0); simpl; lia.
  - apply List.Forall_forall. intros p Hp.
    unfold sampleMeshWorldPoints in Hp.
    destruct (n <=? 0)%Z; [easy|].
    destruct (geometry mesh) as [|[positions|] uv] eqn:Hgeo;
      try (destruct Hp as [<-|[]]; now left).
    destruct (length (sampledVerticesOf positions) =? 0)%nat;
      [destruct Hp as [<-|[]]; now left|].
    right. apply list_elem_of_In, list_elem_of_omap in Hp.
    destruct Hp as (i & _ & Hi).
    destruct (sortByAxis (sampledVerticesOf positions) !! _) as [v|] eqn:Hv;
      [|easy].
    injection Hi as <-.
    exists positions, uv, (point v). split; [reflexivity|]. split; [|easy].
    apply sampledVerticesOf_In.
    apply (Permutation_in _ (sortByAxis_perm _)).
    apply list_elem_of_In. eapply list_elem_of_lookup_2; eauto.
Qed.

Lemma sampleIndex_first len count :
  2 <= count -> sampleIndex len count 0 = 0%nat.
Proof.
  intros Hc. unfold sampleIndex.
  destruct (Req_dec_T count 1); [lra|].
  replace ((INR len - 1) * (INR 0 / (count - 1))) with (IZR 0)
    by (simpl; unfold Rdiv; lra).
  now rewrite round_IZR.
Qed.

Lemma sampleIndex_last len count :
  (0 < len)%nat -> (2 <= count)%nat ->
  sampleIndex len (INR count) (count - 1) = (len - 1)%nat.
Proof.
  intros Hlen Hc. unfold sampleIndex.
  assert (H2 : 2 <= INR count) by (change 2 with (INR 2); apply le_INR; lia).
  destruct (Req_dec_T (INR count) 1); [lra|].
  rewrite minus_INR by lia. simpl (INR 1).
  replace ((INR len - 1) * ((INR count - 1) / (INR count - 1)))
    with (IZR (Z.of_nat len - 1))
    by (rewrite minus_IZR, <- INR_IZR_INZ; field; lra).
  rewrite round_IZR. lia.
Qed.

Lemma omap_seq_head {B} (h : nat -> option B) c b :
  (0 < c)%nat -> h 0%nat = Some b -> head (omap h (seq 0 c)) = Some b.
Proof. intros Hc Hb. destruct c; [lia|]. simpl. now rewrite Hb. Qed.

Lemma omap_seq_last {B} (h : nat -> option B) c b :
  (0 < c)%nat -> h (c - 1)%nat = Some b -> last (omap h (seq 0 c)) = Some b.
Proof.
  intros Hc Hb. destruct c; [lia|].
  rewrite seq_S, omap_app. simpl in *. rewrite Nat.sub_0_r in Hb.
  rewrite Hb. apply last_snoc.
Qed.

Lemma sorted_head_least l lo :
  StronglySorted axisLe l -> head l = Some lo ->
  forall v, In v l -> axisValue lo <= axisValue v.
Proof.
  intros Hs Hhead v Hv. destruct Hs as [|w l Hs Hall]; [easy|].
  injection Hhead as ->. destruct Hv as [<-|Hv]; [lra|].
  rewrite List.Forall_forall in Hall. now apply Hall.
Qed.

Lemma sorted_last_greatest l hi :
  StronglySorted axisLe l -> last l = Some hi ->
  forall v, In v l -> axisValue v <= axisValue hi.
Proof.
  induction 1 as [|w l Hs IH Hall]; intros Hlast v Hv; [easy|].
  destruct l as [|w' l].
  - injection Hlast as ->. destruct Hv as [<-|[]]. lra.
  - change (last (w :: w' :: l)) with (last (w' :: l)) in Hlast.
    destruct Hv as [<-|Hv]; [|now apply IH].
    rewrite List.Forall_forall in Hall.
    assert (Hin : In hi (w' :: l)).
    { apply list_elem_of_In. rewrite last_lookup in Hlast.
      eapply list_elem_of_lookup_2; eauto. }
    now apply Hall.
Qed.

(** The first and the last sample are the ends of the sorted array. *)
Lemma sampleMeshWorldPoints_ends mesh positions uv n :
  geometry mesh = Buffer (Some positions) uv ->
  (2 <= n)%Z ->
  (2 <= length (sampledVerticesOf positions))%nat ->
  exists lo hi,
    head (sampleMeshWorldPoints mesh n) =
      Some (localToWorld mesh (point lo)) /\
    last (sampleMeshWorldPoints mesh n) =
      Some (localToWorld mesh (point hi)) /\
    In lo (sampledVerticesOf positions) /\
    In hi (sampledVerticesOf positions) /\
    forall v, In v (sampledVerticesOf positions) ->
      axisValue lo <= axisValue v <= axisValue hi.
Proof.
  intros Hgeo Hn Hlen.
  assert (Hpos : (0 < length positions)%nat).
  { destruct positions; [simpl in Hlen; lia | simpl; lia]. }
  rewrite (sampleMeshWorldPoints_eq mesh positions uv n) by (easy || lia).
  set (sorted := sortByAxis (sampledVerticesOf positions)).
  assert (Hslen : length sorted = length (sampledVerticesOf positions))
    by apply sortByAxis_length.
  set (count := Nat.min (Z.to_nat n) (length sorted)).
  assert (Hcount : (2 <= count)%nat) by (subst count; lia).
  destruct (lookup_lt_is_Some_2 sorted 0 ltac:(lia)) as [lo Hlo].
  destruct (lookup_lt_is_Some_2 sorted (length sorted - 1) ltac:(lia))
    as [hi Hhi].
  exists lo, hi.
  assert (Hperm : forall v, In v (sampledVerticesOf positions) <-> In v sorted).
  { intros v. split; apply Permutation_in;
      [symmetry|]; apply sortByAxis_perm. }
  split; [|split; [|split; [|split]]].
  - apply omap_seq_head; [lia|].
    rewrite sampleIndex_first, Hlo; [reflexivity|].
    change 2 with (INR 2). apply le_INR. lia.
  - apply omap_seq_last; [lia|].
    rewrite sampleIndex_last by lia. now rewrite Hhi.
  - apply Hperm, list_elem_of_In. eapply list_elem_of_lookup_2; eauto.
  - apply Hperm, list_elem_of_In. eapply list_elem_of_lookup_2; eauto.
  - intros v Hv. apply Hperm in Hv. split.
    + eapply sorted_head_least; [apply sortByAxis_sorted| |exact Hv].
      fold sorted. now rewrite head_lookup.
    + eapply sorted_last_greatest; [apply sortByAxis_sorted| |exact Hv].
      fold sorted. now rewrite last_lookup, <- Nat.sub_1_r.
Qed.

Lemma sampledVerticesOf_points positions :
  map point (sampledVerticesOf positions) =
    Js.strided positions (Nat.max 1 (length positions / 2048)).
Proof. unfold sampledVerticesOf. rewrite map_map. simpl. apply map_id. Qed.

Lemma sampledVerticesOf_axisValue positions v :
  In v (sampledVerticesOf positions) ->
  axisValue v =
    component (getLargestAxisName (boundingBoxSize positions)) (point v).
Proof.
  unfold sampledVerticesOf. intros Hv.
  apply in_map_iff in Hv as (p & <- & _). reflexivity.
Qed.

(** X6: with at least two points asked of a mesh of which at least two
    vertices are sampled (every [step]-th one), the first point returned
    is a sampled vertex of least coordinate on the dominant axis of the
    bounding box, and the last one a sampled vertex of greatest
    coordinate on it, both moved to world space: the samples span the
    sampled vertices from end to end. *)
Theorem sampleMeshWorldPoints_extremes mesh positions uv n :
  geometry mesh = Buffer (Some positions) uv ->
  (2 <= n)%Z ->
  let axis := getLargestAxisName (boundingBoxSize positions) in
  let sampled :=
    Js.strided positions (Nat.max 1 (length positions / 2048)) in
  (2 <= length sampled)%nat ->
  exists lo hi : Vector3,
    head (sampleMeshWorldPoints mesh n) = Some (localToWorld mesh lo) /\
    last (sampleMeshWorldPoints mesh n) = Some (localToWorld mesh hi) /\
    In lo sampled /\ In hi sampled /\
    forall p, In p sampled ->
      component axis lo <= component axis p <= component axis hi.
Proof.
  intros Hgeo Hn axis sampled Hlen.
  pose proof (sampledVerticesOf_points positions) as Hpoints.
  fold sampled in Hpoints.
  assert (Hlen' : (2 <= length (sampledVerticesOf positions))%nat).
  { rewrite <- (length_map point), Hpoints. exact Hlen. }
  destruct (sampleMeshWorldPoints_ends mesh positions uv n Hgeo Hn Hlen')
    as (lo & hi & Hhead & Hlast & Hlo & Hhi & Hbounds).
  exists (point lo), (point hi).
  split; [exact Hhead|]. split; [exact Hlast|].
  split; [rewrite <- Hpoints; now apply in_map|].
  split; [rewrite <- Hpoints; now apply in_map|].
  intros p Hp. rewrite <- Hpoints in Hp.
  apply in_map_iff in Hp as (v & <- & Hv).
  specialize (Hbounds v Hv). subst axis.
  rewrite <- !sampledVerticesOf_axisValue by assumption. exact Hbounds.
Qed.

(** The three vertices 2, 0, 1 on the x axis: the two samples are the
    vertices at 0 and at 2. *)
Lemma sampleMeshWorldPoints_extremes_witness :
  exists lo hi : Vector3,
    head (sampleMeshWorldPoints smallMesh 2) =
      Some (localToWorld smallMesh lo) /\
    last (sampleMeshWorldPoints smallMesh 2) =
      Some (localToWorld smallMesh hi) /\
    In lo threeVertices /\ In hi threeVertices /\
    forall p, In p threeVertices ->
      component (getLargestAxisName (boundingBoxSize threeVertices)) lo
        <= component (getLargestAxisName (boundingBoxSize threeVertices)) p
        <= component (getLargestAxisName (boundingBoxSize threeVertices)) hi.
Proof.
  assert (Hsampled :
    Js.strided threeVertices (Nat.max 1 (length threeVertices / 2048)) =
      threeVertices) by reflexivity.
  pose proof (sampleMeshWorldPoints_extremes smallMesh threeVertices None 2
                eq_refl ltac:(lia)) as Hextremes.
  cbv zeta in Hextremes. rewrite Hsampled in Hextremes.
  apply Hextremes. simpl. lia.
Defined.

End SamplingFacts.

(** ** UV samples and phases *)

Section UvSampleFacts.

Lemma sampleMeshUvWorldPoints_length mesh positions uvs maxSamples :
  geometry mesh = Buffer (Some positions) (Some uvs) ->
  (0 < maxSamples)%Z ->
  let count := Nat.min (length positions) (length uvs) in
  let step := Nat.max 1 (count / Z.to_nat maxSamples) in
  length (sampleMeshUvWorldPoints mesh maxSamples) =
    ((count + step - 1) / step)%nat.
Proof.
  intros Hgeo Hmax count step. unfold sampleMeshUvWorldPoints.
  rewrite Hgeo. destruct (Z.leb_spec maxSamples 0); [lia|].
  rewrite length_zip. fold count.
  assert (Hstep : Z.to_nat (Z.max 1 (Z.of_nat count / maxSamples)) = step).
  { subst step. rewrite <- (Z2Nat.id maxSamples) at 1 by lia.
    rewrite <- Nat2Z.inj_div. lia. }
  rewrite Hstep.
  destruct (Nat.eqb_spec count 0) as [H0|H0].
  - rewrite H0. simpl. symmetry. apply Nat.div_small. subst step. lia.
  - rewrite length_map, strided_length by (subst step; lia).
    now rewrite length_zip.
Qed.

(** X7: [sampleMeshUvWorldPoints] gives nothing without both a position
    and a uv attribute or for a cap below 1.  Otherwise it gives at least
    one sample for a mesh with vertices, never more than there are
    vertices, and every vertex when there are fewer than twice the cap;
    the cap is a soft one: the samples can exceed [maxSamples] but never
    reach [2 * maxSamples]. *)
Theorem sampleMeshUvWorldPoints_size (mesh : Mesh) (maxSamples : Z) :
  ((maxSamples <= 0)%Z -> sampleMeshUvWorldPoints mesh maxSamples = []) /\
  match geometry mesh with
  | Buffer (Some positions) (Some uvs) =>
      (0 < maxSamples)%Z ->
      let count := Nat.min (length positions) (length uvs) in
      let k := length (sampleMeshUvWorldPoints mesh maxSamples) in
      (k <= count)%nat /\
      (Z.of_nat k <= 2 * maxSamples - 1)%Z /\
      ((Z.of_nat count < 2 * maxSamples)%Z -> k = count) /\
      ((0 < count)%nat -> (0 < k)%nat)
  | _ => sampleMeshUvWorldPoints mesh maxSamples = []
  end.
Proof.
  split.
  { intros Hmax. unfold sampleMeshUvWorldPoints.
    destruct (Z.leb_spec maxSamples 0); [reflexivity|lia]. }
  destruct (geometry mesh) as [|[positions|] [uvs|]] eqn:Hgeo;
    try (unfold sampleMeshUvWorldPoints; rewrite Hgeo;
         now destruct (maxSamples <=? 0)%Z).
  intros Hmax count k. subst k.
  rewrite (sampleMeshUvWorldPoints_length mesh positions uvs maxSamples)
    by easy.
  fold count. set (m := Z.to_nat maxSamples).
  assert (Hm : (0 < m)%nat) by (subst m; lia).
  assert (HM : maxSamples = Z.of_nat m) by (subst m; lia).
  set (q := (count / m)%nat). set (step := Nat.max 1 q).
  assert (Hs : (0 < step)%nat) by (subst step; lia).
  pose proof (Nat.div_mod_eq count m) as Hdm. fold q in Hdm.
  pose proof (Nat.mod_upper_bound count m ltac:(lia)) as Hr.
  set (r := (count mod m)%nat) in *.
  split; [|split; [|split]].
  - destruct (Nat.eq_dec count 0%nat) as [H0|H0].
    + rewrite H0. rewrite Nat.div_small; lia.
    + apply Nat.lt_succ_r, Nat.Div0.div_lt_upper_bound. nia.
  - assert ((count + step - 1) / step < 2 * m)%nat; [|lia].
    apply Nat.Div0.div_lt_upper_bound.
    destruct (Nat.eq_dec q 0%nat) as [Hq|Hq].
    + subst step. rewrite Hq in *. simpl. nia.
    + replace step with q by (subst step; lia). nia.
  - intros Hsmall.
    assert (q <= 1)%nat by nia.
    replace step with 1%nat by (subst step; lia).
    rewrite Nat.div_1_r. lia.
  - intros Hc. apply Nat.div_str_pos. lia.
Qed.

(** The scan of [getNearestUvPhase], with what it has seen so far: the
    samples before the current best are strictly farther, the ones after
    it are not nearer. *)
Lemma nearest_scan_first worldPoint rest :
  forall (before : list EdgeUvSample) best between s d,
    fold_left
      (fun '(nearestSample, nearestDistanceSq) sample =>
         let distanceSq :=
           distanceToSquared worldPoint (position sample) in
         if Js.ltb distanceSq nearestDistanceSq
         then (sample, distanceSq)
         else (nearestSample, nearestDistanceSq))
      rest (best, distanceToSquared worldPoint (position best)) = (s, d) ->
    Forall (fun s' => distanceToSquared worldPoint (position best) <
                      distanceToSquared worldPoint (position s')) before ->
    Forall (fun s' => distanceToSquared worldPoint (position best) <=
                      distanceToSquared worldPoint (position s')) between ->
    exists earlier later,
      before ++ best :: between ++ rest = earlier ++ s :: later /\
      Forall (fun s' => distanceToSquared worldPoint (position s) <
                        distanceToSquared worldPoint (position s')) earlier /\
      Forall (fun s' => distanceToSquared worldPoint (position s) <=
                        distanceToSquared worldPoint (position s')) later.
Proof.
  induction rest as [|sample rest IH];
    intros before best between s d Hscan Hbefore Hbetween; simpl in Hscan.
  - injection Hscan as <- <-. exists before, between.
    now rewrite app_nil_r.
  - destruct (Js.ltb _ _) eqn:Hlt.
    + apply ltb_true in Hlt.
      destruct (IH (before ++ best :: between) sample [] s d Hscan)
        as (earlier & later & Heq & He & Hl).
      * apply Forall_app. split; [|constructor; [exact Hlt|]].
        -- eapply Forall_impl; [exact Hbefore|]. simpl. intros; lra.
        -- eapply Forall_impl; [exact Hbetween|]. simpl. intros; lra.
      * constructor.
      * exists earlier, later. split; [|easy].
        rewrite <- Heq, <- app_assoc. reflexivity.
    + apply ltb_false in Hlt.
      destruct (IH before best (between ++ [sample]) s d Hscan Hbefore)
        as (earlier & later & Heq & He & Hl).
      * apply Forall_app. split; [exact Hbetween|].
        constructor; [exact Hlt|constructor].
      * exists earlier, later. split; [|easy].
        rewrite <- Heq, <- app_assoc. reflexivity.
Qed.

(** X8: among samples at the same least distance [getNearestUvPhase]
    keeps the first: the sample whose [u] it returns has only strictly
    farther samples before it and no nearer sample after it. *)
Theorem getNearestUvPhase_first_nearest
    (worldPoint : Vector3) (uvSamples : list EdgeUvSample) :
  uvSamples <> [] ->
  exists earlier s later,
    uvSamples = earlier ++ s :: later /\
    getNearestUvPhase worldPoint uvSamples = Some (u s) /\
    Forall (fun s' => distanceToSquared worldPoint (position s) <
                      distanceToSquared worldPoint (position s')) earlier /\
    Forall (fun s' => distanceToSquared worldPoint (position s) <=
                      distanceToSquared worldPoint (position s')) later.
Proof.
  intros Hne. destruct uvSamples as [|first rest]; [easy|].
  unfold getNearestUvPhase.
  destruct (fold_left _ rest _) as [s d] eqn:Hscan.
  destruct (nearest_scan_first worldPoint rest [] first [] s d Hscan)
    as (earlier & later & Heq & He & Hl); try constructor.
  exists earlier, s, later. simpl in Heq. auto.
Qed.

Lemma getNearestUvPhase_first_nearest_witness :
  exists earlier s later,
    [ {| position := origin; u := 0.25 |};
      {| position := origin; u := 0.75 |} ] = earlier ++ s :: later /\
    getNearestUvPhase origin
      [ {| position := origin; u := 0.25 |};
        {| position := origin; u := 0.75 |} ] = Some (u s) /\
    Forall (fun s' => distanceToSquared origin (position s) <
                      distanceToSquared origin (position s')) earlier /\
    Forall (fun s' => distanceToSquared origin (position s) <=
                      distanceToSquared origin (position s')) later.
Proof.
  apply (getNearestUvPhase_first_nearest origin). discriminate.
Defined.

Lemma rem1_unit r : 0 <= r < 1 -> Js.rem r 1 = r.
Proof.
  intros Hr. unfold Js.rem. replace (r / 1) with r by lra.
  rewrite trunc_nonneg by lra. rewrite (Int_part_unique r 0) by lra. lra.
Qed.

Lemma rem1_above r : 1 <= r < 2 -> Js.rem r 1 = r - 1.
Proof.
  intros Hr. unfold Js.rem. replace (r / 1) with r by lra.
  rewrite trunc_nonneg by lra. rewrite (Int_part_unique r 1) by lra. lra.
Qed.

Lemma invertUvPhase_mirror uvPhase :
  0 < uvPhase < 1 -> invertUvPhase uvPhase = 1 - uvPhase.
Proof.
  intros Hu. unfold invertUvPhase.
  rewrite (rem1_unit (1 - uvPhase)) by lra. rewrite rem1_above; lra.
Qed.

Lemma invertUvPhase_zero : invertUvPhase 0 = 0.
Proof.
  unfold invertUvPhase. replace (1 - 0) with 1 by lra.
  rewrite (rem1_above 1) by lra. replace (1 - 1 + 1) with 1 by lra.
  rewrite rem1_above; lra.
Qed.

(** X9: [invertUvPhase] stays in [0, 1) and keeps 0 at 0; on phases
    from 1e-9 to 1 - 1e-9 it is the mirror [1 - u] and undoes itself, to
    within 1e-9 (the rounding of the arithmetic). *)
Theorem invertUvPhase_involution (uvPhase : R) :
  1e-9 <= uvPhase <= 1 - 1e-9 ->
  0 <= invertUvPhase uvPhase < 1 /\
  invertUvPhase 0 = 0 /\
  Rabs (invertUvPhase uvPhase - (1 - uvPhase)) <= 1e-9 /\
  Rabs (invertUvPhase (invertUvPhase uvPhase) - uvPhase) <= 1e-9.
Proof.
  intros [Hlo Hhi]. split; [apply wrap_unit|].
  split; [apply invertUvPhase_zero|].
  rewrite (invertUvPhase_mirror uvPhase) by lra.
  rewrite (invertUvPhase_mirror (1 - uvPhase)) by lra.
  split.
  - replace (1 - uvPhase - (1 - uvPhase)) with 0 by lra.
    rewrite Rabs_R0. lra.
  - replace (1 - (1 - uvPhase) - uvPhase) with 0 by lra.
    rewrite Rabs_R0. lra.
Qed.

Lemma invertUvPhase_involution_witness :
  Rabs (invertUvPhase 0.25 - (1 - 0.25)) <= 1e-9 /\
  Rabs (invertUvPhase (invertUvPhase 0.25) - 0.25) <= 1e-9.
Proof.
  exact (proj2 (proj2 (invertUvPhase_involution 0.25 ltac:(lra)))).
Defined.

End UvSampleFacts.

(** ** Even downsampling *)

Section DownsampleFacts.

Context {T : Type}.

Lemma round_strict a b : a + 1 <= b -> (Js.round a < Js.round b)%Z.
Proof.
  intros Hab. unfold Js.round.
  pose proof (Int_part_bounds (a + / 2)) as [Ha _].
  pose proof (Int_part_bounds (b + / 2)) as [_ Hb].
  apply lt_IZR. lra.
Qed.

Lemma round_nonneg a : 0 <= a -> (0 <= Js.round a)%Z.
Proof.
  intros Ha. unfold Js.round.
  pose proof (Int_part_bounds (a + / 2)) as [_ Hb].
  assert (-1 < Int_part (a + / 2))%Z by (apply lt_IZR; lra). lia.
Qed.

(** When fewer samples are asked than there are items, consecutive ranks
    are at least one apart before rounding, so no rank is picked twice. *)
Lemma sampleIndex_increasing len count i j :
  2 <= count -> count <= INR len -> (i < j)%nat ->
  (sampleIndex len count i < sampleIndex len count j)%nat.
Proof.
  intros Hc Hlen Hij. unfold sampleIndex.
  destruct (Req_dec_T count 1); [lra|].
  assert (Hi : 0 <= INR i) by apply pos_INR.
  assert (Hj : INR i + 1 <= INR j).
  { rewrite <- S_INR. apply le_INR. lia. }
  assert (Hinv : 0 < / (count - 1)) by (apply Rinv_0_lt_compat; lra).
  assert (Hratio : 1 <= (INR len - 1) * / (count - 1)).
  { assert (H1 : (count - 1) * / (count - 1) = 1) by (field; lra). nra. }
  unfold Rdiv.
  set (ratio := (INR len - 1) * / (count - 1)) in *.
  replace ((INR len - 1) * (INR i * / (count - 1))) with (INR i * ratio)
    by (subst ratio; ring).
  replace ((INR len - 1) * (INR j * / (count - 1))) with (INR j * ratio)
    by (subst ratio; ring).
  pose proof (round_strict (INR i * ratio) (INR j * ratio) ltac:(nra)).
  pose proof (round_nonneg (INR i * ratio) ltac:(nra)).
  lia.
Qed.

Lemma increasing_seq (g : nat -> nat) n : forall start,
  (forall i j, (start <= i < j)%nat -> (j < start + n)%nat ->
               (g i < g j)%nat) ->
  StronglySorted lt (map g (seq start n)).
Proof.
  induction n as [|n IH]; intros start Hg; simpl; constructor.
  - apply IH. intros i j Hij Hj. apply Hg; lia.
  - apply List.Forall_forall. intros k Hk.
    apply in_map_iff in Hk as (j & <- & Hj). apply in_seq in Hj.
    apply Hg; lia.
Qed.

Lemma omap_lookup_shift (a : T) (l : list T) (indices : list nat) :
  Forall (fun i => (0 < i)%nat) indices ->
  omap (fun i => (a :: l) !! i) indices =
    omap (fun i => l !! i) (map Nat.pred indices).
Proof.
  induction 1 as [|i indices Hi _ IH]; [reflexivity|].
  destruct i as [|i]; [lia|]. simpl.
  destruct (l !! i); [f_equal|]; exact IH.
Qed.

Lemma pred_sorted (indices : list nat) :
  Forall (fun i => (0 < i)%nat) indices ->
  StronglySorted lt indices -> StronglySorted lt (map Nat.pred indices).
Proof.
  intros Hpos Hs. induction Hs as [|i indices Hs IH Hall]; simpl;
    constructor.
  - apply IH. now inversion Hpos.
  - inversion Hpos as [|? ? Hi Hrest]; subst.
    apply List.Forall_forall. intros k Hk.
    apply in_map_iff in Hk as (j & <- & Hj).
    rewrite List.Forall_forall in Hall, Hrest.
    specialize (Hall j Hj). specialize (Hrest j Hj). lia.
Qed.

(** Looking items up at increasing indices keeps their order. *)
Lemma lookup_increasing_sublist (items : list T) : forall indices,
  StronglySorted lt indices ->
  sublist (omap (fun i => items !! i) indices) items.
Proof.
  induction items as [|a items IH]; intros indices Hs.
  - replace (omap (fun i => [] !! i) indices) with (@nil T); [constructor|].
    clear Hs. induction indices as [|i indices IHi]; [reflexivity|].
    exact IHi.
  - destruct Hs as [|i indices Hs Hall]; [apply sublist_nil_l|].
    destruct i as [|i].
    + simpl. apply sublist_skip.
      assert (Hpos : Forall (fun i => (0 < i)%nat) indices)
        by (eapply Forall_impl; [exact Hall|]; simpl; intros; lia).
      rewrite omap_lookup_shift by exact Hpos.
      apply IH, pred_sorted; assumption.
    + assert (Hpos : Forall (fun i => (0 < i)%nat) (S i :: indices)).
      { constructor; [lia|].
        eapply Forall_impl; [exact Hall|]. simpl. intros; lia. }
      rewrite omap_lookup_shift by exact Hpos.
      apply sublist_cons, IH, pred_sorted; [exact Hpos|].
      now constructor.
Qed.

Lemma omap_compose (items : list T) (g : nat -> nat) (l : list nat) :
  omap (fun i => items !! g i) l = omap (fun i => items !! i) (map g l).
Proof.
  induction l as [|i l IH]; [reflexivity|]. simpl.
  destruct (items !! g i); [f_equal|]; exact IH.
Qed.

(** X10: [downsampleEvenly] keeps the items it returns in their order and
    picks none twice (the result is a sublist of the input); with a cap
    of 2 or more it keeps the first and the last item. *)
Theorem downsampleEvenly_sublist (items : list T) (maxCount : Z) :
  sublist (downsampleEvenly items maxCount) items /\
  ((2 <= maxCount)%Z ->
   head (downsampleEvenly items maxCount) = head items /\
   last (downsampleEvenly items maxCount) = last items).
Proof.
  unfold downsampleEvenly.
  destruct (Z.leb_spec maxCount 0) as [Hle|Hpos].
  { split; [apply sublist_nil_l|lia]. }
  destruct (Z.leb_spec (Z.of_nat (length items)) maxCount) as [Hall|Hmore].
  { split; [reflexivity|easy]. }
  assert (Hlen : (0 < length items)%nat) by lia.
  split.
  - rewrite omap_compose. apply lookup_increasing_sublist.
    destruct (Z.eq_dec maxCount 1%Z) as [->|Hne].
    + simpl. repeat constructor.
    + apply increasing_seq. intros i j Hij Hj.
      apply sampleIndex_increasing; [apply IZR_le; lia| |lia].
      rewrite INR_IZR_INZ. apply IZR_le. lia.
  - intros H2. set (count := Z.to_nat maxCount).
    assert (Hcount : IZR maxCount = INR count).
    { subst count. rewrite INR_IZR_INZ. f_equal. lia. }
    rewrite Hcount. split.
    + destruct (lookup_lt_is_Some_2 items 0%nat ltac:(lia)) as [b Hb].
      rewrite (head_lookup items), Hb. apply omap_seq_head; [lia|].
      rewrite sampleIndex_first; [exact Hb|].
      rewrite <- Hcount. apply IZR_le. lia.
    + destruct (lookup_lt_is_Some_2 items (Nat.pred (length items))
                  ltac:(lia)) as [b Hb].
      rewrite (last_lookup items), Hb. apply omap_seq_last; [lia|].
      rewrite sampleIndex_last by lia.
      now rewrite <- Nat.sub_1_r in Hb.
Qed.

End DownsampleFacts.

(** ** Directions and guide curves *)

Section DirectionFacts.

Lemma lengthSq_nonneg v : 0 <= lengthSq v.
Proof. unfold lengthSq. nra. Qed.

Lemma normalize_unit v :
  0 < lengthSq v -> lengthSq (normalize v) = 1.
Proof.
  intros Hpos. unfold normalize.
  assert (Hs : 0 < sqrt (lengthSq v)) by now apply sqrt_lt_R0.
  destruct (Req_dec_T (sqrt (lengthSq v)) 0) as [H0|_]; [lra|].
  pose proof (sqrt_sqrt (lengthSq v) (lengthSq_nonneg v)) as Hsq.
  set (d := sqrt (lengthSq v)) in *.
  assert (Hx : x v * x v + y v * y v + z v * z v = d * d)
    by (rewrite Hsq; reflexivity).
  unfold lengthSq. simpl.
  replace (x v / d * (x v / d) + y v / d * (y v / d) + z v / d * (z v / d))
    with ((x v * x v + y v * y v + z v * z v) / (d * d)) by (field; lra).
  rewrite Hx. field. lra.
Qed.

Lemma normalize_level v : y v = 0 -> y (normalize v) = 0.
Proof. intros Hy. unfold normalize. simpl. rewrite Hy.
  unfold Rdiv. apply Rmult_0_l. Qed.

(** The direction is level and of length 1, in exact arithmetic. *)
Lemma getMeshHorizontalAxisDirection_level (mesh : Mesh) :
  y (getMeshHorizontalAxisDirection mesh) = 0 /\
  lengthSq (getMeshHorizontalAxisDirection mesh) = 1.
Proof.
  assert (Hfallback : forall direction,
    let v := normalize (if Js.leb (lengthSq (setY direction 0)) 1e-6
                        then unitX else setY direction 0) in
    y v = 0 /\ lengthSq v = 1).
  { intros direction. simpl.
    destruct (Js.leb (lengthSq (setY direction 0)) 1e-6) eqn:Hle.
    - split; [now apply normalize_level|].
      apply normalize_unit. unfold lengthSq, unitX. simpl. lra.
    - split; [now apply normalize_level|].
      apply normalize_unit. apply leb_false in Hle. lra. }
  unfold getMeshHorizontalAxisDirection.
  destruct (geometry mesh) as [|positions uv]; [apply Hfallback|].
  cbv zeta.
  destruct (Js.gtb _ 1e-6) eqn:Hgt; [|apply Hfallback].
  split; [now apply normalize_level|].
  apply normalize_unit. unfold Js.gtb in Hgt. apply ltb_true in Hgt. lra.
Qed.

(** X11: [getMeshHorizontalAxisDirection] returns a horizontal vector of
    length 1 for every mesh, whatever its geometry and world matrix
    (also when the transformed axis is vertical or the geometry is
    missing): its y is 0 and its squared length is 1 to within 1e-9 (the
    rounding of the division by the length). *)
Theorem getMeshHorizontalAxisDirection_unit (mesh : Mesh) :
  y (getMeshHorizontalAxisDirection mesh) = 0 /\
  Rabs (lengthSq (getMeshHorizontalAxisDirection mesh) - 1) <= 1e-9.
Proof.
  destruct (getMeshHorizontalAxisDirection_level mesh) as [Hy Hlength].
  split; [exact Hy|]. rewrite Hlength.
  replace (1 - 1) with 0 by lra. rewrite Rabs_R0. lra.
Qed.

End DirectionFacts.

Section FarthestPairFacts.

Lemma fold_left_invariant {A B} (f : A -> B -> A) (P : A -> Prop) :
  (forall a b, P a -> P (f a b)) ->
  forall l a, P a -> P (fold_left f l a).
Proof.
  intros Hstep l. induction l as [|b l IH]; intros a Ha; simpl; auto.
Qed.

(** A running maximum never decreases, and dominates whatever each step
    compared it with. *)
Lemma fold_left_covers {A B} (f : A -> B -> A) (m : A -> R)
    (covers : A -> B -> Prop) :
  (forall a b, m a <= m (f a b)) ->
  (forall a b, covers (f a b) b) ->
  (forall a a' b, m a <= m a' -> covers a b -> covers a' b) ->
  forall l a,
    m a <= m (fold_left f l a) /\
    forall b, In b l -> covers (fold_left f l a) b.
Proof.
  intros Hmono Hstep Hup l.
  induction l as [|b l IH]; intros a; simpl.
  - split; [lra|tauto].
  - destruct (IH (f a b)) as [Hm Hcov]. split.
    + specialize (Hmono a b). lra.
    + intros b' [<-|Hb']; [|now apply Hcov].
      eapply Hup; [exact Hm|apply Hstep].
Qed.

Lemma distanceToSquared_nonneg a b : 0 <= distanceToSquared a b.
Proof.
  unfold distanceToSquared. cbv zeta.
  pose proof (Rle_0_sqr (x a - x b)). pose proof (Rle_0_sqr (y a - y b)).
  pose proof (Rle_0_sqr (z a - z b)). unfold Rsqr in *. lra.
Qed.

Lemma distanceToSquared_sym a b :
  distanceToSquared a b = distanceToSquared b a.
Proof. unfold distanceToSquared. cbv zeta. ring. Qed.

Lemma distanceToSquared_self a : distanceToSquared a a = 0.
Proof. unfold distanceToSquared. cbv zeta. ring. Qed.

(** The two loops keep the largest squared distance seen so far, and
    see every pair of positions [i < j]. *)
Lemma farthest_pair_scan (points : list Vector3) :
  (2 <= length points)%nat ->
  exists a b,
    getFarthestPointPair points = Some (a, b) /\
    In a points /\ In b points /\
    forall p q, In p points -> In q points ->
      distanceToSquared p q <= distanceToSquared a b.
Proof.
  intros Hlen. unfold getFarthestPointPair.
  destruct points as [|first rest] eqn:Hp; [simpl in Hlen; lia|].
  rewrite <- Hp in *.
  set (m := fun acc : R * Vector3 * Vector3 => fst (fst acc)).
  set (good := fun acc : R * Vector3 * Vector3 =>
    let '(d, a, b) := acc in
    d = -1 \/ (d = distanceToSquared a b /\ In a points /\ In b points)).
  set (pairCovered := fun (acc : R * Vector3 * Vector3) (i j : nat) =>
    forall p q, points !! i = Some p -> points !! j = Some q ->
      distanceToSquared p q <= m acc).
  match goal with
  | |- context [fold_left ?o (seq 0 ?n) ?s] =>
      set (outer := o); set (start := s)
  end.
  assert (Hinner : forall i l acc,
    let inner := fun (acc : R * Vector3 * Vector3) (j : nat) =>
      let '(maxDistanceSq, pointA, pointB) := acc in
      match points !! i, points !! j with
      | Some pi, Some pj =>
          if Js.gtb (distanceToSquared pi pj) maxDistanceSq
          then (distanceToSquared pi pj, pi, pj) else acc
      | _, _ => acc
      end in
    (good acc -> good (fold_left inner l acc)) /\
    m acc <= m (fold_left inner l acc) /\
    forall j, In j l -> pairCovered (fold_left inner l acc) i j).
  { intros i l acc inner. split.
    - apply fold_left_invariant. clear acc.
      intros [[d a] b] j Hgood. unfold inner.
      destruct (points !! i) as [p|] eqn:Hi; [|exact Hgood].
      destruct (points !! j) as [q|] eqn:Hj; [|exact Hgood].
      destruct (Js.gtb _ d); [|exact Hgood].
      right. split; [reflexivity|].
      split; apply list_elem_of_In; eapply list_elem_of_lookup_2; eauto.
    - apply (fold_left_covers inner m (fun acc j => pairCovered acc i j)).
      + intros [[d a] b] j. unfold inner, m.
        destruct (points !! i) as [p|]; [|simpl; lra].
        destruct (points !! j) as [q|]; [|simpl; lra].
        destruct (Js.gtb _ d) eqn:Hgt; simpl; [|lra].
        unfold Js.gtb in Hgt. apply ltb_true in Hgt. lra.
      + intros [[d a] b] j p q Hi Hj. unfold inner, m.
        rewrite Hi, Hj.
        destruct (Js.gtb _ d) eqn:Hgt; simpl; [lra|].
        unfold Js.gtb in Hgt. apply ltb_false in Hgt. lra.
      + intros a a' j Hle Hcov p q Hi Hj.
        specialize (Hcov p q Hi Hj). lra. }
  assert (Hgood : good (fold_left outer (seq 0 (length points)) start)).
  { apply fold_left_invariant.
    - intros acc i Hacc. apply (Hinner i). exact Hacc.
    - left. reflexivity. }
  destruct (fold_left_covers outer m
    (fun acc i => forall j, (i < j < length points)%nat ->
                            pairCovered acc i j)) with
    (l := seq 0 (length points)) (a := start) as [_ Hcov].
  { intros acc i. apply (Hinner i). }
  { intros acc i j Hj. apply (Hinner i). apply in_seq. lia. }
  { intros a a' i Hle Hcov j Hj p q Hi Hq.
    specialize (Hcov j Hj p q Hi Hq). lra. }
  destruct (fold_left outer (seq 0 (length points)) start)
    as [[d a] b] eqn:Hfold.
  exists a, b. split; [reflexivity|].
  assert (Hd : 0 <= d).
  { destruct (lookup_lt_is_Some_2 points 0%nat ltac:(lia)) as [p Hp0].
    destruct (lookup_lt_is_Some_2 points 1%nat ltac:(lia)) as [q Hq1].
    pose proof (Hcov 0%nat ltac:(apply in_seq; lia) 1%nat ltac:(lia)
                  p q Hp0 Hq1) as Hle.
    pose proof (distanceToSquared_nonneg p q). unfold m in Hle.
    simpl in Hle. lra. }
  destruct Hgood as [Hneg|(Hdab & Ha & Hb)]; [lra|].
  split; [exact Ha|]. split; [exact Hb|].
  intros p q Hpin Hqin.
  apply list_elem_of_In, list_elem_of_lookup_1 in Hpin as [i Hi].
  apply list_elem_of_In, list_elem_of_lookup_1 in Hqin as [j Hj].
  pose proof (lookup_lt_Some _ _ _ Hi) as Hilt.
  pose proof (lookup_lt_Some _ _ _ Hj) as Hjlt.
  rewrite <- Hdab.
  destruct (lt_eq_lt_dec i j) as [[Hij|Heq]|Hji].
  - apply (Hcov i ltac:(apply in_seq; lia) j ltac:(lia) p q Hi Hj).
  - subst j. rewrite Hi in Hj. injection Hj as <-.
    rewrite distanceToSquared_self. exact Hd.
  - rewrite distanceToSquared_sym.
    apply (Hcov j ltac:(apply in_seq; lia) i ltac:(lia) q p Hj Hi).
Qed.

(** X12: on two or more points [getFarthestPointPair] returns two of the
    given points, and no two of the given points are farther apart than
    the returned pair. *)
Theorem getFarthestPointPair_farthest (points : list Vector3) :
  (2 <= length points)%nat ->
  exists a b,
    getFarthestPointPair points = Some (a, b) /\
    In a points /\ In b points /\
    forall p q, In p points -> In q points ->
      distanceToSquared p q <= distanceToSquared a b.
Proof. apply farthest_pair_scan. Qed.

(** Two points one unit apart. *)
Lemma getFarthestPointPair_farthest_witness :
  exists a b,
    getFarthestPointPair [origin; unitX] = Some (a, b) /\
    In a [origin; unitX] /\ In b [origin; unitX] /\
    forall p q, In p [origin; unitX] -> In q [origin; unitX] ->
      distanceToSquared p q <= distanceToSquared a b.
Proof. apply (getFarthestPointPair_farthest [origin; unitX]). simpl. lia.
Defined.

End FarthestPairFacts.

(** ** What rig synthesis builds *)

Section RigShapeFacts.

Variables maxDim boxMinY : R.

(** The light of one rig segment: above its target, which lies within
    the throw, padded and extended. *)
Ltac edge_segment_shape :=
  let Hlt := fresh "Hlt" in
  let Hst' := fresh "Hst" in
  intros ? ? ? ?segmentPosition Hlt Hst';
  unfold addEdgeSegment; cbn -[distanceTo Rmax INR setY];
  apply Forall_app; split; [exact Hst'|]; constructor; [|constructor];
  cbn -[distanceTo Rmax INR setY];
  split; [reflexivity|]; split; [reflexivity|]; split;
  [ pose proof (edgeMinIntensity_pos maxDim);
    apply Rdiv_lt_0_compat; [|apply lt_0_INR; lia];
    eapply Rlt_le_trans; [|apply Rmax_l]; lra
  | split; [reflexivity|]; split; [reflexivity|]; split; [reflexivity|];
    match goal with
    | |- distanceTo ?a ?b < _ =>
        pose proof (sqrt_pos (distanceToSquared a b))
    end;
    unfold distanceTo, edgeThrowPadding, throwExtensionScale in *; lra ].

Lemma Rmax_1_pos a : 0 < Rmax a 1.
Proof. pose proof (Rmax_r a 1). lra. Qed.

Lemma ratio_unit (i len : nat) :
  (i < len)%nat -> 0 <= INR i / Rmax (INR len) 1 < 1.
Proof.
  intros Hi.
  assert (H0 : 0 <= INR i) by apply pos_INR.
  assert (H1 : INR i < INR len) by now apply lt_INR.
  pose proof (Rmax_l (INR len) 1) as Hm.
  pose proof (Rmax_1_pos (INR len)) as Hpos.
  split.
  - apply Rmult_le_pos; [exact H0|]. left. now apply Rinv_0_lt_compat.
  - apply (Rmult_lt_reg_r (Rmax (INR len) 1)); [exact Hpos|].
    unfold Rdiv. rewrite Rmult_assoc, Rinv_l by lra. lra.
Qed.

Lemma ratio_nonneg a b : 0 <= a -> 0 <= a / Rmax b 1.
Proof.
  intros Ha. apply Rmult_le_pos; [exact Ha|].
  left. apply Rinv_0_lt_compat, Rmax_1_pos.
Qed.

(** The guide rigs: one for each guide curve whose farthest two points
    are more than one unit apart. *)
Lemma edgeGuideRigsOf_In (cg : ClassifiedGeometry) edgeUvSamples rig :
  In rig (edgeGuideRigsOf cg edgeUvSamples) ->
  exists guideIndex guideObject,
    emitterGuideObjects cg !! guideIndex =
      Some (guideSourceObject rig, guideObject) /\
    (2 <= length (getLineWorldPoints guideObject))%nat /\
    getFarthestPointPair (getLineWorldPoints guideObject) =
      Some (guideStart rig, guideEnd rig) /\
    1 < distanceToSquared (guideStart rig) (guideEnd rig) /\
    0 <= guidePhase rig < 1.
Proof.
  unfold edgeGuideRigsOf. intros Hin.
  apply in_concat in Hin as (rigs & Hrigs & Hin).
  apply list_elem_of_In, elem_of_lookup_imap_1 in Hrigs
    as (guideIndex & [guideId guideObject] & -> & Hguide).
  destruct (Nat.ltb_spec (length (getLineWorldPoints guideObject)) 2)
    as [|Hlen]; [easy|].
  destruct (getFarthestPointPair (getLineWorldPoints guideObject))
    as [[start end_]|] eqn:Hpair; [|easy].
  destruct (Js.leb (distanceToSquared start end_) 1) eqn:Hfar; [easy|].
  destruct Hin as [<-|[]]. simpl.
  exists guideIndex, guideObject. split; [exact Hguide|].
  split; [exact Hlen|]. split; [exact Hpair|].
  split; [now apply leb_false in Hfar|].
  destruct (getNearestUvPhase _ edgeUvSamples).
  - apply invertUvPhase_range.
  - apply ratio_unit. eapply lookup_lt_Some; eauto.
Qed.

Lemma edgeCandidatesOf_phase (cg : ClassifiedGeometry) edgeUvSamples c :
  In c (edgeCandidatesOf maxDim cg edgeUvSamples) -> 0 <= edgePhase c < 1.
Proof.
  unfold edgeCandidatesOf. intros Hin.
  apply in_concat in Hin as (cs & Hcs & Hin).
  apply list_elem_of_In, elem_of_lookup_imap_1 in Hcs
    as (meshIndex & [meshId mesh] & -> & Hmesh).
  apply list_elem_of_In, elem_of_lookup_imap_1 in Hin
    as (pointIndex & point & -> & Hpoint).
  simpl. destruct (getNearestUvPhase point edgeUvSamples).
  - apply invertUvPhase_range.
  - apply rem1_nonneg. apply ratio_nonneg.
    apply Rplus_le_le_0_compat; [apply pos_INR|].
    apply ratio_nonneg, pos_INR.
Qed.

Lemma washCandidatesOf_phase (cg : ClassifiedGeometry) edgeUvSamples c :
  In c (washCandidatesOf cg edgeUvSamples) -> 0 <= washPhase c < 1.
Proof.
  unfold washCandidatesOf. intros Hin.
  apply in_app_or in Hin as [Hin|Hin].
  - apply in_concat in Hin as (cs & Hcs & Hin).
    apply list_elem_of_In, elem_of_lookup_imap_1 in Hcs
      as (meshIndex & [meshId mesh] & -> & Hmesh).
    apply in_map_iff in Hin as (point & <- & Hpoint). simpl.
    destruct (getNearestUvPhase point edgeUvSamples).
    + apply invertUvPhase_range.
    + apply rem1_nonneg, ratio_nonneg, pos_INR.
  - apply list_elem_of_In, elem_of_lookup_imap_1 in Hin
      as (posIndex & position & -> & Hposition). simpl.
    destruct (getNearestUvPhase position edgeUvSamples).
    + apply invertUvPhase_range.
    + apply rem1_nonneg, ratio_nonneg.
      apply Rplus_le_le_0_compat; apply pos_INR.
Qed.

Lemma fallbackRigCandidates_In edgeCandidates c :
  In c (fallbackRigCandidates maxDim edgeCandidates) -> In c edgeCandidates.
Proof.
  unfold fallbackRigCandidates, canopyEdgeCandidatesOf. intros Hin.
  apply downsampleEvenly_In in Hin. now apply filter_In in Hin.
Qed.

(** A rig started at a phase that is not negative gives each of its
    segments a phase in [0, 1). *)
Lemma addEdgeEmitterRig_phases rigStart rigEnd source phase follow
    segmentCount segmentFractions st :
  0 <= phase ->
  Forall (fun e => 0 <= Rig.phase e < 1) (emissiveEmitterLights st) ->
  Forall (fun e => 0 <= Rig.phase e < 1)
    (emissiveEmitterLights
       (addEdgeEmitterRig maxDim boxMinY rigStart rigEnd source phase
          follow segmentCount segmentFractions st)).
Proof.
  intros Hphase Hst.
  apply (addEdgeEmitterRig_invariant maxDim boxMinY
           (fun st => Forall (fun e => 0 <= Rig.phase e < 1)
                        (emissiveEmitterLights st))); [exact Hst|].
  intros shadow st' segmentIndex segmentPosition _ Hst'.
  unfold addEdgeSegment. cbn -[distanceTo Rmax INR setY].
  apply Forall_app. split; [exact Hst'|]. constructor; [|constructor].
  cbn -[Rmax INR]. apply rem1_nonneg.
  apply Rplus_le_le_0_compat; [exact Hphase|].
  apply ratio_nonneg, pos_INR.
Qed.

(** X14: every emitter [synthesizeEmitters] makes has its phase in
    [0, 1), whether the phase comes from the nearest UV sample or from
    the position in the list. *)
Theorem synthesized_phases_in_unit (cg : ClassifiedGeometry) :
  Forall (fun e => 0 <= phase e < 1)
    (emissiveEmitterLights (synthesizeEmitters maxDim boxMinY cg)).
Proof.
  apply (synthesizeEmitters_invariant maxDim boxMinY
           (fun st => Forall (fun e => 0 <= phase e < 1)
                        (emissiveEmitterLights st))).
  - constructor.
  - intros st rig Hrig Hst. unfold addGuideRig.
    apply addEdgeEmitterRig_phases; [|exact Hst].
    now destruct (edgeGuideRigsOf_In _ _ _ Hrig)
      as (_ & _ & _ & _ & _ & _ & [? _]).
  - intros st candidate Hin Hst. unfold addFallbackRig.
    apply addEdgeEmitterRig_phases; [|exact Hst].
    apply fallbackRigCandidates_In, edgeCandidatesOf_phase in Hin.
    tauto.
  - intros st candidate Hin Hst. unfold addWashEmitter. simpl.
    apply Forall_app. split; [exact Hst|]. constructor; [|constructor].
    simpl. eapply washCandidatesOf_phase; eauto.
Qed.

Lemma concat_imap_length {A B} (l : list A) : forall (f : nat -> A -> list B),
  (forall i a, (length (f i a) <= 1)%nat) ->
  (length (concat (imap f l)) <= length l)%nat.
Proof.
  induction l as [|a l IH]; intros f Hf; simpl; [lia|].
  rewrite length_app.
  specialize (IH (fun i => f (S i)) ltac:(intros; apply Hf)).
  specialize (Hf 0%nat a). unfold compose. lia.
Qed.

(** X15: [edgeGuideRigsOf] makes at most one rig per guide curve.  Each
    rig belongs to a guide curve of two or more points, spans the
    farthest-apart pair of its world points, which are more than one unit
    apart, and is tagged with that guide object. *)
Theorem edgeGuideRigsOf_spans_guides (cg : ClassifiedGeometry)
    (edgeUvSamples : list EdgeUvSample) :
  (length (edgeGuideRigsOf cg edgeUvSamples)
     <= length (emitterGuideObjects cg))%nat /\
  Forall
    (fun rig =>
       exists guideIndex guideObject,
         emitterGuideObjects cg !! guideIndex =
           Some (guideSourceObject rig, guideObject) /\
         let points := getLineWorldPoints guideObject in
         (2 <= length points)%nat /\
         In (guideStart rig) points /\ In (guideEnd rig) points /\
         1 < distanceToSquared (guideStart rig) (guideEnd rig) /\
         forall p q, In p points -> In q points ->
           distanceToSquared p q <=
             distanceToSquared (guideStart rig) (guideEnd rig))
    (edgeGuideRigsOf cg edgeUvSamples).
Proof.
  split.
  - unfold edgeGuideRigsOf. apply concat_imap_length.
    intros i [guideId guideObject].
    destruct (_ <? 2)%nat; [simpl; lia|].
    destruct (getFarthestPointPair _) as [[start end_]|]; [|simpl; lia].
    destruct (Js.leb _ 1); simpl; lia.
  - apply List.Forall_forall. intros rig Hrig.
    destruct (edgeGuideRigsOf_In _ _ _ Hrig)
      as (guideIndex & guideObject & Hguide & Hlen & Hpair & Hfar & _).
    exists guideIndex, guideObject. split; [exact Hguide|].
    destruct (farthest_pair_scan _ Hlen) as (a & b & Hab & Ha & Hb & Hmax).
    rewrite Hpair in Hab. injection Hab as <- <-.
    cbv zeta. auto.
Qed.

Lemma clamp_unit f : 0 <= Js.clamp f 0 1 <= 1.
Proof.
  unfold Js.clamp. split; [apply Rmax_l|].
  apply Rmax_lub; [lra|apply Rmin_l].
Qed.

Lemma lerp_y_between a b f :
  0 <= f <= 1 -> Rmin (y a) (y b) <= y (lerp a b f).
Proof. intros Hf. simpl. unfold Rmin. destruct (Rle_dec (y a) (y b)); nra. Qed.

(** No segment of a rig is lower than the lower end of the rig. *)
Lemma addEdgeEmitterRig_invariant_level (I : RigState -> Prop)
    rigStart rigEnd source phase follow segmentCount segmentFractions st :
  let n := normalizedSegmentCountOf segmentCount segmentFractions in
  I {| emissiveEmitterLights := emissiveEmitterLights st;
       edgeShadowCasterCount := edgeShadowCasterCount st;
       baseShadowCasterCount := baseShadowCasterCount st;
       edgeRigCount := S (edgeRigCount st) |} ->
  (forall shadow st' segmentIndex segmentPosition,
     Rmin (y rigStart) (y rigEnd) <= y segmentPosition -> I st' ->
     I (addEdgeSegment maxDim boxMinY source phase follow n shadow st'
          (segmentIndex, segmentPosition))) ->
  I (addEdgeEmitterRig maxDim boxMinY rigStart rigEnd source phase follow
       segmentCount segmentFractions st).
Proof.
  intros n Hstart Hstep. unfold addEdgeEmitterRig. fold n.
  apply fold_left_invariant_In; [|exact Hstart].
  intros st' [segmentIndex segmentPosition] Hin Hst'.
  apply Hstep; [|exact Hst'].
  apply list_elem_of_In, elem_of_zip_r, list_elem_of_In in Hin.
  destruct (normalizedFractionsOf segmentFractions) as [fractions|] eqn:Hf.
  - apply in_map_iff in Hin as (f & <- & Hfin). apply lerp_y_between.
    unfold normalizedFractionsOf in Hf.
    destruct segmentFractions as [[|f0 fs]|]; try discriminate.
    injection Hf as <-.
    change (In f (map (fun fraction => Js.clamp fraction 0 1) (f0 :: fs)))
      in Hfin.
    apply in_map_iff in Hfin as (g & <- & _). apply clamp_unit.
  - apply in_map_iff in Hin as (i & <- & _).
    cbn [y addScaledVector].
    match goal with
    | |- _ <= _ + y (normalize ?d) * _ =>
        rewrite (normalize_level d)
          by (destruct (Js.leb _ _); reflexivity)
    end.
    pose proof (lerp_y_between rigStart rigEnd 0.5 ltac:(lra)). lra.
Qed.

(** A segment that is not below the bottom of the bounding box has its
    light above its ground target. *)
Lemma segment_above_ground source phase follow n shadow st segmentIndex
    segmentPosition :
  boxMinY <= y segmentPosition ->
  Forall
    (fun e =>
       forall t, target e = Some t ->
         y (targetPosition t) < y (lightPosition (light e)))
    (emissiveEmitterLights st) ->
  Forall
    (fun e =>
       forall t, target e = Some t ->
         y (targetPosition t) < y (lightPosition (light e)))
    (emissiveEmitterLights
       (addEdgeSegment maxDim boxMinY source phase follow n shadow st
          (segmentIndex, segmentPosition))).
Proof.
  intros Hy Hst. unfold addEdgeSegment. cbn -[distanceTo Rmax INR setY].
  apply Forall_app. split; [exact Hst|]. constructor; [|constructor].
  cbn -[distanceTo Rmax INR]. intros t [= <-]. simpl. unfold groundY.
  pose proof (Rmax_r (maxDim * 0.015) 0.8). lra.
Qed.

(** An edge candidate is a sampled point of an Edge LED mesh, with that
    mesh's horizontal direction. *)
Lemma edgeCandidatesOf_In (cg : ClassifiedGeometry) edgeUvSamples c :
  In c (edgeCandidatesOf maxDim cg edgeUvSamples) ->
  exists meshId mesh n,
    In (meshId, mesh) (edgeLedMeshes cg) /\
    In (edgePoint c) (sampleMeshWorldPoints mesh n) /\
    edgeDirection c = getMeshHorizontalAxisDirection mesh.
Proof.
  unfold edgeCandidatesOf. intros Hin.
  apply in_concat in Hin as (cs & Hcs & Hin).
  apply list_elem_of_In, elem_of_lookup_imap_1 in Hcs
    as (meshIndex & [meshId mesh] & -> & Hmesh).
  apply list_elem_of_In, elem_of_lookup_imap_1 in Hin
    as (pointIndex & point & -> & Hpoint).
  simpl. eexists meshId, mesh, _.
  split; [apply list_elem_of_In; eapply list_elem_of_lookup_2; eauto|].
  split; [|reflexivity].
  apply list_elem_of_In. eapply list_elem_of_lookup_2; eauto.
Qed.

(** X13: every light [synthesizeEmitters] makes starts visible with its
    intensity equal to the emitter's positive [baseIntensity].  An
    emitter with a target is a spot light aimed along the vertical: the
    target has the light's x and z, sits at ground level ([groundY]), is
    visible, and lies within the light's range; and when no sampled
    point of an Edge LED mesh and no point of a guide curve is lower
    than the bottom of the model's bounding box (heights within 1e6),
    the target is below the light.  An emitter without a target is a point light that casts no
    shadow, of base intensity 100, and follows its source's
    visibility. *)
Theorem synthesized_lights_aim_down (cg : ClassifiedGeometry) :
  Forall
    (fun e =>
       visible (light e) = true /\
       intensity (light e) = baseIntensity e /\
       0 < baseIntensity e /\
       match target e with
       | Some t =>
           lightKind (light e) = SpotLight /\
           targetPosition t =
             setY (lightPosition (light e)) (groundY boxMinY) /\
           targetVisible t = true /\
           distanceTo (lightPosition (light e)) (targetPosition t)
             < distance (light e)
       | None =>
           lightKind (light e) = PointLight /\
           castShadow (light e) = false /\
           baseIntensity e = 100 /\
           followSourceVisibility e = true
       end)
    (emissiveEmitterLights (synthesizeEmitters maxDim boxMinY cg)) /\
  (-1e6 <= boxMinY ->
   (forall meshId mesh n p,
      In (meshId, mesh) (edgeLedMeshes cg) ->
      In p (sampleMeshWorldPoints mesh n) -> boxMinY <= y p <= 1e6) ->
   (forall guideId guideObject p,
      In (guideId, guideObject) (emitterGuideObjects cg) ->
      In p (getLineWorldPoints guideObject) -> boxMinY <= y p <= 1e6) ->
   Forall
     (fun e =>
        forall t, target e = Some t ->
          y (targetPosition t) < y (lightPosition (light e)))
     (emissiveEmitterLights (synthesizeEmitters maxDim boxMinY cg))).
Proof.
  split.
  2: { intros _ Hmeshes Hguides.
       apply (synthesizeEmitters_invariant maxDim boxMinY
                (fun st =>
                   Forall
                     (fun e =>
                        forall t, target e = Some t ->
                          y (targetPosition t) < y (lightPosition (light e)))
                     (emissiveEmitterLights st))).
       - constructor.
       - intros st rig Hrig Hst. unfold addGuideRig.
         destruct (edgeGuideRigsOf_In _ _ _ Hrig)
           as (guideIndex & guideObject & Hguide & Hlen & Hpair & _).
         destruct (farthest_pair_scan _ Hlen)
           as (a & b & Hab & Ha & Hb & _).
         rewrite Hpair in Hab. injection Hab as <- <-.
         apply list_elem_of_lookup_2, list_elem_of_In in Hguide.
         pose proof (Hguides _ _ _ Hguide Ha) as [Hstart _].
         pose proof (Hguides _ _ _ Hguide Hb) as [Hend _].
         apply addEdgeEmitterRig_invariant_level; [exact Hst|].
         intros shadow st' segmentIndex segmentPosition Hlevel Hst'.
         apply segment_above_ground; [|exact Hst'].
         revert Hlevel. unfold Rmin. destruct (Rle_dec _ _); lra.
       - intros st candidate Hin Hst. unfold addFallbackRig.
         apply fallbackRigCandidates_In, edgeCandidatesOf_In in Hin
           as (meshId & mesh & n & Hmesh & Hpoint & Hdirection).
         pose proof (Hmeshes _ _ _ _ Hmesh Hpoint) as [Hy _].
         destruct (getMeshHorizontalAxisDirection_level mesh) as [Hlevel0 _].
         apply addEdgeEmitterRig_invariant_level; [exact Hst|].
         intros shadow st' segmentIndex segmentPosition Hlevel Hst'.
         apply segment_above_ground; [|exact Hst'].
         revert Hlevel. simpl. rewrite Hdirection, Hlevel0.
         unfold Rmin. destruct (Rle_dec _ _); lra.
       - intros st candidate _ Hst. unfold addWashEmitter. simpl.
         apply Forall_app. split; [exact Hst|]. constructor; [|constructor].
         simpl. discriminate. }
  match goal with
  | |- Forall ?Q _ =>
      apply (synthesizeEmitters_invariant maxDim boxMinY
               (fun st => Forall Q (emissiveEmitterLights st)))
  end.
  - constructor.
  - intros st rig _ Hst. unfold addGuideRig.
    apply addEdgeEmitterRig_invariant; [exact Hst|].
    edge_segment_shape.
  - intros st candidate _ Hst. unfold addFallbackRig.
    apply addEdgeEmitterRig_invariant; [exact Hst|].
    edge_segment_shape.
  - intros st candidate _ Hst. unfold addWashEmitter. simpl.
    apply Forall_app. split; [exact Hst|]. constructor; [|constructor].
    simpl. unfold washBaseIntensity. repeat split; lra.
Qed.

End RigShapeFacts.

Section RigCountFacts.

Variables maxDim boxMinY : R.

Local Abbreviation castCount l :=
  (length (List.filter (fun e => castShadow (light e)) l)).

#[local] Arguments Nat.min : simpl never.

(** The segment that may cast a shadow is one of the rig's segments. *)
Lemma shadowSegmentIndex_lt (n : nat) :
  (0 < n)%nat -> (Z.to_nat (Js.round ((INR n - 1) * 0.5)) < n)%nat.
Proof.
  intros Hn. unfold Js.round.
  pose proof (Int_part_bounds ((INR n - 1) * 0.5 + / 2)) as [Hlo _].
  assert (Hpos : 0 < INR n) by (apply lt_0_INR; lia).
  assert (Hlt : (Int_part ((INR n - 1) * 0.5 + / 2) < Z.of_nat n)%Z).
  { apply lt_IZR. rewrite <- INR_IZR_INZ. lra. }
  lia.
Qed.

Lemma shadow_hits shadow : forall k a (positions : list Vector3),
  length positions = k ->
  length (List.filter (fun s : nat * Vector3 => (fst s =? shadow)%nat)
            (zip (seq a k) positions)) =
    if ((a <=? shadow) && (shadow <? a + k))%nat then 1%nat else 0%nat.
Proof.
  induction k as [|k IH]; intros a positions Hlen.
  - simpl. destruct (Nat.leb_spec a shadow), (Nat.ltb_spec shadow (a + 0));
      simpl; lia.
  - destruct positions as [|p positions]; [easy|].
    change (zip (seq a (S k)) (p :: positions))
      with ((a, p) :: zip (seq (S a) k) positions).
    cbn [List.filter fst].
    pose proof (IH (S a) positions ltac:(simpl in Hlen; lia)) as Hrest.
    destruct (Nat.eqb_spec a shadow); cbn [length]; rewrite Hrest;
    destruct (Nat.leb_spec a shadow),
      (Nat.leb_spec (S a) shadow), (Nat.ltb_spec shadow (a + S k)),
      (Nat.ltb_spec shadow (S a + k)); simpl; lia.
Qed.

(** Segments take a shadow map while fewer than three are taken. *)
Lemma addEdgeSegments_casts source phase follow n shadow :
  forall segments st,
    (edgeShadowCasterCount st <= 3)%nat ->
    let st' :=
      fold_left (addEdgeSegment maxDim boxMinY source phase follow n shadow)
        segments st in
    let hits :=
      length (List.filter (fun s : nat * Vector3 => (fst s =? shadow)%nat)
                segments) in
    edgeShadowCasterCount st' =
      Nat.min 3 (edgeShadowCasterCount st + hits) /\
    (castCount (emissiveEmitterLights st') =
       castCount (emissiveEmitterLights st) +
       (edgeShadowCasterCount st' - edgeShadowCasterCount st))%nat /\
    edgeRigCount st' = edgeRigCount st.
Proof.
  induction segments as [|[segmentIndex segmentPosition] segments IH];
    intros st Hst.
  - simpl. repeat split; lia.
  - cbn [fold_left List.filter fst].
    set (st1 := addEdgeSegment maxDim boxMinY source phase follow n shadow
                  st (segmentIndex, segmentPosition)).
    set (casts := ((segmentIndex =? shadow)%nat &&
                   (edgeShadowCasterCount st <? 3)%nat)).
    assert (Hcount1 : edgeShadowCasterCount st1 =
              if casts then S (edgeShadowCasterCount st)
              else edgeShadowCasterCount st) by reflexivity.
    assert (Hcast1 : castCount (emissiveEmitterLights st1) =
              (castCount (emissiveEmitterLights st) +
               if casts then 1 else 0)%nat).
    { subst st1. unfold addEdgeSegment. cbn -[distanceTo Rmax INR setY].
      rewrite List.filter_app, length_app. f_equal.
      subst casts. unfold Nat.ltb. cbn -[distanceTo Rmax INR setY].
      now destruct (_ && _). }
    assert (Hrig1 : edgeRigCount st1 = edgeRigCount st) by reflexivity.
    assert (Hst1 : (edgeShadowCasterCount st1 <= 3)%nat).
    { rewrite Hcount1. subst casts.
      destruct (Nat.eqb_spec segmentIndex shadow),
        (Nat.ltb_spec (edgeShadowCasterCount st) 3); simpl; lia. }
    destruct (IH st1 Hst1) as (Hcount & Hcast & Hrig).
    cbv zeta. rewrite Hcast, Hrig, Hcast1, Hrig1, !Hcount, !Hcount1.
    subst casts.
    destruct (Nat.eqb_spec segmentIndex shadow),
      (Nat.ltb_spec (edgeShadowCasterCount st) 3); simpl; lia.
Qed.

(** A rig takes one shadow map while fewer than three are taken. *)
Lemma addEdgeEmitterRig_casts rigStart rigEnd source phase follow
    segmentCount segmentFractions st :
  (edgeShadowCasterCount st <= 3)%nat ->
  let st' :=
    addEdgeEmitterRig maxDim boxMinY rigStart rigEnd source phase follow
      segmentCount segmentFractions st in
  edgeShadowCasterCount st' = Nat.min 3 (S (edgeShadowCasterCount st)) /\
  (castCount (emissiveEmitterLights st') =
     castCount (emissiveEmitterLights st) +
     (edgeShadowCasterCount st' - edgeShadowCasterCount st))%nat /\
  edgeRigCount st' = S (edgeRigCount st).
Proof.
  intros Hst st'. subst st'. unfold addEdgeEmitterRig.
  set (n := normalizedSegmentCountOf segmentCount segmentFractions).
  pose proof (normalizedSegmentCountOf_pos segmentCount segmentFractions)
    as Hn. fold n in Hn.
  match goal with
  | |- context [fold_left ?f (zip (seq 0 n) ?positions) ?st0] =>
      pose proof (addEdgeSegments_casts source phase follow n
                    (Z.to_nat (Js.round ((INR n - 1) * 0.5)))
                    (zip (seq 0 n) positions) st0 Hst) as Hfold;
      assert (Hlen : length positions = n)
  end.
  { subst n. unfold normalizedSegmentCountOf.
    destruct (normalizedFractionsOf segmentFractions) as [fractions|].
    - now rewrite length_map.
    - now rewrite length_map, length_seq. }
  cbv zeta in Hfold. rewrite (shadow_hits _ n 0 _ Hlen) in Hfold.
  pose proof (shadowSegmentIndex_lt n Hn) as Hshadow.
  destruct (Nat.leb_spec 0 (Z.to_nat (Js.round ((INR n - 1) * 0.5))));
    [|lia].
  destruct (Nat.ltb_spec (Z.to_nat (Js.round ((INR n - 1) * 0.5))) (0 + n));
    [|lia].
  simpl in Hfold. destruct Hfold as (Hcount & Hcast & Hrig).
  rewrite Hcount, Hcast, Hcount, Hrig. repeat split; f_equal; lia.
Qed.

(** Which segment casts: the one at the shadow index, while fewer than
    three shadow maps are taken. *)
Lemma addEdgeSegments_shadow_at source phase follow n shadow :
  forall k a (positions : list Vector3) st,
  exists news,
    emissiveEmitterLights
      (fold_left (addEdgeSegment maxDim boxMinY source phase follow n shadow)
         (zip (seq a k) positions) st) =
      emissiveEmitterLights st ++ news /\
    forall j e, news !! j = Some e ->
      castShadow (light e) =
        ((a + j =? shadow)%nat && (edgeShadowCasterCount st <? 3)%nat).
Proof.
  induction k as [|k IH]; intros a positions st.
  { exists []. simpl. rewrite app_nil_r. split; [reflexivity|].
    intros j e Hj. now rewrite lookup_nil in Hj. }
  destruct positions as [|p positions].
  { exists []. simpl. rewrite app_nil_r. split; [reflexivity|].
    intros j e Hj. now rewrite lookup_nil in Hj. }
  change (zip (seq a (S k)) (p :: positions))
    with ((a, p) :: zip (seq (S a) k) positions).
  cbn [fold_left].
  remember (addEdgeSegment maxDim boxMinY source phase follow n shadow st
              (a, p)) as st1 eqn:Hst1.
  destruct (IH (S a) positions st1) as (news & Hnews & Hat).
  assert (Hcount1 : edgeShadowCasterCount st1 =
            if ((a =? shadow)%nat && (edgeShadowCasterCount st <? 3)%nat)
            then S (edgeShadowCasterCount st)
            else edgeShadowCasterCount st) by (subst st1; reflexivity).
  assert (Hhead : exists e0,
            emissiveEmitterLights st1 = emissiveEmitterLights st ++ [e0] /\
            castShadow (light e0) =
              ((a =? shadow)%nat && (edgeShadowCasterCount st <? 3)%nat)).
  { subst st1. unfold addEdgeSegment. cbn -[distanceTo Rmax INR setY Nat.ltb].
    eexists. split; reflexivity. }
  destruct Hhead as (e0 & Hhead & Hcast0).
  exists (e0 :: news). rewrite Hnews, Hhead, <- app_assoc.
  split; [reflexivity|].
  intros [|j] e Hj; simpl in Hj.
  - injection Hj as <-. now rewrite Nat.add_0_r.
  - rewrite (Hat j e Hj), Hcount1.
    replace (a + S j)%nat with (S a + j)%nat by lia.
    destruct (Nat.eqb_spec (S a + j) shadow) as [Heq|]; [|reflexivity].
    destruct (Nat.eqb_spec a shadow); [lia|reflexivity].
Qed.

Lemma addEdgeEmitterRig_shadow_at rigStart rigEnd source phase follow
    segmentCount segmentFractions st :
  let n := normalizedSegmentCountOf segmentCount segmentFractions in
  exists news,
    emissiveEmitterLights
      (addEdgeEmitterRig maxDim boxMinY rigStart rigEnd source phase follow
         segmentCount segmentFractions st) =
      emissiveEmitterLights st ++ news /\
    length news = n /\
    forall j e, news !! j = Some e ->
      castShadow (light e) =
        ((j =? n / 2)%nat && (edgeShadowCasterCount st <? 3)%nat).
Proof.
  intros n.
  destruct (addEdgeEmitterRig_new maxDim boxMinY rigStart rigEnd source
              phase follow segmentCount segmentFractions st)
    as (news' & Hnews' & Hlen & _).
  fold n in Hlen.
  pose proof (normalizedSegmentCountOf_pos segmentCount segmentFractions)
    as Hn. fold n in Hn.
  revert Hnews'. unfold addEdgeEmitterRig. fold n.
  rewrite (round_half n Hn).
  match goal with
  | |- context [fold_left _ (zip (seq 0 n) ?positions) ?st0] =>
      destruct (addEdgeSegments_shadow_at source phase follow n (n / 2) n 0
                  positions st0) as (news & Hnews & Hat)
  end.
  rewrite Hnews. simpl. intros Heq. apply app_inv_head in Heq. subst news'.
  exists news. split; [reflexivity|]. split; [exact Hlen|exact Hat].
Qed.

(** Rig after rig: the emitters added are the rigs' lights in order, and
    the rigs that take a shadow map are the first three. *)
Lemma fold_rigs_shadow {X} (add : RigState -> X -> RigState) (k : nat) :
  (forall st x,
     edgeShadowCasterCount st = Nat.min 3 (edgeRigCount st) ->
     exists news,
       emissiveEmitterLights (add st x) = emissiveEmitterLights st ++ news /\
       length news = k /\
       (forall j e, news !! j = Some e ->
          castShadow (light e) =
            ((j =? k / 2)%nat && (edgeShadowCasterCount st <? 3)%nat)) /\
       edgeShadowCasterCount (add st x) = Nat.min 3 (S (edgeRigCount st)) /\
       edgeRigCount (add st x) = S (edgeRigCount st)) ->
  forall xs st,
    edgeShadowCasterCount st = Nat.min 3 (edgeRigCount st) ->
    exists rigs,
      emissiveEmitterLights (fold_left add xs st) =
        emissiveEmitterLights st ++ concat rigs /\
      length rigs = length xs /\
      Forall (fun rig => length rig = k) rigs /\
      (forall r rig j e,
         rigs !! r = Some rig -> rig !! j = Some e ->
         castShadow (light e) =
           ((j =? k / 2)%nat && (edgeRigCount st + r <? 3)%nat)) /\
      edgeRigCount (fold_left add xs st) = (edgeRigCount st + length xs)%nat.
Proof.
  intros Hadd xs. induction xs as [|x xs IH]; intros st Hst; simpl.
  - exists []. simpl. rewrite app_nil_r. repeat split; try lia.
    + constructor.
    + intros r rig j e Hr. now rewrite lookup_nil in Hr.
  - destruct (Hadd st x Hst) as (news & Hnews & Hlen & Hat & Hcount & Hrig).
    destruct (IH (add st x) ltac:(rewrite Hcount, Hrig; reflexivity))
      as (rigs & Hrigs & Hlens & Hall & Hats & Hrigs').
    exists (news :: rigs). rewrite Hrigs, Hnews, <- app_assoc. simpl.
    split; [reflexivity|]. split; [lia|].
    split; [constructor; assumption|]. split; [|lia].
    intros [|r] rig j e Hr Hj; simpl in Hr.
    + injection Hr as <-. rewrite (Hat j e Hj), Hst, Nat.add_0_r.
      f_equal.
      destruct (Nat.ltb_spec (Nat.min 3 (edgeRigCount st)) 3),
        (Nat.ltb_spec (edgeRigCount st) 3); (reflexivity || lia).
    + rewrite (Hats r rig j e Hr Hj), Hrig. do 2 f_equal. lia.
Qed.

Lemma addWashEmitters_no_shadow washCandidates : forall st,
  exists washes,
    emissiveEmitterLights (addWashEmitters maxDim washCandidates st) =
      emissiveEmitterLights st ++ washes /\
    Forall (fun e => castShadow (light e) = false) washes /\
    edgeRigCount (addWashEmitters maxDim washCandidates st) =
      edgeRigCount st.
Proof.
  unfold addWashEmitters.
  induction washCandidates as [|c cs IH]; intros st; simpl.
  - exists []. rewrite app_nil_r. repeat split. constructor.
  - match goal with
    | |- context [fold_left ?f cs ?st1] =>
        destruct (IH st1) as (washes & Hwashes & Hall & Hrig)
    end.
    eexists (_ :: washes). rewrite Hwashes, Hrig. simpl.
    rewrite <- app_assoc. split; [reflexivity|].
    split; [constructor; [reflexivity|exact Hall]|reflexivity].
Qed.

(** X16: shadow maps are handed out one per edge rig, to the first three
    rigs only: the shadow-casting lights of [synthesizeEmitters] number
    min(3, rigs made), and each of them is an Edge LED spot light.  The
    emitters are the lights of the rigs in order, two or three per rig,
    followed by the wash lights; in each of the first three rigs the one
    light that casts a shadow is the one at index floor(n / 2) of the
    rig's [n] lights (the second of two, the middle one of three), and
    no other light casts one. *)
Theorem shadow_casters_capped (cg : ClassifiedGeometry) :
  let st := synthesizeEmitters maxDim boxMinY cg in
  castCount (emissiveEmitterLights st) = Nat.min 3 (edgeRigCount st) /\
  edgeShadowCasterCount st = castCount (emissiveEmitterLights st) /\
  Forall
    (fun e =>
       castShadow (light e) = true ->
       layerType e = edge_led /\ lightKind (light e) = SpotLight)
    (emissiveEmitterLights st) /\
  exists rigs washes,
    emissiveEmitterLights st = concat rigs ++ washes /\
    length rigs = edgeRigCount st /\
    Forall (fun rig => length rig = 2%nat \/ length rig = 3%nat) rigs /\
    (forall r rig i e,
       rigs !! r = Some rig -> rig !! i = Some e ->
       castShadow (light e) =
         ((i =? length rig / 2)%nat && (r <? 3)%nat)) /\
    Forall (fun e => castShadow (light e) = false) washes.
Proof.
  cbv zeta.
  assert (Hcount :
    edgeShadowCasterCount (synthesizeEmitters maxDim boxMinY cg) =
      castCount (emissiveEmitterLights
                   (synthesizeEmitters maxDim boxMinY cg)) /\
    edgeShadowCasterCount (synthesizeEmitters maxDim boxMinY cg) =
      Nat.min 3 (edgeRigCount (synthesizeEmitters maxDim boxMinY cg))).
  { apply (synthesizeEmitters_invariant maxDim boxMinY
             (fun st =>
                edgeShadowCasterCount st =
                  castCount (emissiveEmitterLights st) /\
                edgeShadowCasterCount st = Nat.min 3 (edgeRigCount st))).
    - split; reflexivity.
    - intros st rig _ [Hcast Hcap]. unfold addGuideRig.
      match goal with
      | |- context [addEdgeEmitterRig _ _ ?a ?b ?src ?ph ?fo ?sc ?sf st] =>
          destruct (addEdgeEmitterRig_casts a b src ph fo sc sf st
                      ltac:(lia)) as (H1 & H2 & H3)
      end.
      rewrite H2, H1, H3. lia.
    - intros st candidate _ [Hcast Hcap]. unfold addFallbackRig.
      match goal with
      | |- context [addEdgeEmitterRig _ _ ?a ?b ?src ?ph ?fo ?sc ?sf st] =>
          destruct (addEdgeEmitterRig_casts a b src ph fo sc sf st
                      ltac:(lia)) as (H1 & H2 & H3)
      end.
      rewrite H2, H1, H3. lia.
    - intros st candidate _ [Hcast Hcap]. unfold addWashEmitter. simpl.
      rewrite List.filter_app, length_app. simpl. lia. }
  destruct Hcount as [Hcast Hcap].
  split; [now rewrite <- Hcast|]. split; [exact Hcast|]. split.
  2: { clear Hcast Hcap.
       unfold synthesizeEmitters. rewrite addBaseEmitters_none.
       match goal with
       | |- context [addWashEmitters _ ?ws ?st1] =>
           destruct (addWashEmitters_no_shadow ws st1)
             as (washes & -> & Hwashes & ->)
       end.
       assert (Hrigs : forall {X} (add : RigState -> X -> RigState) xs k,
         (k = 2 \/ k = 3)%nat ->
         (forall st x,
            exists a b src ph fo sc sf,
              add st x =
                addEdgeEmitterRig maxDim boxMinY a b src ph fo sc sf st /\
              normalizedSegmentCountOf sc sf = k) ->
         exists rigs,
           emissiveEmitterLights (fold_left add xs initialRigState) =
             concat rigs /\
           length rigs = edgeRigCount (fold_left add xs initialRigState) /\
           Forall (fun rig => length rig = 2%nat \/ length rig = 3%nat)
             rigs /\
           (forall r rig i e,
              rigs !! r = Some rig -> rig !! i = Some e ->
              castShadow (light e) =
                ((i =? length rig / 2)%nat && (r <? 3)%nat))).
       { intros X add xs k Hk Hadd.
         destruct (fold_rigs_shadow add k) with (xs := xs)
           (st := initialRigState)
           as (rigs & Hrigs & Hlen & Hall & Hat & Hcount);
           [|reflexivity|].
         - intros st x Hst.
           destruct (Hadd st x) as (a & b & src & ph & fo & sc & sf & -> & Hn).
           destruct (addEdgeEmitterRig_shadow_at a b src ph fo sc sf st)
             as (news & Hnews & Hlength & Hshadow).
           destruct (addEdgeEmitterRig_casts a b src ph fo sc sf st
                       ltac:(lia)) as (Hc & _ & Hr).
           rewrite Hn in Hlength, Hshadow.
           exists news. split; [exact Hnews|]. split; [exact Hlength|].
           split; [exact Hshadow|].
           split; [rewrite Hc, Hst; lia|exact Hr].
         - exists rigs. simpl in Hrigs, Hcount.
           split; [exact Hrigs|]. split; [lia|]. split.
           + eapply Forall_impl; [exact Hall|]. simpl. intros; lia.
           + intros r rig i e Hr Hi.
             rewrite (Hat r rig i e Hr Hi).
             rewrite List.Forall_forall in Hall.
             rewrite (Hall rig); [reflexivity|].
             apply list_elem_of_In. eapply list_elem_of_lookup_2; eauto. }
       unfold addEdgeRigs. destruct (0 <? length _)%nat.
       - destruct (Hrigs _ (addGuideRig maxDim boxMinY)
                     (edgeGuideRigsOf cg (edgeUvSamplesOf cg)) 2%nat
                     ltac:(now left))
           as (rigs & -> & Hlen & Hall & Hat).
         { intros st x. unfold addGuideRig. do 7 eexists.
           split; [reflexivity|apply guideSegmentCount]. }
         exists rigs, washes. auto.
       - destruct (Hrigs _ (addFallbackRig maxDim boxMinY)
                     (fallbackRigCandidates maxDim
                        (edgeCandidatesOf maxDim cg (edgeUvSamplesOf cg)))
                     3%nat ltac:(now right))
           as (rigs & -> & Hlen & Hall & Hat).
         { intros st x. unfold addFallbackRig. do 7 eexists.
           split; [reflexivity|apply fallbackSegmentCount]. }
         exists rigs, washes. auto. }
  match goal with
  | |- Forall ?Q _ =>
      apply (synthesizeEmitters_invariant maxDim boxMinY
               (fun st => Forall Q (emissiveEmitterLights st)))
  end.
  - constructor.
  - intros st rig _ Hst. unfold addGuideRig.
    apply addEdgeEmitterRig_invariant; [exact Hst|].
    intros shadow st' segmentIndex segmentPosition _ Hst'.
    unfold addEdgeSegment. cbn -[distanceTo Rmax INR setY].
    apply Forall_app. split; [exact Hst'|]. now repeat constructor.
  - intros st candidate _ Hst. unfold addFallbackRig.
    apply addEdgeEmitterRig_invariant; [exact Hst|].
    intros shadow st' segmentIndex segmentPosition _ Hst'.
    unfold addEdgeSegment. cbn -[distanceTo Rmax INR setY].
    apply Forall_app. split; [exact Hst'|]. now repeat constructor.
  - intros st candidate _ Hst. unfold addWashEmitter. simpl.
    apply Forall_app. split; [exact Hst|]. now repeat constructor.
Qed.

Lemma sampleMeshWorldPoints_one (mesh : Mesh) :
  length (sampleMeshWorldPoints mesh 1) = 1%nat.
Proof.
  destruct (geometry mesh) as [|[[|p positions]|] uv] eqn:Hgeo;
    try (unfold sampleMeshWorldPoints; rewrite Hgeo; reflexivity).
  rewrite (sampleMeshWorldPoints_length mesh (p :: positions) uv 1)
    by (simpl; (easy || lia)).
  pose proof (sampledVerticesOf_nonempty (p :: positions)
                ltac:(simpl; lia)).
  lia.
Qed.

Lemma concat_imap_singletons {A B} (l : list A) :
  forall (f : nat -> A -> list B),
    (forall i a, length (f i a) = 1%nat) ->
    length (concat (imap f l)) = length l.
Proof.
  induction l as [|a l IH]; intros f Hf; simpl; [reflexivity|].
  rewrite length_app.
  specialize (IH (fun i => f (S i)) ltac:(intros; apply Hf)).
  specialize (Hf 0%nat a). unfold compose. lia.
Qed.

(** One wash candidate per wash mesh and per bare wash position. *)
Lemma washCandidatesOf_length (cg : ClassifiedGeometry) edgeUvSamples :
  length (washCandidatesOf cg edgeUvSamples) =
    (length (washLightMeshes cg) + length (washLightPositions cg))%nat.
Proof.
  unfold washCandidatesOf. rewrite length_app, length_imap. f_equal.
  apply concat_imap_singletons. intros i [meshId mesh].
  rewrite length_map. apply sampleMeshWorldPoints_one.
Qed.

Lemma fold_rigs_length {X} (add : RigState -> X -> RigState) (k : nat) :
  (forall st x,
     length (emissiveEmitterLights (add st x)) =
       (length (emissiveEmitterLights st) + k)%nat /\
     edgeRigCount (add st x) = S (edgeRigCount st)) ->
  forall xs st,
    length (emissiveEmitterLights (fold_left add xs st)) =
      (length (emissiveEmitterLights st) + k * length xs)%nat /\
    edgeRigCount (fold_left add xs st) = (edgeRigCount st + length xs)%nat.
Proof.
  intros Hadd xs. induction xs as [|x xs IH]; intros st; simpl.
  - split; lia.
  - destruct (IH (add st x)) as [Hlen Hrig].
    destruct (Hadd st x) as [Hlen1 Hrig1].
    rewrite Hlen, Hrig, Hlen1, Hrig1. split; lia.
Qed.

Lemma addWashEmitters_length washCandidates : forall st,
  length (emissiveEmitterLights
            (addWashEmitters maxDim washCandidates st)) =
    (length (emissiveEmitterLights st) + length washCandidates)%nat /\
  edgeRigCount (addWashEmitters maxDim washCandidates st) = edgeRigCount st.
Proof.
  unfold addWashEmitters.
  induction washCandidates as [|c cs IH]; intros st; simpl; [split; lia|].
  match goal with
  | |- context [fold_left ?f cs ?st1] => destruct (IH st1) as [Hlen Hrig]
  end.
  rewrite Hlen, Hrig. simpl. rewrite length_app. simpl. split; lia.
Qed.

(** X17: how many emitters synthesis makes.  With guide rigs, one rig of
    two spot lights per guide rig; without, one rig of three spot lights
    per selected edge candidate, of which there are at most four; and in
    both cases one point light per wash mesh and per bare wash
    position. *)
Theorem synthesizeEmitters_count (cg : ClassifiedGeometry) :
  let edgeUvSamples := edgeUvSamplesOf cg in
  let guides := edgeGuideRigsOf cg edgeUvSamples in
  let selected :=
    fallbackRigCandidates maxDim
      (edgeCandidatesOf maxDim cg edgeUvSamples) in
  let washes :=
    (length (washLightMeshes cg) + length (washLightPositions cg))%nat in
  let st := synthesizeEmitters maxDim boxMinY cg in
  (length selected <= 4)%nat /\
  (guides <> [] ->
   edgeRigCount st = length guides /\
   length (emissiveEmitterLights st) = (2 * length guides + washes)%nat) /\
  (guides = [] ->
   edgeRigCount st = length selected /\
   length (emissiveEmitterLights st) = (3 * length selected + washes)%nat).
Proof.
  cbv zeta. split.
  { unfold fallbackRigCandidates, maxEdgeEmitters.
    rewrite downsampleEvenly_length by lia. lia. }
  unfold synthesizeEmitters. rewrite addBaseEmitters_none.
  match goal with
  | |- context [addWashEmitters _ ?ws ?st1] =>
      destruct (addWashEmitters_length ws st1) as [Hlen Hrig]
  end.
  rewrite Hlen, Hrig, washCandidatesOf_length. clear Hlen Hrig.
  unfold addEdgeRigs. split.
  - intros Hguides.
    destruct (edgeGuideRigsOf cg (edgeUvSamplesOf cg)) as [|rig rigs] eqn:Hg;
      [easy|].
    change (0 <? length (rig :: rigs))%nat with true. cbv iota.
    destruct (fold_rigs_length (addGuideRig maxDim boxMinY) 2) with
      (xs := rig :: rigs) (st := initialRigState) as [Hlen Hrig].
    { intros st x. unfold addGuideRig.
      match goal with
      | |- context [addEdgeEmitterRig _ _ ?a ?b ?src ?ph ?fo ?sc ?sf st] =>
          destruct (addEdgeEmitterRig_new maxDim boxMinY a b src ph fo sc
                      sf st) as (news & Hnews & Hn & _ & Hcount)
      end.
      rewrite Hnews, length_app, Hn, Hcount. now rewrite guideSegmentCount. }
    rewrite Hlen, Hrig. simpl. lia.
  - intros ->. change (0 <? length [])%nat with false. cbv iota.
    match goal with
    | |- context [fold_left _ ?cs initialRigState] => set (selected := cs)
    end.
    destruct (fold_rigs_length (addFallbackRig maxDim boxMinY) 3) with
      (xs := selected) (st := initialRigState) as [Hlen Hrig].
    { intros st x. unfold addFallbackRig.
      match goal with
      | |- context [addEdgeEmitterRig _ _ ?a ?b ?src ?ph ?fo ?sc ?sf st] =>
          destruct (addEdgeEmitterRig_new maxDim boxMinY a b src ph fo sc
                      sf st) as (news & Hnews & Hn & _ & Hcount)
      end.
      rewrite Hnews, length_app, Hn, Hcount.
      now rewrite fallbackSegmentCount. }
    rewrite Hlen, Hrig. simpl. lia.
Qed.

End RigCountFacts.

(** ** Frames and handlers *)

Section FrameFacts.

(** An update overwrites what an earlier update under the same effect
    wrote. *)
Lemma updateEmitter_absorb objs effect time time' speed speed' scale scale'
    emitter :
  updateEmitter objs effect time speed scale
    (updateEmitter objs effect time' speed' scale' emitter) =
  updateEmitter objs effect time speed scale emitter.
Proof.
  unfold updateEmitter, shouldEmitterBeVisible.
  destruct (decide (effect = off)) as [|_];
    [unfold setIntensity, setEmitterVisible, setLight; simpl;
     now destruct (target emitter)|].
  destruct (followSourceVisibility emitter) eqn:Hfollow; simpl.
  - destruct (sourceVisible objs (sourceObject emitter)) eqn:Hsource; simpl.
    + destruct (evaluateEmitterEffect effect time' (phase emitter) speed');
        simpl. rewrite Hfollow, Hsource. simpl.
      destruct (evaluateEmitterEffect effect time (phase emitter) speed).
      unfold setIntensity, setColor, setEmitterVisible, setLight. simpl.
      now destruct (target emitter).
    + rewrite Hfollow, Hsource. simpl.
      unfold setIntensity, setEmitterVisible, setLight. simpl.
      now destruct (target emitter).
  - destruct (evaluateEmitterEffect effect time' (phase emitter) speed');
      simpl. rewrite Hfollow. simpl.
    destruct (evaluateEmitterEffect effect time (phase emitter) speed).
    unfold setIntensity, setColor, setEmitterVisible, setLight. simpl.
    now destruct (target emitter).
Qed.

(** X18: animation frames do not build on one another: the state after a
    frame at [later] is the same whether or not a frame at [earlier] was
    drawn before it (so drawing the same frame twice changes nothing). *)
Theorem animate_latest_frame_wins (earlier later : R) (v : ViewerState) :
  animate later (animate earlier v) = animate later v.
Proof.
  unfold animate. simpl. f_equal.
  - rewrite map_map. apply map_ext. now intros [].
  - rewrite map_map. apply map_ext. now intros [].
  - rewrite map_map. apply map_ext. intros emitter.
    rewrite updateEmitter_layerType. apply updateEmitter_absorb.
Qed.




(** What rig synthesis fixed of an emitter: its source, flag, group,
    phase and base intensity; its light's kind, place, range and shadow
    flag; where its target is. *)
Local Abbreviation sameRig before after :=
  (sourceObject after = sourceObject before /\
   followSourceVisibility after = followSourceVisibility before /\
   layerType after = layerType before /\
   phase after = phase before /\
   baseIntensity after = baseIntensity before /\
   lightKind (light after) = lightKind (light before) /\
   lightPosition (light after) = lightPosition (light before) /\
   distance (light after) = distance (light before) /\
   castShadow (light after) = castShadow (light before) /\
   targetPosition <$> target after = targetPosition <$> target before).

Lemma setEmitterVisible_sameRig visible' emitter :
  sameRig emitter (setEmitterVisible visible' emitter).
Proof.
  unfold setEmitterVisible, setLight. simpl. repeat split.
  now destruct (target emitter).
Qed.

Lemma updateEmitter_sameRig objs effect time speed scale emitter :
  sameRig emitter (updateEmitter objs effect time speed scale emitter).
Proof.
  unfold updateEmitter.
  destruct (negb _); [|destruct (evaluateEmitterEffect _ _ _ _)];
    unfold setIntensity, setColor, setEmitterVisible, setLight; simpl;
    repeat split; now destruct (target emitter).
Qed.

(** X20: no handler and no frame adds, drops or reorders emitters, and
    none changes what synthesis fixed of an emitter: its source, its
    follow flag, its group, its phase, its base intensity, its light's
    kind, position, range and shadow flag, and its target's position.
    They only write visibility, intensity and colour. *)
Theorem handlers_keep_rig (v : ViewerState) :
  (forall lightEffect edgeGlowIntensity currentTime,
     Forall2 (fun before after => sameRig before after) (emitterLights v)
       (emitterLights
          (onLightEffect lightEffect edgeGlowIntensity currentTime v))) /\
  (forall washLightEffect currentTime,
     Forall2 (fun before after => sameRig before after) (emitterLights v)
       (emitterLights (onWashLightEffect washLightEffect currentTime v))) /\
  (forall layers,
     Forall2 (fun before after => sameRig before after) (emitterLights v)
       (emitterLights (onLayers layers v))) /\
  (forall elapsedTime,
     Forall2 (fun before after => sameRig before after) (emitterLights v)
       (emitterLights (animate elapsedTime v))).
Proof.
  split; [|split; [|split]]; intros; simpl; apply Forall2_map_self;
    intros emitter.
  - destruct (isLinearEmitter emitter);
      [apply updateEmitter_sameRig|repeat split].
  - destruct (isWashEmitter emitter);
      [apply updateEmitter_sameRig|repeat split].
  - apply setEmitterVisible_sameRig.
  - apply updateEmitter_sameRig.
Qed.

Lemma isWashEmitter_update objs effect time speed scale emitter :
  isWashEmitter (updateEmitter objs effect time speed scale emitter) =
    isWashEmitter emitter.
Proof. unfold isWashEmitter. now rewrite updateEmitter_layerType. Qed.

Lemma linear_or_wash emitter :
  isLinearEmitter emitter = negb (isWashEmitter emitter).
Proof.
  unfold isLinearEmitter, isWashEmitter. now destruct (layerType emitter).
Qed.

(** Updating the members of one group leaves the members of a disjoint
    group as they are. *)
Lemma filter_map_other {A} (p q : A -> bool) (f : A -> A) l :
  (forall a, p a = true -> q a = false) ->
  (forall a, q (f a) = q a) ->
  List.filter q (map (fun a => if p a then f a else a) l) = List.filter q l.
Proof.
  intros Hpq Hf. induction l as [|a l IH]; [reflexivity|].
  cbn [map List.filter]. rewrite IH.
  destruct (p a) eqn:Hp; [|reflexivity].
  now rewrite Hf, (Hpq a Hp).
Qed.

(** X21: the linear hook and the wash hook do not interfere.  Each
    leaves the other group's emitters, shaders and active effect as they
    are, and applying the two in either order yields the same
    emitters. *)
Theorem linear_and_wash_hooks_commute
    (lightEffect washLightEffect : LightEffect)
    (edgeGlowIntensity linearTime washTime : R) (v : ViewerState) :
  let linear := onLightEffect lightEffect edgeGlowIntensity linearTime in
  let wash := onWashLightEffect washLightEffect washTime in
  emitterLights (linear (wash v)) = emitterLights (wash (linear v)) /\
  List.filter isWashEmitter (emitterLights (linear v)) =
    List.filter isWashEmitter (emitterLights v) /\
  List.filter isLinearEmitter (emitterLights (wash v)) =
    List.filter isLinearEmitter (emitterLights v) /\
  washShaderMaterials (linear v) = washShaderMaterials v /\
  shaderMaterials (wash v) = shaderMaterials v /\
  activeWashLightEffect (linear v) = activeWashLightEffect v /\
  activeLightEffect (wash v) = activeLightEffect v.
Proof.
  cbv zeta. split; [|split; [|split]]; [| | |easy].
  - simpl. rewrite !map_map. apply map_ext. intros emitter.
    pose proof (linear_or_wash emitter) as Hgroup.
    destruct (isWashEmitter emitter) eqn:Hwash; simpl in Hgroup.
    + rewrite isLinearEmitter_update, Hgroup, Hwash.
      apply updateEmitter_ext. intros source.
      repeat first
        [ rewrite restoreOriginals_visible
        | rewrite applyShaders_visible
        | match goal with
          | |- context [if ?c then _ else _] => destruct c
          end ]; reflexivity.
    + rewrite Hgroup, isWashEmitter_update, Hwash.
      apply updateEmitter_ext. intros source.
      repeat first
        [ rewrite restoreOriginals_visible
        | rewrite applyShaders_visible
        | match goal with
          | |- context [if ?c then _ else _] => destruct c
          end ]; reflexivity.
  - apply filter_map_other.
    + intros e He. rewrite linear_or_wash in He.
      now destruct (isWashEmitter e).
    + intros e. apply isWashEmitter_update.
  - apply filter_map_other.
    + intros e He. rewrite linear_or_wash. now rewrite He.
    + intros e. apply isLinearEmitter_update.
Qed.

End FrameFacts.

(** ** Turning the glow on *)

Section GlowFacts.

Lemma wear_other (shaders : list ShaderMaterial)
    (entries : list (nat * ObjectId)) id :
  ~ In id (map snd entries) ->
  forall objs,
    fold_left
      (fun (objs : gmap ObjectId Object3D) (entry : nat * ObjectId) =>
         let '(index, mesh) := entry in
         match shaders !! index with
         | Some shader => alter (setMaterial (shaderId shader)) mesh objs
         | None => objs
         end)
      entries objs !! id = objs !! id.
Proof.
  induction entries as [|[index mesh] entries IH]; intros Hid objs;
    [reflexivity|].
  simpl in *. rewrite IH by tauto.
  destruct (shaders !! index); [|reflexivity].
  apply lookup_alter_ne. tauto.
Qed.

Lemma wear_own (shaders : list ShaderMaterial)
    (entries : list (nat * ObjectId)) index mesh shader :
  NoDup (map snd entries) ->
  In (index, mesh) entries ->
  shaders !! index = Some shader ->
  forall objs,
    fold_left
      (fun (objs : gmap ObjectId Object3D) (entry : nat * ObjectId) =>
         let '(index, mesh) := entry in
         match shaders !! index with
         | Some shader => alter (setMaterial (shaderId shader)) mesh objs
         | None => objs
         end)
      entries objs !! mesh =
      setMaterial (shaderId shader) <$> objs !! mesh.
Proof.
  induction entries as [|[index' mesh'] entries IH];
    intros Hnodup Hin Hshader objs; [easy|].
  simpl in Hnodup. apply NoDup_cons in Hnodup as [Hfresh Hnodup].
  rewrite list_elem_of_In in Hfresh.
  destruct Hin as [[= -> ->]|Hin]; simpl.
  - rewrite wear_other by exact Hfresh. rewrite Hshader.
    apply lookup_alter_eq.
  - rewrite (IH Hnodup Hin Hshader).
    destruct (shaders !! index'); [|reflexivity].
    rewrite lookup_alter_ne; [reflexivity|].
    intros ->. apply Hfresh. apply in_map_iff. now exists (index, mesh).
Qed.

Lemma imap_pair_snd (meshes : list ObjectId) :
  forall start, map snd (imap (fun i => pair (start + i)%nat) meshes) = meshes.
Proof.
  induction meshes as [|mesh meshes IH]; intros start; [reflexivity|].
  simpl. f_equal.
  rewrite <- (IH (S start)) at 2. f_equal. apply imap_ext.
  intros i x _. simpl. f_equal. lia.
Qed.

(** After [applyShaders], the mesh at each position wears the shader at
    that position; objects that are not in the list are untouched. *)
Lemma applyShaders_lookup shaders meshes objs :
  NoDup meshes ->
  (forall index mesh shader,
     meshes !! index = Some mesh -> shaders !! index = Some shader ->
     applyShaders shaders meshes objs !! mesh =
       setMaterial (shaderId shader) <$> objs !! mesh) /\
  (forall id, ~ In id meshes ->
     applyShaders shaders meshes objs !! id = objs !! id).
Proof.
  intros Hnodup.
  assert (Hsnd : map snd (imap pair meshes) = meshes)
    by exact (imap_pair_snd meshes 0).
  split.
  - intros index mesh shader Hmesh Hshader. unfold applyShaders.
    apply (wear_own shaders _ index mesh shader); [| |exact Hshader].
    + now rewrite Hsnd.
    + apply list_elem_of_In.
      apply (elem_of_lookup_imap_2 pair meshes mesh index Hmesh).
  - intros id Hid. unfold applyShaders. apply wear_other.
    now rewrite Hsnd.
Qed.

Lemma applyShaders_objVisible shaders meshes id : forall objs,
  objVisible <$> applyShaders shaders meshes objs !! id =
    objVisible <$> objs !! id.
Proof.
  unfold applyShaders. generalize (imap pair meshes). intros entries.
  induction entries as [|[index mesh] entries IH]; intros objs;
    [reflexivity|].
  simpl. rewrite IH. destruct (shaders !! index); [|reflexivity].
  rewrite lookup_alter. destruct (decide (mesh = id)) as [->|];
    [|reflexivity].
  now destruct (objs !! id).
Qed.

(** X22: selecting an effect other than off with the Edge LED glow above
    0.0001 puts on the linear mesh at each position the glow shader made
    for that position, leaves every other object and every visibility as
    it was, and sets on every linear shader the colour and effect type of
    [getEffectVisual], keeping its time, intensity and speed. *)
Theorem linear_glow_on_wears_shaders
    (v : ViewerState) (lightEffect : LightEffect)
    (edgeGlowIntensity currentTime : R) :
  lightEffect <> off -> 0.0001 < edgeGlowIntensity ->
  NoDup (emissiveMeshes v) ->
  let v' := onLightEffect lightEffect edgeGlowIntensity currentTime v in
  (forall index mesh shader,
     emissiveMeshes v !! index = Some mesh ->
     shaderMaterials v !! index = Some shader ->
     is_Some (objects v !! mesh) ->
     material <$> objects v' !! mesh = Some (shaderId shader)) /\
  (forall id, ~ In id (emissiveMeshes v) ->
     objects v' !! id = objects v !! id) /\
  (forall id, objVisible <$> objects v' !! id =
              objVisible <$> objects v !! id) /\
  Forall2
    (fun before after =>
       shaderId after = shaderId before /\
       uColor after = baseColor (getEffectVisual lightEffect) /\
       uEffectType after = effectType (getEffectVisual lightEffect) /\
       uTime after = uTime before /\
       uIntensity after = uIntensity before /\
       uSpeed after = uSpeed before)
    (shaderMaterials v) (shaderMaterials v').
Proof.
  intros Heffect Hglow Hnodup v'. subst v'. unfold onLightEffect.
  assert (Hon : negb (bool_decide (lightEffect = off)) &&
                Js.gtb edgeGlowIntensity 0.0001 = true).
  { rewrite bool_decide_eq_false_2 by exact Heffect. simpl.
    unfold Js.gtb. now apply ltb_true. }
  cbv zeta. rewrite !Hon. simpl.
  destruct (applyShaders_lookup (shaderMaterials v) (emissiveMeshes v)
              (objects v) Hnodup) as [Hown Hother].
  split; [|split; [exact Hother|split]].
  - intros index mesh shader Hmesh Hshader [child Hchild].
    rewrite (Hown index mesh shader Hmesh Hshader), Hchild. reflexivity.
  - intros id. apply applyShaders_objVisible.
  - apply Forall2_map_self. now intros [].
Qed.

(** From off to pink-wave over two meshes: mesh 1 goes from its clone
    10 to shader 20 and mesh 2 from its clone 11 to shader 21, each the
    shader at its own position, and both shaders take the colour and the
    effect type (2) of pink-wave. *)
Lemma linear_glow_on_wears_shaders_witness :
  let v' := onLightEffect pink_wave 1.5 2 darkViewer in
  (material <$> objects darkViewer !! 1%nat = Some 10%nat /\
   material <$> objects darkViewer !! 2%nat = Some 11%nat) /\
  (material <$> objects v' !! 1%nat = Some 20%nat /\
   material <$> objects v' !! 2%nat = Some 21%nat) /\
  map (fun shader => (shaderId shader, uColor shader, uEffectType shader))
      (shaderMaterials v') =
    [(20%nat, 0xF7B5CD%Z, 2%Z); (21%nat, 0xF7B5CD%Z, 2%Z)].
Proof.
  pose proof (linear_glow_on_wears_shaders darkViewer pink_wave 1.5 2
                ltac:(discriminate) ltac:(lra) ltac:(compute_done))
    as (Hown & _ & _ & _).
  cbv zeta. split; [split; reflexivity|]. split.
  2: { assert (Hglow : Js.gtb 1.5 0.0001 = true)
         by (unfold Js.gtb; apply ltb_true; lra).
       unfold onLightEffect. cbv zeta. simpl. rewrite Hglow. reflexivity. }
  split.
  - apply (Hown 0%nat 1%nat
             {| shaderId := 20%nat; uTime := 0; uColor := 0xF7B5CD;
                uIntensity := 1.5; uSpeed := 1; uEffectType := 0 |});
      [reflexivity|reflexivity|now eexists].
  - apply (Hown 1%nat 2%nat
             {| shaderId := 21%nat; uTime := 0; uColor := 0xF7B5CD;
                uIntensity := 1.5; uSpeed := 1; uEffectType := 0 |});
      [reflexivity|reflexivity|now eexists].
Defined.

End GlowFacts.

(** ** The layer list and the layers hook *)

Section LayerFacts.

Lemma withVisible_same (layer : RhinoLayer) :
  App.withVisible (layerVisible layer) layer = layer.
Proof. now destruct layer. Qed.

(** X23: toggling a layer twice gives the layer list back; toggling an
    index that no layer has changes nothing; toggles of two indices can
    be done in either order; and a toggle never changes the number, the
    order, the indices, the names or the colours of the layers. *)
Theorem handleToggleHeronLayer_involutive
    (index1 index2 : Z) (layers : list RhinoLayer) :
  App.handleToggleHeronLayer index1
    (App.handleToggleHeronLayer index1 layers) = layers /\
  (Forall (fun layer => index layer <> index1) layers ->
   App.handleToggleHeronLayer index1 layers = layers) /\
  App.handleToggleHeronLayer index1
    (App.handleToggleHeronLayer index2 layers) =
  App.handleToggleHeronLayer index2
    (App.handleToggleHeronLayer index1 layers) /\
  map (fun layer => (index layer, name layer, layerColor layer))
      (App.handleToggleHeronLayer index1 layers) =
    map (fun layer => (index layer, name layer, layerColor layer)) layers.
Proof.
  unfold App.handleToggleHeronLayer. split; [|split; [|split]].
  - rewrite map_map. rewrite <- (map_id layers) at 2. apply map_ext.
    intros layer. destruct (Z.eqb_spec (index layer) index1) as [Heq|Hne].
    + simpl. rewrite Heq, Z.eqb_refl. unfold App.withVisible. simpl.
      rewrite negb_involutive. now destruct layer.
    + now apply Z.eqb_neq in Hne as ->.
  - intros Hnone. rewrite <- (map_id layers) at 2.
    apply map_ext_in. intros layer Hin.
    rewrite List.Forall_forall in Hnone.
    now apply Hnone, Z.eqb_neq in Hin as ->.
  - rewrite !map_map. apply map_ext. intros layer.
    destruct (index layer =? index1)%Z eqn:H1,
      (index layer =? index2)%Z eqn:H2; simpl;
      rewrite ?H1, ?H2; simpl; rewrite ?H1, ?H2; reflexivity.
  - rewrite map_map. apply map_ext. intros layer.
    now destruct (index layer =? index1)%Z.
Qed.

Lemma find_withVisible visible' li (layers : list RhinoLayer) :
  List.find (fun l => (index l =? li)%Z) (map (App.withVisible visible') layers)
  = App.withVisible visible' <$>
      List.find (fun l => (index l =? li)%Z) layers.
Proof.
  induction layers as [|layer layers IH]; [reflexivity|].
  simpl. destruct (index layer =? li)%Z; [reflexivity|exact IH].
Qed.

Lemma find_index_Some li (layers : list RhinoLayer) :
  In li (map index layers) ->
  is_Some (List.find (fun l => (index l =? li)%Z) layers).
Proof.
  intros Hin. apply in_map_iff in Hin as (layer & <- & Hin).
  destruct (List.find _ layers) eqn:Hfind; [now eexists|].
  apply (find_none _ _ Hfind) in Hin. now rewrite Z.eqb_refl in Hin.
Qed.

(** Show all / hide all, followed by the layers hook. *)
Lemma onLayers_all visible' (layers : list RhinoLayer) (v : ViewerState)
    id child :
  objects v !! id = Some child ->
  objects (onLayers (map (App.withVisible visible') layers) v) !! id =
    Some match layerIndex child with
         | Some li =>
             if In_dec Z.eq_dec li (map index layers)
             then setObjVisible visible' child else child
         | None => child
         end.
Proof.
  intros Hchild. simpl. rewrite lookup_fmap, Hchild. simpl. f_equal.
  destruct (layerIndex child) as [li|]; [|reflexivity].
  rewrite find_withVisible.
  destruct (In_dec Z.eq_dec li (map index layers)) as [Hin|Hout].
  - now destruct (find_index_Some li layers Hin) as [layer ->].
  - destruct (List.find _ layers) as [layer|] eqn:Hfind; [|reflexivity].
    exfalso. apply Hout. apply find_some in Hfind as [Hin Heq].
    apply Z.eqb_eq in Heq as <-. now apply in_map.
Qed.

(** X24: after Hide all, the layers hook hides every object tagged with
    a listed layer and leaves the others, and all materials, as they
    were; every emitter that follows a source hidden this way has its
    light and target invisible, whatever effect is active, while an
    emitter that does not follow its source stays visible under any
    linear effect but off.  After Show all every object tagged with a
    listed layer is visible. *)
Theorem hide_all_hides_tagged_objects
    (layers : list RhinoLayer) (v : ViewerState) :
  let hidden := onLayers (App.handleHideAllHeronLayers layers) v in
  let shown := onLayers (App.handleShowAllHeronLayers layers) v in
  (forall id child li,
     objects v !! id = Some child -> layerIndex child = Some li ->
     In li (map index layers) ->
     objVisible <$> objects hidden !! id = Some false /\
     objVisible <$> objects shown !! id = Some true) /\
  (forall id child,
     objects v !! id = Some child ->
     (forall li, layerIndex child = Some li -> ~ In li (map index layers)) ->
     objects hidden !! id = Some child /\
     objects shown !! id = Some child) /\
  (forall id,
     material <$> objects hidden !! id = material <$> objects v !! id) /\
  Forall2
    (fun before after =>
       (forall id child li,
          followSourceVisibility before = true ->
          sourceObject before = SceneObject id ->
          objects v !! id = Some child -> layerIndex child = Some li ->
          In li (map index layers) ->
          visible (light after) = false /\
          forall t, target after = Some t -> targetVisible t = false) /\
       (followSourceVisibility before = false ->
        activeLightEffect v <> off -> visible (light after) = true))
    (emitterLights v) (emitterLights hidden).
Proof.
  cbv zeta. unfold App.handleHideAllHeronLayers, App.handleShowAllHeronLayers.
  split; [|split; [|split]].
  - intros id child li Hchild Hli Hin.
    rewrite !(onLayers_all _ layers v id child Hchild), Hli.
    destruct (In_dec _ _ _); [|contradiction]. now split.
  - intros id child Hchild Hout.
    rewrite !(onLayers_all _ layers v id child Hchild).
    destruct (layerIndex child) as [li|]; [|now split].
    destruct (In_dec _ _ _) as [Hin|]; [|now split].
    now destruct (Hout li eq_refl).
  - intros id. simpl. rewrite lookup_fmap.
    destruct (objects v !! id) as [child|]; [|reflexivity]. simpl.
    destruct (layerIndex child); [|reflexivity].
    now destruct (List.find _ _).
  - change (emitterLights (onLayers (map (App.withVisible false) layers) v))
      with (map (fun emitter =>
                   setEmitterVisible
                     (shouldEmitterBeVisible
                        (objects (onLayers (map (App.withVisible false)
                                              layers) v))
                        emitter (activeLightEffect v)) emitter)
              (emitterLights v)).
    apply Forall2_map_self. intros emitter. split.
    + intros id child li Hfollow Hsource Hchild Hli Hin.
      assert (Hhidden : shouldEmitterBeVisible
                (objects (onLayers (map (App.withVisible false) layers) v))
                emitter (activeLightEffect v) = false).
      { unfold shouldEmitterBeVisible.
        destruct (decide (activeLightEffect v = off)); [reflexivity|].
        rewrite Hfollow, Hsource. cbn [negb sourceVisible].
        rewrite (onLayers_all _ layers v id child Hchild), Hli.
        destruct (In_dec _ _ _); [reflexivity|contradiction]. }
      rewrite Hhidden. unfold setEmitterVisible, setLight. simpl.
      split; [reflexivity|].
      intros t. destruct (target emitter); simpl; [|easy]. now intros [= <-].
    + intros Hfollow Hon. unfold shouldEmitterBeVisible.
      destruct (decide (activeLightEffect v = off)); [contradiction|].
      now rewrite Hfollow.
Qed.

End LayerFacts.

(** ** Light settings and registration *)

Section SettingsFacts.

(** X25: a change of the light settings leaves objects and emitters as
    they are and keeps nothing of the settings before it: applying
    [now] after [before] gives what applying [now] alone gives, so that
    leaving debug mode restores bloom strength and fog density to their
    sliders.  Every linear and every wash shader takes the Edge LED glow
    as its intensity and the effect speed as its speed.  The next frame
    lights every emitter that should be visible at base intensity times
    effect multiplier (at the new speed) times the new slider of its
    group, and the others at 0. *)
Theorem light_settings_take_effect_next_frame
    (before now : Settings.LightSettings) (v : ViewerState)
    (env : Settings.Environment) (elapsedTime : R) :
  let v' := fst (Settings.onLightSettings now v env) in
  let env' := snd (Settings.onLightSettings now v env) in
  (let '(v1, env1) := Settings.onLightSettings before v env in
   Settings.onLightSettings now v1 env1) = (v', env') /\
  objects v' = objects v /\ emitterLights v' = emitterLights v /\
  Forall2
    (fun old new =>
       uIntensity new = Settings.edgeGlowIntensity now /\
       uSpeed new = Settings.effectSpeed now /\
       shaderId new = shaderId old /\ uTime new = uTime old /\
       uColor new = uColor old /\ uEffectType new = uEffectType old)
    (shaderMaterials v ++ washShaderMaterials v)
    (shaderMaterials v' ++ washShaderMaterials v') /\
  Forall2
    (fun old new =>
       let wash := bool_decide (layerType old = wash_lights) in
       let effect :=
         if wash then activeWashLightEffect v else activeLightEffect v in
       let scale :=
         if wash then Settings.washIntensity now
         else Settings.emitterIntensity now in
       intensity (light new) =
         if shouldEmitterBeVisible (objects v) old effect
         then baseIntensity old *
              intensityOf effect elapsedTime (phase old)
                (Settings.effectSpeed now) * scale
         else 0)
    (emitterLights v) (emitterLights (animate elapsedTime v')).
Proof.
  cbv zeta. split; [|split; [reflexivity|split; [reflexivity|split]]].
  - unfold Settings.onLightSettings. simpl. f_equal.
    + f_equal; rewrite map_map; apply map_ext; now intros [].
    + destruct env as [debug ambient first second bloom density ground].
      simpl.
      now destruct ambient, first, second, bloom, density, ground.
  - simpl. rewrite <- map_app. apply Forall2_map_self. now intros [].
  - simpl. apply Forall2_map_self. intros emitter.
    set (wash := bool_decide (layerType emitter = wash_lights)).
    match goal with
    | |- context [updateEmitter ?objs ?effect ?time ?speed ?scale emitter] =>
        pose proof (updateEmitter_result objs effect time speed scale emitter)
          as Hresult
    end.
    cbv zeta in Hresult. fold wash in Hresult.
    destruct (shouldEmitterBeVisible _ _ _); tauto.
Qed.

(** X26: registering a linear mesh keeps the mesh list and the shader
    list aligned: the new mesh and the shader made for it, with time 0,
    the default pink, the current glow and speed and effect type 0, sit
    at the same new position, the entries before them are untouched,
    and the powered-down clone is stored for the mesh.  No handler
    changes the length of either list. *)
Theorem registerLinearMesh_aligned
    (child : ObjectId) (offMaterial shader : MaterialId)
    (edgeGlowIntensity speed : R) (v : ViewerState) :
  length (shaderMaterials v) = length (emissiveMeshes v) ->
  let v' :=
    registerLinearMesh child offMaterial shader edgeGlowIntensity speed v in
  let position := length (emissiveMeshes v) in
  length (shaderMaterials v') = length (emissiveMeshes v') /\
  emissiveMeshes v' !! position = Some child /\
  shaderMaterials v' !! position =
    Some {| shaderId := shader; uTime := 0; uColor := 0xF7B5CD;
            uIntensity := edgeGlowIntensity; uSpeed := speed;
            uEffectType := 0 |} /\
  originalMaterials v' !! child = Some offMaterial /\
  (forall i, (i < position)%nat ->
     emissiveMeshes v' !! i = emissiveMeshes v !! i /\
     shaderMaterials v' !! i = shaderMaterials v !! i) /\
  (forall lightEffect glow currentTime layers,
     let handled :=
       animate currentTime
         (onLayers layers
            (onWashLightEffect lightEffect currentTime
               (onLightEffect lightEffect glow currentTime v'))) in
     emissiveMeshes handled = emissiveMeshes v' /\
     length (shaderMaterials handled) = length (shaderMaterials v')).
Proof.
  intros Haligned. cbv zeta. simpl.
  rewrite !length_app, Haligned. simpl.
  split; [reflexivity|]. split.
  { rewrite lookup_app_r by lia. now rewrite Nat.sub_diag. }
  split.
  { rewrite lookup_app_r by lia. now rewrite Haligned, Nat.sub_diag. }
  split; [apply lookup_insert_eq|]. split.
  - intros i Hi. rewrite !lookup_app_l by lia. now split.
  - intros lightEffect glow currentTime layers. split; [reflexivity|].
    rewrite length_map.
    destruct (negb _); rewrite ?length_map, ?length_app; simpl; lia.
Qed.

(** A second linear mesh, 2, registered on the sample viewer. *)
Lemma registerLinearMesh_aligned_witness :
  let v' := registerLinearMesh 2%nat 11%nat 21%nat 1.5 1
              (plazaViewer off off) in
  emissiveMeshes v' !! 1%nat = Some 2%nat /\
  shaderId <$> shaderMaterials v' !! 1%nat = Some 21%nat.
Proof.
  destruct (registerLinearMesh_aligned 2%nat 11%nat 21%nat 1.5 1
              (plazaViewer off off) eq_refl)
    as (_ & Hmesh & Hshader & _).
  cbv zeta. split; [exact Hmesh|].
  exact (f_equal (fmap shaderId) Hshader).
Defined.

End SettingsFacts.
